(** * ResourceManager: the resource cache of the scheduler plugin

    A shallow embedding of [src/models/ResourceManager.ts].  JavaScript
    objects live in an explicit heap (resources are compared by identity
    with [===], and the children arrays are shared and mutated in place),
    the object used as a dictionary ([resourcesById]) is a [gmap] from
    identifiers to heap locations, and every method is a computation in a
    small state-and-exception monad.

    Conventions.
    - Identifiers are modelled after [String(...)] has been applied.
    - [resourcesById] is read through its own properties only (identifiers
      are assumed not to be names inherited from [Object.prototype]).
    - [fetchId] and [resourceGuid] are JavaScript numbers; they are modelled
      as exact naturals of type [N] (increments are exact below 2^53).
    - Pass-through fields of a raw input that no method of the manager reads
      (title, eventClassName, businessHours, ...) are not represented, and a
      raw input has no [parent] property of its own.
    - A response body, or a parsed response text, that is truthy is an array
      of raw inputs.
    - The recursions that follow the object graph take a bound on their
      depth; running past it is the exhaustion of the call stack.
    - What the manager hands to its collaborators (the event emitter, the
      calendar, user callbacks, the resource source) is recorded in an
      output trace; handlers are opaque and are not re-entered. *)

From stdpp Require Import gmap strings list fin_maps pretty.

Local Open Scope string_scope.
Local Open Scope list_scope.
Local Open Scope nat_scope.

(** ** Data model *)

Abbreviation loc := nat.
Abbreviation aref := nat.

(** A moment of the calendar; [isSame] compares instants. *)
Abbreviation Moment := Z.

Definition isSame (a b : Moment) : bool := bool_decide (a = b).

(** The part of a raw resource input that the manager reads. *)
#[warnings="-register-all"]
Inductive RawInput : Type :=
  ResourceInput (rid : option string) (rparentId : option string)
                (rchildren : list RawInput).

Definition in_id (i : RawInput) : option string :=
  match i with ResourceInput x _ _ => x end.
Definition in_parentId (i : RawInput) : option string :=
  match i with ResourceInput _ x _ => x end.
Definition in_children (i : RawInput) : list RawInput :=
  match i with ResourceInput _ _ x => x end.

(** A resource object on the heap. *)
Record Resource : Type := mkResource {
  id : string;
  parentId : option string;
  parent : option loc;
  children : list loc
}.

Global Instance Resource_eq_dec : EqDecision Resource.
Proof. solve_decision. Defined.

(** Functions held by the manager: user callbacks are opaque and named by a
    number; the two closures created by [addResource] and [removeResource]
    are kept with what they capture. *)
Inductive Callback : Type :=
  | UserCallback (n : nat)
  | AddClosure (resourceInput : RawInput) (callback : option nat)
  | RemoveClosure (rid : string).

(** The value of the calendar option [resources].  The success hook of a
    remote descriptor is an external function of the parsed inputs; it may
    return an array that replaces them.  Of the error hook only its presence
    matters. *)
Record Descriptor : Type := mkDescriptor {
  url : string;
  method : option string;
  success : option (list RawInput → option (list RawInput));
  error : bool
}.

(** What the transport hands to the response handler.  A body or a parsed
    text that is truthy is an array of raw inputs. *)
Inductive JsonValue : Type :=
  | JsonArray (inputs : list RawInput)
  | JsonFalsy.

Record Response : Type := mkResponse {
  body : JsonValue;
  text : string
}.

Inductive Source : Type :=
  | SrcArray (inputs : list RawInput)
  | SrcString (u : string)
  | SrcFunction
  | SrcObject (d : Descriptor)
  | SrcOther.

(** The closure handed to [fetchResourceInputs] by [fetchResources]: it
    captures [currentFetchId] and the array [callbacks]. *)
Record FetchClosure : Type := mkFetchClosure {
  currentFetchId : N;
  callbacks : aref
}.

Inductive Error : Type := TypeError | RangeError | SyntaxError.

Inductive Effect : Type :=
  | Trigger_set (top : option (list loc))
  | Trigger_reset (top : option (list loc))
  | Trigger_add (resource : loc) (top : option (list loc))
  | Trigger_remove (resource : loc) (top : option (list loc))
  | PubliclyTrigger_resourcesSet (top : option (list loc))
  | Call (n : nat) (top : option (list loc))
  | CallWithResource (n : nat) (resource : loc)
  | PushLoading
  | PopLoading
  | SourceInvoked (k : FetchClosure) (start end_ : option Moment)
                  (timezone : option string)
  | RequestSent (k : FetchClosure) (d : Descriptor)
                (range : option (Moment * Moment)) (timezone : option string)
  | SuccessHook (inputs : list RawInput) (res : Response)
  | ErrorHook (err : option string) (res : Response).

(** The heap, the static counter, one manager instance, the calendar
    options it reads and the output trace. *)
Record State : Type := mkState {
  heap : gmap loc Resource;
  nextLoc : loc;
  arrays : gmap aref (list Callback);
  nextArray : aref;
  resourceGuid : N;                       (* static, shared by all instances *)
  topLevelResources : option (list loc);  (* None is null *)
  resourcesById : gmap string loc;
  fetchId : N;
  isFetchingInitiated : bool;
  isFetchingResolved : bool;
  fetchingResourcesCallbacks : option aref;
  currentStart : option Moment;
  currentEnd : option Moment;
  opt_resources : Source;
  opt_timezone : option string;
  trace : list Effect
}.

Definition set_heap (f : gmap loc Resource → gmap loc Resource) (s : State) : State :=
  mkState (f (heap s)) (nextLoc s) (arrays s) (nextArray s) (resourceGuid s)
    (topLevelResources s) (resourcesById s) (fetchId s) (isFetchingInitiated s)
    (isFetchingResolved s) (fetchingResourcesCallbacks s) (currentStart s)
    (currentEnd s) (opt_resources s) (opt_timezone s) (trace s).

Definition set_nextLoc (n : loc) (s : State) : State :=
  mkState (heap s) n (arrays s) (nextArray s) (resourceGuid s)
    (topLevelResources s) (resourcesById s) (fetchId s) (isFetchingInitiated s)
    (isFetchingResolved s) (fetchingResourcesCallbacks s) (currentStart s)
    (currentEnd s) (opt_resources s) (opt_timezone s) (trace s).

Definition set_arrays (f : gmap aref (list Callback) → gmap aref (list Callback))
    (s : State) : State :=
  mkState (heap s) (nextLoc s) (f (arrays s)) (nextArray s) (resourceGuid s)
    (topLevelResources s) (resourcesById s) (fetchId s) (isFetchingInitiated s)
    (isFetchingResolved s) (fetchingResourcesCallbacks s) (currentStart s)
    (currentEnd s) (opt_resources s) (opt_timezone s) (trace s).

Definition set_nextArray (n : aref) (s : State) : State :=
  mkState (heap s) (nextLoc s) (arrays s) n (resourceGuid s)
    (topLevelResources s) (resourcesById s) (fetchId s) (isFetchingInitiated s)
    (isFetchingResolved s) (fetchingResourcesCallbacks s) (currentStart s)
    (currentEnd s) (opt_resources s) (opt_timezone s) (trace s).

Definition set_resourceGuid (n : N) (s : State) : State :=
  mkState (heap s) (nextLoc s) (arrays s) (nextArray s) n
    (topLevelResources s) (resourcesById s) (fetchId s) (isFetchingInitiated s)
    (isFetchingResolved s) (fetchingResourcesCallbacks s) (currentStart s)
    (currentEnd s) (opt_resources s) (opt_timezone s) (trace s).

Definition set_topLevelResources (t : option (list loc)) (s : State) : State :=
  mkState (heap s) (nextLoc s) (arrays s) (nextArray s) (resourceGuid s)
    t (resourcesById s) (fetchId s) (isFetchingInitiated s)
    (isFetchingResolved s) (fetchingResourcesCallbacks s) (currentStart s)
    (currentEnd s) (opt_resources s) (opt_timezone s) (trace s).

Definition set_resourcesById (f : gmap string loc → gmap string loc) (s : State) : State :=
  mkState (heap s) (nextLoc s) (arrays s) (nextArray s) (resourceGuid s)
    (topLevelResources s) (f (resourcesById s)) (fetchId s) (isFetchingInitiated s)
    (isFetchingResolved s) (fetchingResourcesCallbacks s) (currentStart s)
    (currentEnd s) (opt_resources s) (opt_timezone s) (trace s).

Definition set_fetchId (n : N) (s : State) : State :=
  mkState (heap s) (nextLoc s) (arrays s) (nextArray s) (resourceGuid s)
    (topLevelResources s) (resourcesById s) n (isFetchingInitiated s)
    (isFetchingResolved s) (fetchingResourcesCallbacks s) (currentStart s)
    (currentEnd s) (opt_resources s) (opt_timezone s) (trace s).

Definition set_isFetchingInitiated (b : bool) (s : State) : State :=
  mkState (heap s) (nextLoc s) (arrays s) (nextArray s) (resourceGuid s)
    (topLevelResources s) (resourcesById s) (fetchId s) b
    (isFetchingResolved s) (fetchingResourcesCallbacks s) (currentStart s)
    (currentEnd s) (opt_resources s) (opt_timezone s) (trace s).

Definition set_isFetchingResolved (b : bool) (s : State) : State :=
  mkState (heap s) (nextLoc s) (arrays s) (nextArray s) (resourceGuid s)
    (topLevelResources s) (resourcesById s) (fetchId s) (isFetchingInitiated s)
    b (fetchingResourcesCallbacks s) (currentStart s)
    (currentEnd s) (opt_resources s) (opt_timezone s) (trace s).

Definition set_fetchingResourcesCallbacks (a : option aref) (s : State) : State :=
  mkState (heap s) (nextLoc s) (arrays s) (nextArray s) (resourceGuid s)
    (topLevelResources s) (resourcesById s) (fetchId s) (isFetchingInitiated s)
    (isFetchingResolved s) a (currentStart s)
    (currentEnd s) (opt_resources s) (opt_timezone s) (trace s).

(** Appending to the output trace. *)
Definition emits (es : list Effect) (s : State) : State :=
  mkState (heap s) (nextLoc s) (arrays s) (nextArray s) (resourceGuid s)
    (topLevelResources s) (resourcesById s) (fetchId s) (isFetchingInitiated s)
    (isFetchingResolved s) (fetchingResourcesCallbacks s) (currentStart s)
    (currentEnd s) (opt_resources s) (opt_timezone s) (trace s ++ es).

Definition emit (e : Effect) (s : State) : State := emits [e] s.

(** ** The monad of methods: state and JavaScript exceptions *)

Inductive Outcome (A : Type) : Type :=
  | Ok (a : A) (s : State)
  | Throw (e : Error) (s : State).
Arguments Ok {A} a s.
Arguments Throw {A} e s.

Definition M (A : Type) : Type := State → Outcome A.

Definition ret {A} (a : A) : M A := fun s => Ok a s.
Definition throw {A} (e : Error) : M A := fun s => Throw e s.
Definition bind {A B} (m : M A) (k : A → M B) : M B :=
  fun s => match m s with
           | Ok a s' => k a s'
           | Throw e s' => Throw e s'
           end.
Definition get : M State := fun s => Ok s s.
Definition modify (f : State → State) : M unit := fun s => Ok tt (f s).

Notation "'let*' x ':=' m 'in' k" := (bind m (fun x => k))
  (at level 10, x name, m at level 200, k at level 200, only parsing).

(** [xs.map(f)] *)
Fixpoint mapM {A B} (f : A → M B) (xs : list A) : M (list B) :=
  match xs with
  | [] => ret []
  | x :: xs' =>
      let* y := f x in
      let* ys := mapM f xs' in
      ret (y :: ys)
  end.

(** [for (x of xs) body(x)] *)
Fixpoint forEach {A} (xs : list A) (body : A → M unit) : M unit :=
  match xs with
  | [] => ret tt
  | x :: xs' => let* _ := body x in forEach xs' body
  end.

Definition state_of {A} (o : Outcome A) : State :=
  match o with Ok _ s => s | Throw _ s => s end.

(** Reading a property of a heap object; a reference that is not an object
    raises a TypeError as a property read of [undefined] does. *)
Definition deref (l : loc) : M Resource :=
  fun s => match heap s !! l with
           | Some r => Ok r s
           | None => Throw TypeError s
           end.

Definition set_parent (p : option loc) (r : Resource) : Resource :=
  mkResource (id r) (parentId r) p (children r).
Definition set_children (c : list loc) (r : Resource) : Resource :=
  mkResource (id r) (parentId r) (parent r) c.

(** ** Resource data utils *)

(** [resource.id]: the caller's identifier, or ['_fc' + (resourceGuid++)]. *)
Definition assignId (rid : option string) : M string :=
  match rid with
  | Some i => ret i
  | None =>
      let* s := get in
      let* _ := modify (set_resourceGuid (resourceGuid s + 1)) in
      ret ("_fc" +:+ pretty (resourceGuid s))
  end.

(** [buildResource]: the object is allocated first, its identifier is
    assigned, then the children are built in order, each with its [parent]
    set to the new object. *)
Fixpoint buildResource (resourceInput : RawInput) : M loc :=
  match resourceInput with
  | ResourceInput rid rpid rch =>
      let* s := get in
      let resource := nextLoc s in
      let* _ := modify (set_nextLoc (S resource)) in
      let* ident := assignId rid in
      let* kids :=
        mapM (fun childInput =>
                let* child := buildResource childInput in
                let* _ := modify (set_heap (alter (set_parent (Some resource)) child)) in
                ret child) rch in
      let* _ := modify (set_heap <[resource := mkResource ident rpid None kids]>) in
      ret resource
  end.

(** The function mapped over the children of an input by [buildResource]. *)
Definition buildChild (resource : loc) (childInput : RawInput) : M loc :=
  let* child := buildResource childInput in
  let* _ := modify (set_heap (alter (set_parent (Some resource)) child)) in
  ret child.

(** ** Resource adding *)

Definition initializeCache : M unit :=
  let* _ := modify (set_topLevelResources (Some [])) in
  modify (set_resourcesById (fun _ => ∅)).

(** [addResourceToIndex]: the recursion follows the children arrays of the
    heap; [fuel] bounds its depth, and running out of it is the exhaustion
    of the call stack. *)
Fixpoint addResourceToIndex (fuel : nat) (resource : loc) : M bool :=
  match fuel with
  | 0 => throw RangeError
  | S fuel' =>
      let* r := deref resource in
      let* s := get in
      match resourcesById s !! id r with
      | Some _ => ret false
      | None =>
          let* _ := modify (set_resourcesById <[id r := resource]>) in
          let* _ := forEach (children r)
            (fun child => let* _ := addResourceToIndex fuel' child in ret tt) in
          ret true
      end
  end.

(** [siblings.push(resource)] where [siblings] is the children array of the
    object [p]. *)
Definition pushChild (p resource : loc) : M unit :=
  modify (set_heap (alter (fun r => set_children (children r ++ [resource]) r) p)).

(** [String(resource.parentId != null ? resource.parentId : '')], tested
    for truthiness: the identifier of the parent, unless absent or empty. *)
Definition parentIdOf (r : Resource) : option string :=
  match parentId r with
  | Some p => if bool_decide (p = "") then None else Some p
  | None => None
  end.

Definition addResourceToTree (resource : loc) : M bool :=
  let* r := deref resource in
  match parent r with
  | Some _ => ret true
  | None =>
      let* s := get in
      match parentIdOf r with
      | Some pid =>
          match resourcesById s !! pid with
          | Some p =>
              let* _ := modify (set_heap (alter (set_parent (Some p)) resource)) in
              let* _ := pushChild p resource in
              ret true
          | None => ret false
          end
      | None =>
          match topLevelResources s with
          | Some top =>
              let* _ := modify (set_topLevelResources (Some (top ++ [resource]))) in
              ret true
          | None => throw TypeError
          end
      end
  end.

(** The depth that the recursions over the heap graph can need. *)
Definition stackFuel (s : State) : nat := S (size (heap s)).

(** The first loop of [setResources]: the resources that enter the index. *)
Fixpoint indexAll (fuel : nat) (resources : list loc) : M (list loc) :=
  match resources with
  | [] => ret []
  | resource :: rest =>
      let* ok := addResourceToIndex fuel resource in
      let* valid := indexAll fuel rest in
      ret (if ok : bool then resource :: valid else valid)
  end.

Definition setResources (resourceInputs : list RawInput) : M unit :=
  let* s0 := get in
  let wasSet := bool_decide (is_Some (topLevelResources s0)) in
  let* _ := initializeCache in
  let* resources := mapM buildResource resourceInputs in
  let* s1 := get in
  let* validResources := indexAll (stackFuel s1) resources in
  let* _ := forEach validResources
    (fun resource => let* _ := addResourceToTree resource in ret tt) in
  let* s2 := get in
  let top := topLevelResources s2 in
  let* _ := modify (emit (if wasSet then Trigger_reset top else Trigger_set top)) in
  modify (emit (PubliclyTrigger_resourcesSet top)).

Definition clear : M unit :=
  let* _ := modify (set_isFetchingInitiated false) in
  modify (set_topLevelResources None).

Definition resetCurrentResources : M unit :=
  let* s := get in
  match topLevelResources s with
  | Some top => modify (emit (Trigger_reset (Some top)))
  | None => ret tt
  end.

(** ** Resource removing *)

(** [removeResourceFromIndex]: the children are removed by the identifier
    each of them carries; the source returns [false] when nothing is found,
    rendered here as [None]. *)
Fixpoint removeResourceFromIndex (fuel : nat) (resourceId : string) : M (option loc) :=
  match fuel with
  | 0 => throw RangeError
  | S fuel' =>
      let* s := get in
      match resourcesById s !! resourceId with
      | Some resource =>
          let* _ := modify (set_resourcesById (delete resourceId)) in
          let* r := deref resource in
          let* _ := forEach (children r)
            (fun child =>
               let* c := deref child in
               let* _ := removeResourceFromIndex fuel' (id c) in
               ret tt) in
          ret (Some resource)
      | None => ret None
      end
  end.

(** The array that [removeResourceFromTree] searches: the top-level list or
    the children array of a heap object. *)
Inductive Siblings : Type :=
  | TopLevel
  | ChildrenOf (p : loc).

Definition readSiblings (siblings : Siblings) : M (list loc) :=
  match siblings with
  | TopLevel =>
      let* s := get in
      match topLevelResources s with
      | Some top => ret top
      | None => throw TypeError
      end
  | ChildrenOf p =>
      let* r := deref p in
      ret (children r)
  end.

(** [siblings.splice(i, 1)] *)
Definition spliceSiblings (siblings : Siblings) (i : nat) : M unit :=
  match siblings with
  | TopLevel =>
      let* top := readSiblings TopLevel in
      modify (set_topLevelResources (Some (delete i top)))
  | ChildrenOf p =>
      modify (set_heap (alter (fun r => set_children (delete i (children r)) r) p))
  end.

(** The loop of [removeResourceFromTree] over [siblings], from position [i];
    [recurse] is the recursive call on the children of a sibling. *)
Fixpoint searchSiblings (recurse : Siblings → M bool) (resource : loc)
    (siblings : Siblings) (i : nat) (rest : list loc) : M bool :=
  match rest with
  | [] => ret false
  | sibling :: rest' =>
      if bool_decide (sibling = resource) then
        let* _ := modify (set_heap (alter (set_parent None) resource)) in
        let* _ := spliceSiblings siblings i in
        ret true
      else
        let* found := recurse (ChildrenOf sibling) in
        if found : bool then ret true
        else searchSiblings recurse resource siblings (S i) rest'
  end.

Fixpoint removeResourceFromTree (fuel : nat) (resource : loc) (siblings : Siblings)
    : M bool :=
  match fuel with
  | 0 => throw RangeError
  | S fuel' =>
      let* arr := readSiblings siblings in
      searchSiblings (removeResourceFromTree fuel' resource) resource siblings 0 arr
  end.

Definition indexFuel (s : State) : nat := S (size (resourcesById s)).

(** ** The closures of [addResource] and [removeResource], and calls *)

Definition addClosure (resourceInput : RawInput) (callback : option nat) : M unit :=
  let* resource := buildResource resourceInput in
  let* s := get in
  let* ok := addResourceToIndex (stackFuel s) resource in
  if ok : bool then
    let* _ := addResourceToTree resource in
    let* s' := get in
    let* _ := modify (emit (Trigger_add resource (topLevelResources s'))) in
    match callback with
    | Some n => modify (emit (CallWithResource n resource))
    | None => ret tt
    end
  else ret tt.

Definition removeClosure (rid : string) : M unit :=
  let* s := get in
  let* found := removeResourceFromIndex (indexFuel s) rid in
  match found with
  | Some resource =>
      let* _ := removeResourceFromTree (stackFuel s) resource TopLevel in
      let* s' := get in
      modify (emit (Trigger_remove resource (topLevelResources s')))
  | None => ret tt
  end.

(** Calling a function held by the manager with the top-level array as its
    argument.  The array is shared with the manager, so a user callback sees
    its contents at the time of the call. *)
Definition invoke (cb : Callback) : M unit :=
  match cb with
  | UserCallback n =>
      let* s := get in
      modify (emit (Call n (topLevelResources s)))
  | AddClosure resourceInput callback => addClosure resourceInput callback
  | RemoveClosure rid => removeClosure rid
  end.

(** [applyAll(functions, null, [topLevelResources])] of the host library:
    the functions of the array are called in order. *)
Definition applyAll (functions : aref) : M unit :=
  let* s := get in
  match arrays s !! functions with
  | Some fs => forEach fs invoke
  | None => throw TypeError
  end.

(** ** Resource data getting *)

Definition whenFetchingResolved (callback : Callback) : M unit :=
  let* s := get in
  if isFetchingResolved s then invoke callback
  else
    match fetchingResourcesCallbacks s with
    | Some a => modify (set_arrays (alter (fun fs => fs ++ [callback]) a))
    | None => throw TypeError
    end.

(** The function that [fetchResources] passes to [fetchResourceInputs]. *)
Definition fetchCompletion (k : FetchClosure) (resourceInputs : list RawInput) : M unit :=
  let* s := get in
  if bool_decide (currentFetchId k = fetchId s) then
    let* _ := setResources resourceInputs in
    let* _ := modify (set_isFetchingResolved true) in
    let* _ := modify (set_fetchingResourcesCallbacks None) in
    applyAll (callbacks k)
  else ret tt.

(** The request parameters: the range when both ends are given, and the
    time zone when one other than ['local'] is configured. *)
Definition requestRange (start end_ : option Moment) : option (Moment * Moment) :=
  match start, end_ with
  | Some a, Some b => Some (a, b)
  | _, _ => None
  end.

Definition requestTimezone (start end_ : option Moment) (tz : option string)
    : option string :=
  match requestRange start end_, tz with
  | Some _, Some z =>
      if bool_decide (z = "") || bool_decide (z = "local") then None else Some z
  | _, _ => None
  end.

(** [fetchResourceInputs]: an array completes at once; a function source
    and a remote descriptor are started, and complete later through
    [sourceCompletes] and [onResponse]. *)
Definition fetchResourceInputs (callback : FetchClosure) (start end_ : option Moment)
    : M unit :=
  let* s := get in
  let source :=
    match opt_resources s with
    | SrcString u => SrcObject (mkDescriptor u None None false)
    | src => src
    end in
  match source with
  | SrcArray inputs => fetchCompletion callback inputs
  | SrcFunction =>
      let* _ := modify (emit PushLoading) in
      modify (emit (SourceInvoked callback start end_ (opt_timezone s)))
  | SrcObject d =>
      let* _ := modify (emit PushLoading) in
      modify (emit (RequestSent callback d (requestRange start end_)
                      (requestTimezone start end_ (opt_timezone s))))
  | _ => fetchCompletion callback []
  end.

(** The function source calls the completion it was given. *)
Definition sourceCompletes (k : FetchClosure) (resourceInputs : list RawInput) : M unit :=
  let* _ := modify (emit PopLoading) in
  fetchCompletion k resourceInputs.

Section Remote.

(** [JSON.parse]: [None] is a SyntaxError. *)
Variable JSON_parse : string → option JsonValue.

(** The handler given to [theRequest.end]. *)
Definition onResponse (k : FetchClosure) (source : Descriptor)
    (err : option string) (res : Response) : M unit :=
  let* _ := modify (emit PopLoading) in
  let* resourceInputs :=
    match err with
    | Some _ => ret JsonFalsy
    | None =>
        match body res with
        | JsonArray a => ret (JsonArray a)
        | JsonFalsy =>
            if bool_decide (text res = "") then ret JsonFalsy
            else
              match JSON_parse (text res) with
              | Some v => ret v
              | None => throw SyntaxError
              end
        end
    end in
  match resourceInputs with
  | JsonArray inputs =>
      match success source with
      | Some hook =>
          let* _ := modify (emit (SuccessHook inputs res)) in
          fetchCompletion k (default inputs (hook inputs))
      | None => fetchCompletion k inputs
      end
  | JsonFalsy =>
      let* _ := (if error source then modify (emit (ErrorHook err res)) else ret tt) in
      fetchCompletion k []
  end.

End Remote.

Definition fetchResources (start end_ : option Moment) (callback : Callback) : M unit :=
  let* s := get in
  let currentFetchId := (fetchId s + 1)%N in
  let* _ := modify (set_fetchId currentFetchId) in
  let* _ := modify (set_isFetchingInitiated true) in
  let* _ := modify (set_isFetchingResolved false) in
  let callbacks := nextArray s in
  let* _ := modify (set_nextArray (S callbacks)) in
  let* _ := modify (set_arrays <[callbacks := [callback]]>) in
  let* _ := modify (set_fetchingResourcesCallbacks (Some callbacks)) in
  fetchResourceInputs (mkFetchClosure currentFetchId callbacks) start end_.

(** [isSameRange]; [end.isSame] on an absent [end] is a TypeError, and a
    moment is never the same as an absent one. *)
Definition isSameRange (start end_ : option Moment) : M bool :=
  let* s := get in
  match start, currentStart s with
  | None, None => ret true
  | Some a, Some b =>
      if isSame a b then
        match end_, currentEnd s with
        | Some e, Some ce => ret (isSame e ce)
        | Some _, None => ret false
        | None, _ => throw TypeError
        end
      else ret false
  | _, _ => ret false
  end.

Definition getResources (start end_ : option Moment) (callback : Callback) : M unit :=
  let* same := isSameRange start end_ in
  let* s := get in
  if negb (isFetchingInitiated s) || negb same then
    fetchResources start end_ callback
  else
    whenFetchingResolved callback.


Definition getFlatResources (s : State) : list loc :=
  (map_to_list (resourcesById s)).*2.

Definition addResource (resourceInput : RawInput) (callback : option nat) : M unit :=
  let* s := get in
  if isFetchingInitiated s then
    whenFetchingResolved (AddClosure resourceInput callback)
  else ret tt.

Inductive IdOrResource : Type :=
  | AnId (rid : string)
  | AResource (l : loc).

Definition removeResource (idOrResource : IdOrResource) : M unit :=
  let* rid :=
    match idOrResource with
    | AnId i => ret i
    | AResource l => let* r := deref l in ret (id r)
    end in
  let* s := get in
  if isFetchingInitiated s then
    whenFetchingResolved (RemoveClosure rid)
  else ret tt.

(** The field initialisers of a new instance in a fresh process, before the
    body of the constructor runs. *)
Definition blankManager (resources : Source) (timezone : option string) : State :=
  mkState ∅ 0 ∅ 0 1 None ∅ 0 false false None None None resources timezone [].

(** [new ResourceManager(calendar)]: the constructor calls
    [initializeCache]. *)
Definition newManager (resources : Source) (timezone : option string) : State :=
  state_of (initializeCache (blankManager resources timezone)).

(** * Specification vocabulary *)


(** ** Induction over raw inputs, through the list of children *)

Section RawInput_induction.
Variable P : RawInput → Prop.
Hypothesis step : ∀ rid rpid rch, Forall P rch → P (ResourceInput rid rpid rch).

Fixpoint RawInput_nested_ind (i : RawInput) : P i :=
  match i with
  | ResourceInput rid rpid rch =>
      step rid rpid rch
        ((fix all (l : list RawInput) : Forall P l :=
            match l with
            | [] => Forall_nil_2 P
            | x :: l' => Forall_cons_2 P x l' (RawInput_nested_ind x) (all l')
            end) rch)
  end.
End RawInput_induction.


(** ** Frame properties *)

(** A computation relates every state to the state it ends in, whether it
    returns or throws. *)
Definition respects (R : relation State) {A} (m : M A) : Prop :=
  ∀ s, R s (state_of (m s)).

(** The relation that keeps a projection of the state. *)
Definition same {X} (f : State → X) : relation State :=
  fun s s' => f s' = f s.

(** A computation leaves a projection of the state alone. *)
Definition preserves {X A} (f : State → X) (m : M A) : Prop :=
  respects (same f) m.

(** The relations that each kind of update of the state respects. *)
Definition heap_independent (R : relation State) : Prop :=
  (∀ g s, R s (set_heap g s)) ∧ (∀ n s, R s (set_nextLoc n s)).
Definition guid_independent (R : relation State) : Prop :=
  ∀ s, R s (set_resourceGuid (resourceGuid s + 1) s).
Definition index_independent (R : relation State) : Prop :=
  ∀ g s, R s (set_resourcesById g s).
Definition top_independent (R : relation State) : Prop :=
  ∀ t s, R s (set_topLevelResources t s).
Definition trace_independent (R : relation State) : Prop :=
  ∀ es s, R s (emits es s).
Definition fetch_independent (R : relation State) : Prop :=
  (∀ g s, R s (set_arrays g s)) ∧ (∀ n s, R s (set_nextArray n s))
  ∧ (∀ n s, R s (set_fetchId n s))
  ∧ (∀ b s, R s (set_isFetchingInitiated b s))
  ∧ (∀ b s, R s (set_isFetchingResolved b s))
  ∧ (∀ a s, R s (set_fetchingResourcesCallbacks a s)).

(** The static counter never decreases. *)
Definition guid_le : relation State :=
  fun s s' => (resourceGuid s ≤ resourceGuid s')%N.

(** ** Vocabulary of the claims *)


(** The heap has no dangling reference: every object sits below the
    allocation pointer and the members of its children array are objects.
    JavaScript heaps always are in this shape. *)
Definition heap_closed (s : State) : Prop :=
  ∀ l r, heap s !! l = Some r →
    l < nextLoc s ∧ ∀ c, c ∈ children r → is_Some (heap s !! c).

(** The identifier [buildResource] gives to the object built from an input. *)
Definition builtIdent (input : RawInput) (s : State) : string :=
  match in_id input with
  | Some i => i
  | None => "_fc" +:+ pretty (resourceGuid s)
  end.

(** The number of heap objects whose identifier is not a key of the index:
    the measure that bounds the recursion of [addResourceToIndex]. *)
Definition unindexed (h : gmap loc Resource) (m : gmap string loc) : nat :=
  size (filter (fun lr => m !! id lr.2 = None) h).

(** ** Overlapping fetches *)

(** A source that completes later: a function or a remote descriptor. *)
Definition is_async (src : Source) : Prop :=
  match src with
  | SrcFunction | SrcObject _ | SrcString _ => True
  | _ => False
  end.

(** What starting a fetch on such a source adds to the trace. *)
Definition startEffects (s : State) (k : FetchClosure) (start end_ : option Moment)
    : list Effect :=
  match opt_resources s with
  | SrcFunction => [PushLoading; SourceInvoked k start end_ (opt_timezone s)]
  | SrcObject d =>
      [PushLoading; RequestSent k d (requestRange start end_)
                      (requestTimezone start end_ (opt_timezone s))]
  | SrcString u =>
      [PushLoading; RequestSent k (mkDescriptor u None None false)
                      (requestRange start end_)
                      (requestTimezone start end_ (opt_timezone s))]
  | _ => []
  end.



(** ** Operations on a manager *)

(** The calls a host can make on the manager, and the completions that the
    resource source delivers. *)
Inductive Op : Type :=
  | GetResources (start end_ : option Moment) (callback : nat)
  | FetchResources (start end_ : option Moment) (callback : nat)
  | WhenFetchingResolved (callback : nat)
  | SetResources (resourceInputs : list RawInput)
  | ResetCurrentResources
  | Clear
  | AddResource (resourceInput : RawInput) (callback : option nat)
  | RemoveResource (idOrResource : IdOrResource)
  | SourceCompletes (k : FetchClosure) (resourceInputs : list RawInput)
  | ResponseArrives (k : FetchClosure) (source : Descriptor)
                    (err : option string) (res : Response).

Definition step (JSON_parse : string → option JsonValue) (op : Op) : M unit :=
  match op with
  | GetResources start end_ n => getResources start end_ (UserCallback n)
  | FetchResources start end_ n => fetchResources start end_ (UserCallback n)
  | WhenFetchingResolved n => whenFetchingResolved (UserCallback n)
  | SetResources inputs => setResources inputs
  | ResetCurrentResources => resetCurrentResources
  | Clear => clear
  | AddResource input callback => addResource input callback
  | RemoveResource a => removeResource a
  | SourceCompletes k inputs => sourceCompletes k inputs
  | ResponseArrives k d err res => onResponse JSON_parse k d err res
  end.

(** The state after an operation; an exception leaves the state it was
    raised in. *)
Definition exec (JSON_parse : string → option JsonValue) (s : State) (op : Op) : State :=
  state_of (step JSON_parse op s).

Definition run (JSON_parse : string → option JsonValue) (ops : list Op) (s : State)
    : State :=
  foldl (exec JSON_parse) s ops.

(** ** Positions in an input

    A path selects a nested input by the index of a child at each level;
    the same indices, followed through the [children] arrays of the heap,
    select the object built for it. *)
Fixpoint subInput (input : RawInput) (path : list nat) : option RawInput :=
  match path with
  | [] => Some input
  | k :: path' =>
      match in_children input !! k with
      | Some c => subInput c path'
      | None => None
      end
  end.

Fixpoint descend (h : gmap loc Resource) (l : loc) (path : list nat) : option loc :=
  match path with
  | [] => Some l
  | k :: path' =>
      match h !! l with
      | Some r =>
          match children r !! k with
          | Some c => descend h c path'
          | None => None
          end
      | None => None
      end
  end.

(** The identifier of the object found at [path] below [l]. *)
Definition idAt (h : gmap loc Resource) (l : loc) (path : list nat) : option string :=
  match descend h l path with
  | Some l' => id <$> h !! l'
  | None => None
  end.

(** The input at [path] has no identifier of its own. *)
Definition anonymous (input : RawInput) (path : list nat) : Prop :=
  ∃ i, subInput input path = Some i ∧ in_id i = None.

(** What a build from state [s] to state [s'] does for the inputs without
    identifier: each object carries ['_fc'] followed by a value that the
    counter took during the build, and no two of them the same. *)
Definition generated_post (input : RawInput) (s s' : State) : Prop :=
  (∀ p, anonymous input p →
     ∃ n, idAt (heap s') (nextLoc s) p = Some ("_fc" +:+ pretty n)
          ∧ (resourceGuid s ≤ n < resourceGuid s')%N)
  ∧ (∀ p1 p2, anonymous input p1 → anonymous input p2 → p1 ≠ p2 →
       idAt (heap s') (nextLoc s) p1 ≠ idAt (heap s') (nextLoc s) p2).

(** ** A small concrete state

    Resource ["a"] at the top level; resource ["b"], whose parent identifier
    is ["a"], built and indexed but not yet attached. *)
Definition demoState : State :=
  mkState {[ 0 := mkResource "a" None None []; 1 := mkResource "b" (Some "a") None [] ]}
    2 ∅ 0 1 (Some [0]) {[ "a" := 0; "b" := 1 ]} 1 true true None None None
    (SrcArray []) None [].

(** ** Removal from the index *)

(** The identifiers that [removeResourceFromIndex] visits from [rid]: [rid]
    itself and, for every visited identifier that has an entry, the
    identifiers carried by the children of the object of that entry. *)
Inductive descFrom (h : gmap loc Resource) (m : gmap string loc) (rid : string)
    : string → Prop :=
  | desc_self : descFrom h m rid rid
  | desc_child i l r c rc :
      descFrom h m rid i →
      m !! i = Some l → h !! l = Some r → c ∈ children r → h !! c = Some rc →
      descFrom h m rid (id rc).


(** Only entries are removed, and with an entry the entries of the
    children of its object. *)
Definition swept (h : gmap loc Resource) (m m' : gmap string loc) : Prop :=
  m' ⊆ m
  ∧ ∀ i l r c rc,
      m !! i = Some l → m' !! i = None →
      h !! l = Some r → c ∈ children r → h !! c = Some rc →
      m' !! id rc = None.

(** The values of the index are objects. *)
Definition index_closed (s : State) : Prop :=
  ∀ i l, resourcesById s !! i = Some l → is_Some (heap s !! l).

(** ** The tree *)

(** Reachable from the top-level list by following children arrays. *)
Inductive reachable (s : State) : loc → Prop :=
  | reach_top top l :
      topLevelResources s = Some top → l ∈ top → reachable s l
  | reach_child p r l :
      reachable s p → heap s !! p = Some r → l ∈ children r → reachable s l.

(** Present in the flat index. *)
Definition indexed (s : State) (l : loc) : Prop := l ∈ getFlatResources s.


(** ** The forest that the heap represents

    A ghost description of the object graph under the top-level list: a
    forest of heap locations.  [repr h t] says that the children arrays of
    the heap [h] spell out the tree [t]. *)
#[warnings="-register-all"]
Inductive tree : Type := Node (l : loc) (ts : list tree).

Definition root (t : tree) : loc := match t with Node l _ => l end.

Fixpoint nodes (t : tree) : list loc :=
  match t with Node l ts => l :: (ts ≫= nodes) end.

Definition fnodes (F : list tree) : list loc := F ≫= nodes.

#[warnings="-register-all"]
Inductive repr (h : gmap loc Resource) : tree → Prop :=
  | repr_node l ts r :
      h !! l = Some r → children r = root <$> ts → Forall (repr h) ts →
      repr h (Node l ts).

(** The forest without the subtree rooted at [x]. *)
Fixpoint prune (x : loc) (t : tree) : tree :=
  match t with
  | Node l ts =>
      Node l (omap (fun t' => if decide (root t' = x) then None
                              else Some (prune x t')) ts)
  end.

Definition prune_forest (x : loc) (F : list tree) : list tree :=
  omap (fun t => if decide (root t = x) then None else Some (prune x t)) F.

(** The forest with [t] added as the last child of the node [p]. *)
Fixpoint graft (p : loc) (t : tree) (u : tree) : tree :=
  match u with
  | Node l ts => Node l ((graft p t <$> ts) ++ (if decide (l = p) then [t] else []))
  end.

Section tree_induction.
Variable P : tree → Prop.
Hypothesis step : ∀ l ts, Forall P ts → P (Node l ts).

Fixpoint tree_nested_ind (t : tree) : P t :=
  match t with
  | Node l ts =>
      step l ts
        ((fix all (ts : list tree) : Forall P ts :=
            match ts with
            | [] => Forall_nil_2 P
            | t :: ts' => Forall_cons_2 P t ts' (tree_nested_ind t) (all ts')
            end) ts)
  end.
End tree_induction.




(** What one call of [buildResource] does to the heap: the new objects
    occupy the locations from the old allocation pointer to the new one and
    form a tree. *)
Definition build_post (input : RawInput) (s s' : State) : Prop :=
  (heap_closed s → heap_closed s')
  ∧ nextLoc s < nextLoc s'
  ∧ (∀ l, l < nextLoc s → heap s' !! l = heap s !! l)
  ∧ (∃ kids, heap s' !! nextLoc s =
       Some (mkResource (builtIdent input s) (in_parentId input) None kids))
  ∧ (resourceGuid s + match in_id input with Some _ => 0 | None => 1 end
       ≤ resourceGuid s')%N
  ∧ (∃ t, root t = nextLoc s ∧ repr (heap s') t ∧ NoDup (nodes t)
          ∧ ∀ l, l ∈ nodes t ↔ nextLoc s ≤ l < nextLoc s').






(** What [removeResourceFromTree] has done when it found [x] in the forest
    [F] stored under [siblings]: the array of siblings and the children
    arrays now represent the pruned forest; objects outside the forest keep
    their state, identifiers are untouched and children arrays only shrink. *)
Definition detached (x : loc) (F : list tree) (siblings : Siblings) (s s' : State) : Prop :=
  readSiblings siblings s' = Ok (root <$> prune_forest x F) s'
  ∧ Forall (repr (heap s')) (prune_forest x F)
  ∧ (∀ l, l ∉ fnodes F → siblings ≠ ChildrenOf l → heap s' !! l = heap s !! l)
  ∧ (∀ l, id <$> heap s' !! l = id <$> heap s !! l)
  ∧ (∀ l r', heap s' !! l = Some r' →
       ∃ r, heap s !! l = Some r ∧ ∀ c, c ∈ children r' → c ∈ children r)
  ∧ (siblings ≠ TopLevel → topLevelResources s' = topLevelResources s)
  ∧ nextLoc s' = nextLoc s
  ∧ resourcesById s' = resourcesById s.

(** The forest [F] is what the heap stores under [siblings]. *)
Definition stored (F : list tree) (siblings : Siblings) (s : State) : Prop :=
  Forall (repr (heap s)) F
  ∧ NoDup (fnodes F)
  ∧ readSiblings siblings s = Ok (root <$> F) s
  ∧ (∀ p, siblings = ChildrenOf p → p ∉ fnodes F).

(** The outcome of a search for [x] in the stored forest [F]. *)
Definition search_ok (x : loc) (F : list tree) (siblings : Siblings) (s : State)
    (o : Outcome bool) : Prop :=
  if decide (x ∈ fnodes F)
  then ∃ s', o = Ok true s' ∧ detached x F siblings s s'
  else o = Ok false s.

(** ** Operations that keep index and tree in lockstep *)









(** A fetch has been initiated and has resolved. *)
Definition resolved (s : State) : Prop :=
  isFetchingInitiated s = true ∧ isFetchingResolved s = true.



(** * Vocabulary of the further properties *)

(** The part of the state that the fetch coordinator owns. *)
Definition fetchState (s : State)
    : N * bool * bool * option aref * gmap aref (list Callback) :=
  (fetchId s, isFetchingInitiated s, isFetchingResolved s,
   fetchingResourcesCallbacks s, arrays s).

(** ** Building *)

(** The number of inputs in an input, nested ones included, and the number
    of those without identifier. *)
Fixpoint inputSize (input : RawInput) : nat :=
  match input with
  | ResourceInput _ _ rch => S (foldr (fun c n => inputSize c + n) 0 rch)
  end.

Fixpoint anonymousCount (input : RawInput) : N :=
  match input with
  | ResourceInput rid _ rch =>
      ((match rid with Some _ => 0 | None => 1 end)
       + foldr (fun c n => anonymousCount c + n) 0 rch)%N
  end.



(** ** Well-formed states *)

(** Every entry of the index files an object under the identifier that the
    object carries. *)
Definition index_sound (s : State) : Prop :=
  ∀ i l, resourcesById s !! i = Some l → id <$> heap s !! l = Some i.

(** The top-level list and the children arrays below it spell out the
    forest [F], in which no object occurs twice; [P] are further trees of
    the heap, apart from [F] and from each other. *)
Definition forest_inv (F P : list tree) (s : State) : Prop :=
  heap_closed s
  ∧ topLevelResources s = Some (root <$> F)
  ∧ Forall (repr (heap s)) (F ++ P)
  ∧ NoDup (fnodes (F ++ P)).

Definition forested (s : State) : Prop := ∃ F, forest_inv F [] s.

(** What the attachment of the resources [xs] leaves alone: everything but
    the heap and the top-level list, the identifiers of all objects, and
    every object that is neither one of [xs] nor in the index. *)
Definition attach_frame (xs : list loc) (s s' : State) : Prop :=
  resourcesById s' = resourcesById s
  ∧ nextLoc s' = nextLoc s
  ∧ trace s' = trace s
  ∧ fetchState s' = fetchState s
  ∧ resourceGuid s' = resourceGuid s
  ∧ (∀ l, id <$> heap s' !! l = id <$> heap s !! l)
  ∧ (∀ l, l ∉ xs → (∀ i, resourcesById s !! i ≠ Some l) → heap s' !! l = heap s !! l).

(** The completion closures that the manager has handed to the resource
    source so far. *)
Definition issued (s : State) (k : FetchClosure) : Prop :=
  (∃ start end_ tz, SourceInvoked k start end_ tz ∈ trace s)
  ∨ (∃ d range tz, RequestSent k d range tz ∈ trace s).

(** The events that hand no closure to the source. *)
Definition quiet (e : Effect) : Prop :=
  match e with
  | SourceInvoked _ _ _ _ | RequestSent _ _ _ _ => False
  | _ => True
  end.

(** The resource data is well formed: no dangling reference, a sound index,
    and a forest under the top-level list unless that list is null. *)
Definition data_inv (s : State) : Prop :=
  heap_closed s ∧ index_sound s ∧ (topLevelResources s = None ∨ forested s).

(** The fetch coordinator is consistent:
    - once initiated and resolved, the top-level list is not null;
    - a fetch has been started whenever one is initiated;
    - while a started fetch is unresolved, the array of waiting callbacks
      exists; before the first fetch there is none and nothing is resolved;
    - every closure handed to the source has a generation other than 0 and
      an array of callbacks;
    - no range has been recorded. *)
Definition fetch_inv (s : State) : Prop :=
  (isFetchingInitiated s = true → isFetchingResolved s = true →
     is_Some (topLevelResources s))
  ∧ (isFetchingInitiated s = true → fetchId s ≠ 0%N)
  ∧ (isFetchingResolved s = false → fetchId s ≠ 0%N →
       ∃ a fs, fetchingResourcesCallbacks s = Some a ∧ arrays s !! a = Some fs)
  ∧ (fetchId s = 0%N →
       isFetchingResolved s = false ∧ fetchingResourcesCallbacks s = None)
  ∧ (∀ k, issued s k → is_Some (arrays s !! callbacks k) ∧ currentFetchId k ≠ 0%N)
  ∧ currentStart s = None.

Definition sane (s : State) : Prop := data_inv s ∧ fetch_inv s.

(** An operation uses only what the manager has handed out: a resource
    object of the heap, a completion closure given to the function source,
    or the closure of a request that was sent for that descriptor. *)
Definition legit (s : State) (op : Op) : Prop :=
  match op with
  | RemoveResource (AResource l) => is_Some (heap s !! l)
  | SourceCompletes k _ => ∃ start end_ tz, SourceInvoked k start end_ tz ∈ trace s
  | ResponseArrives k d _ _ => ∃ range tz, RequestSent k d range tz ∈ trace s
  | _ => True
  end.

Fixpoint legitRun (JSON_parse : string → option JsonValue) (ops : list Op) (s : State)
    : Prop :=
  match ops with
  | [] => True
  | op :: rest => legit s op ∧ legitRun JSON_parse rest (exec JSON_parse s op)
  end.

(** The exception that an operation raises, if any: [whenFetchingResolved]
    before the first fetch has no array to push on, and [JSON.parse] rejects
    a response text that is not JSON. *)
Definition raises (JSON_parse : string → option JsonValue) (op : Op) (s : State)
    : option Error :=
  match op with
  | WhenFetchingResolved _ =>
      if bool_decide (fetchId s = 0%N) then Some TypeError else None
  | ResponseArrives _ _ None res =>
      match body res with
      | JsonFalsy =>
          if bool_decide (text res = "") then None
          else match JSON_parse (text res) with
               | Some _ => None
               | None => Some SyntaxError
               end
      | JsonArray _ => None
      end
  | _ => None
  end.

(** Every operation of the sequence ends as [raises] says. *)
Fixpoint endsAsExpected (JSON_parse : string → option JsonValue) (ops : list Op)
    (s : State) : Prop :=
  match ops with
  | [] => True
  | op :: rest =>
      match raises JSON_parse op s with
      | None => ∃ s', step JSON_parse op s = Ok tt s'
      | Some e => ∃ s', step JSON_parse op s = Throw e s'
      end
      ∧ endsAsExpected JSON_parse rest (exec JSON_parse s op)
  end.

(** A session for the concrete checks, on a function source: a callback
    registered too early, a first request, a resource added while the fetch
    is pending, the completion of the fetch with an orphan and a duplicate,
    and a removal. *)
Definition demoSession : list Op :=
  [ WhenFetchingResolved 1;
    GetResources None None 2;
    AddResource (ResourceInput (Some "x") None []) None;
    SourceCompletes (mkFetchClosure 1 0)
      [ ResourceInput (Some "a") (Some "zzz") [];
        ResourceInput (Some "a") None [ResourceInput (Some "b") None []] ];
    RemoveResource (AnId "a") ].

(** ** Fetches *)



(** A response that carries no resource inputs: a transport error, or no
    parsed body and a text that is empty or parses to a falsy value. *)
Definition failedResponse (JSON_parse : string → option JsonValue)
    (err : option string) (res : Response) : Prop :=
  is_Some err
  ∨ (body res = JsonFalsy
     ∧ (text res = "" ∨ JSON_parse (text res) = Some JsonFalsy)).

(** * Reasoning principles *)

(** ** Stepping through the monad *)

Lemma bind_Ok {A B} (m : M A) (k : A → M B) s a s' :
  m s = Ok a s' → bind m k s = k a s'.
Proof. unfold bind. by intros ->. Qed.

(** ** Frame lemmas *)

Section Respects.
Context (R : relation State) `{!PreOrder R}.

Lemma respects_ret {A} (a : A) : respects R (ret a).
Proof. intros s. simpl. reflexivity. Qed.

Lemma respects_throw {A} e : respects R (@throw A e).
Proof. intros s. simpl. reflexivity. Qed.

Lemma respects_get : respects R get.
Proof. intros s. simpl. reflexivity. Qed.

Lemma respects_deref l : respects R (deref l).
Proof. intros s. unfold deref. destruct (heap s !! l); simpl; reflexivity. Qed.

Lemma respects_modify g : (∀ s, R s (g s)) → respects R (modify g).
Proof. intros H s. apply H. Qed.

Lemma respects_bind {A B} (m : M A) (k : A → M B) :
  respects R m → (∀ a, respects R (k a)) → respects R (bind m k).
Proof.
  intros Hm Hk s. unfold bind. specialize (Hm s).
  destruct (m s) as [a s'|e s']; simpl in *; [|done].
  etrans; [exact Hm|apply Hk].
Qed.

Lemma respects_forEach {A} (xs : list A) body :
  (∀ x, respects R (body x)) → respects R (forEach xs body).
Proof.
  intros Hb. induction xs as [|x xs IH]; simpl.
  - apply respects_ret.
  - apply respects_bind; [apply Hb | intros _; apply IH].
Qed.

Lemma respects_mapM {A B} (g : A → M B) xs :
  Forall (fun x => respects R (g x)) xs → respects R (mapM g xs).
Proof.
  induction 1 as [|x xs Hx _ IH]; simpl; [apply respects_ret|].
  apply respects_bind; [apply Hx|intros].
  apply respects_bind; [apply IH|intros]. apply respects_ret.
Qed.

Lemma respects_Ok {A} (m : M A) s a s' :
  respects R m → m s = Ok a s' → R s s'.
Proof. intros H E. specialize (H s). by rewrite E in H. Qed.

Lemma respects_emit e : trace_independent R → respects R (modify (emit e)).
Proof. intros H. apply respects_modify. intros s. apply H. Qed.


(** Syntax-directed proof of a frame property. *)
Ltac frame_step :=
  first
    [ apply respects_ret
    | apply respects_throw
    | apply respects_get
    | apply respects_deref
    | apply respects_bind; [|intros]
    | apply respects_forEach; intros
    | match goal with
      | |- respects _ (match ?x with _ => _ end) => destruct x
      | |- respects _ (if ?x then _ else _) => destruct x
      end ].
Ltac frame := repeat frame_step.

Lemma assignId_respects rid :
  guid_independent R → respects R (assignId rid).
Proof.
  intros Hg. destruct rid; simpl; [apply respects_ret|].
  intros s. apply Hg.
Qed.

Lemma buildResource_respects input :
  heap_independent R → guid_independent R → respects R (buildResource input).
Proof.
  intros [Hh Hn] Hg. induction input as [rid rpid rch IH] using RawInput_nested_ind.
  simpl. apply respects_bind; [apply respects_get|intros s0].
  apply respects_bind; [apply respects_modify, Hn|intros _].
  apply respects_bind; [by apply assignId_respects|intros ident].
  apply respects_bind.
  - apply respects_mapM. eapply Forall_impl; [exact IH|]. intros c Hc. simpl in Hc.
    apply respects_bind; [apply Hc|intros child].
    apply respects_bind; [apply respects_modify, Hh|intros _]. apply respects_ret.
  - intros kids. apply respects_bind; [apply respects_modify, Hh|intros].
    apply respects_ret.
Qed.

Lemma buildResources_respects inputs :
  heap_independent R → guid_independent R → respects R (mapM buildResource inputs).
Proof.
  intros Hh Hg. apply respects_mapM, Forall_forall. intros.
  by apply buildResource_respects.
Qed.

Lemma addResourceToIndex_respects fuel resource :
  index_independent R → respects R (addResourceToIndex fuel resource).
Proof.
  intros Hi. revert resource. induction fuel as [|fuel IH]; intros resource; simpl.
  { apply respects_throw. }
  apply respects_bind; [apply respects_deref|intros r].
  apply respects_bind; [apply respects_get|intros s0].
  destruct (resourcesById s0 !! id r); [apply respects_ret|].
  apply respects_bind; [apply respects_modify, Hi|intros _].
  apply respects_bind; [|intros; apply respects_ret].
  apply respects_forEach. intros child.
  apply respects_bind; [apply IH|intros; apply respects_ret].
Qed.

Lemma addResourceToTree_respects resource :
  heap_independent R → top_independent R → respects R (addResourceToTree resource).
Proof.
  intros [Hh Hn] Ht. unfold addResourceToTree, pushChild.
  apply respects_bind; [apply respects_deref|intros r].
  destruct (parent r); [apply respects_ret|].
  apply respects_bind; [apply respects_get|intros s0].
  destruct (parentIdOf r).
  - destruct (resourcesById s0 !! s); [|apply respects_ret].
    apply respects_bind; [apply respects_modify, Hh|intros _].
    apply respects_bind; [apply respects_modify, Hh|intros _]. apply respects_ret.
  - destruct (topLevelResources s0); [|apply respects_throw].
    apply respects_bind; [apply respects_modify, Ht|intros _]. apply respects_ret.
Qed.

Lemma removeResourceFromIndex_respects fuel rid :
  index_independent R → respects R (removeResourceFromIndex fuel rid).
Proof.
  intros Hi. revert rid. induction fuel as [|fuel IH]; intros rid; simpl.
  { apply respects_throw. }
  apply respects_bind; [apply respects_get|intros s0].
  destruct (resourcesById s0 !! rid); [|apply respects_ret].
  apply respects_bind; [apply respects_modify, Hi|intros _].
  apply respects_bind; [apply respects_deref|intros r].
  apply respects_bind; [|intros; apply respects_ret].
  apply respects_forEach. intros child.
  apply respects_bind; [apply respects_deref|intros c].
  apply respects_bind; [apply IH|intros; apply respects_ret].
Qed.

Lemma readSiblings_respects siblings :
  respects R (readSiblings siblings).
Proof. destruct siblings; simpl; frame. Qed.

Lemma spliceSiblings_respects siblings i :
  heap_independent R → top_independent R → respects R (spliceSiblings siblings i).
Proof.
  intros [Hh Hn] Ht. destruct siblings; simpl.
  - apply respects_bind; [apply (readSiblings_respects TopLevel)|intros].
    apply respects_modify, Ht.
  - apply respects_modify, Hh.
Qed.

Lemma searchSiblings_respects recurse resource siblings i rest :
  heap_independent R → top_independent R →
  (∀ sib, respects R (recurse sib)) →
  respects R (searchSiblings recurse resource siblings i rest).
Proof.
  intros Hh Ht Hrec. revert i.
  induction rest as [|sibling rest IH]; intros i; simpl; [apply respects_ret|].
  case_bool_decide.
  - apply respects_bind; [apply respects_modify, Hh|intros _].
    apply respects_bind; [by apply spliceSiblings_respects|intros].
    apply respects_ret.
  - apply respects_bind; [apply Hrec|intros found].
    destruct found; [apply respects_ret|apply IH].
Qed.

Lemma removeResourceFromTree_respects fuel resource siblings :
  heap_independent R → top_independent R →
  respects R (removeResourceFromTree fuel resource siblings).
Proof.
  intros Hh Ht. revert siblings.
  induction fuel as [|fuel IH]; intros siblings; simpl; [apply respects_throw|].
  apply respects_bind; [apply readSiblings_respects|intros arr].
  by apply searchSiblings_respects.
Qed.

End Respects.

Global Instance same_preorder {X} (f : State → X) : PreOrder (same f).
Proof. unfold same. split; [by intros ?|intros ? ? ? ? ?; congruence]. Qed.

Global Instance guid_le_preorder : PreOrder guid_le.
Proof. unfold guid_le. split; [intros ?; lia|intros ? ? ?; lia]. Qed.

Lemma preserves_Ok {X A} (f : State → X) (m : M A) s a s' :
  preserves f m → m s = Ok a s' → f s' = f s.
Proof. intros H E. by apply (respects_Ok (same f) m s a s'). Qed.

(** Discharging the side conditions of a frame lemma for a projection. *)
Ltac independent :=
  unfold heap_independent, guid_independent, index_independent, top_independent,
    trace_independent, fetch_independent, same, guid_le;
  repeat split; intros; try reflexivity; simpl; try lia.

(** * The tree: attaching a resource *)



Lemma addResourceToTree_placed s resource r :
  heap s !! resource = Some r → is_Some (parent r) →
  addResourceToTree resource s = Ok true s.
Proof.
  intros Hr [p Hp]. unfold addResourceToTree, bind, deref. by rewrite Hr, Hp.
Qed.

Lemma addResourceToTree_orphan s resource r pid :
  heap s !! resource = Some r → parent r = None →
  parentIdOf r = Some pid → resourcesById s !! pid = None →
  addResourceToTree resource s = Ok false s.
Proof.
  intros Hr Hp Hpid Hidx. unfold addResourceToTree, bind, deref, get.
  by rewrite Hr, Hp, Hpid, Hidx.
Qed.

Lemma addResourceToTree_child s resource r pid p :
  heap s !! resource = Some r → parent r = None →
  parentIdOf r = Some pid → resourcesById s !! pid = Some p →
  addResourceToTree resource s =
    Ok true (set_heap (alter (fun rp => set_children (children rp ++ [resource]) rp) p)
              (set_heap (alter (set_parent (Some p)) resource) s)).
Proof.
  intros Hr Hp Hpid Hidx. unfold addResourceToTree, pushChild, bind, deref, get, modify.
  by rewrite Hr, Hp, Hpid, Hidx.
Qed.

Lemma addResourceToTree_top s resource r top :
  heap s !! resource = Some r → parent r = None →
  parentIdOf r = None → topLevelResources s = Some top →
  addResourceToTree resource s =
    Ok true (set_topLevelResources (Some (top ++ [resource])) s).
Proof.
  intros Hr Hp Hpid Htop. unfold addResourceToTree, bind, deref, get, modify.
  by rewrite Hr, Hp, Hpid, Htop.
Qed.



(** * Removing an identifier that is not indexed *)





(** ** Trees and the heap *)

Lemma fnodes_cons t F : fnodes (t :: F) = nodes t ++ fnodes F.
Proof. done. Qed.

Lemma fnodes_app F G : fnodes (F ++ G) = fnodes F ++ fnodes G.
Proof. unfold fnodes. apply bind_app. Qed.

Lemma nodes_eq l ts : nodes (Node l ts) = l :: fnodes ts.
Proof. done. Qed.

Lemma root_in_nodes t : root t ∈ nodes t.
Proof. destruct t. left. Qed.

Lemma elem_of_fnodes l F : l ∈ fnodes F ↔ ∃ t, t ∈ F ∧ l ∈ nodes t.
Proof.
  unfold fnodes. rewrite list_elem_of_bind. split; intros (t & H1 & H2); by exists t.
Qed.

Lemma roots_in_fnodes l F : l ∈ root <$> F → l ∈ fnodes F.
Proof.
  intros (t & -> & Ht)%list_elem_of_fmap. apply elem_of_fnodes.
  exists t. split; [done|apply root_in_nodes].
Qed.

Lemma repr_inv h l ts :
  repr h (Node l ts) →
  ∃ r, h !! l = Some r ∧ children r = root <$> ts ∧ Forall (repr h) ts.
Proof. inversion 1; subst. eauto. Qed.


(** * Building resources *)

Lemma bind_get {B} (k : State → M B) s : bind get k s = k s s.
Proof. done. Qed.
Lemma bind_modify {B} g (k : unit → M B) s : bind (modify g) k s = k tt (g s).
Proof. done. Qed.
Lemma bind_ret {A B} (a : A) (k : A → M B) s : bind (ret a) k s = k a s.
Proof. done. Qed.

Lemma bind_assoc {A B C} (m : M A) (f : A → M B) (k : B → M C) s :
  bind (bind m f) k s = bind m (fun x => bind (f x) k) s.
Proof. unfold bind. by destruct (m s). Qed.

Lemma assignId_eval rid s :
  assignId rid s =
    Ok (match rid with Some i => i | None => "_fc" +:+ pretty (resourceGuid s) end)
       (match rid with Some _ => s
                     | None => set_resourceGuid (resourceGuid s + 1) s end).
Proof. by destruct rid. Qed.

Lemma heap_closed_alter_parent s p c :
  heap_closed s → heap_closed (set_heap (alter (set_parent p) c) s).
Proof.
  intros H l r. simpl. intros Hl.
  assert (∃ r0, heap s !! l = Some r0 ∧ children r = children r0) as (r0 & Hr0 & Hch).
  { destruct (decide (c = l)) as [->|Hne].
    - rewrite lookup_alter_eq in Hl. destruct (heap s !! l) as [r0|]; [|done].
      simpl in Hl. simplify_eq. eauto.
    - rewrite lookup_alter_ne in Hl by done. eauto. }
  destruct (H l r0 Hr0) as [Hlt Hc]. split; [done|].
  intros k Hk. rewrite Hch in Hk. specialize (Hc k Hk).
  destruct (decide (c = k)) as [->|Hne].
  - rewrite lookup_alter_eq. by apply fmap_is_Some.
  - by rewrite lookup_alter_ne.
Qed.

(** Every node of a represented tree is an object whose children array
    lists the roots of a forest inside the tree. *)
Lemma repr_lookup h t :
  repr h t → ∀ p, p ∈ nodes t →
    ∃ r ts, h !! p = Some r ∧ children r = root <$> ts
            ∧ ∀ y, y ∈ fnodes ts → y ∈ nodes t.
Proof.
  induction t as [l ts IH] using tree_nested_ind. intros Hrep p Hp.
  apply repr_inv in Hrep as (r & Hr & Hch & Hts).
  rewrite nodes_eq in Hp. apply elem_of_cons in Hp as [->|Hp].
  { exists r, ts. split_and!; [done|done|]. intros y Hy. rewrite nodes_eq. by right. }
  apply elem_of_fnodes in Hp as (t & Ht & Hpt).
  rewrite Forall_forall in IH, Hts.
  destruct (IH t Ht (Hts t Ht) p Hpt) as (r' & ts' & Hr' & Hch' & Hsub).
  exists r', ts'. split_and!; [done|done|].
  intros y Hy. rewrite nodes_eq. right. apply elem_of_fnodes. eauto.
Qed.

Lemma forest_lookup h F :
  Forall (repr h) F → ∀ p, p ∈ fnodes F →
    ∃ r ts, h !! p = Some r ∧ children r = root <$> ts
            ∧ ∀ y, y ∈ fnodes ts → y ∈ fnodes F.
Proof.
  intros HF p (t & Ht & Hp)%elem_of_fnodes. rewrite Forall_forall in HF.
  destruct (repr_lookup h t (HF t Ht) p Hp) as (r & ts & Hr & Hch & Hsub).
  exists r, ts. split_and!; [done|done|].
  intros y Hy. apply elem_of_fnodes. eauto.
Qed.


(** A represented tree only depends on the children arrays of its nodes. *)
Lemma repr_frame h h' t :
  repr h t →
  (∀ l, l ∈ nodes t → children <$> h' !! l = children <$> h !! l) →
  repr h' t.
Proof.
  induction t as [l ts IH] using tree_nested_ind. intros Hrep Hfr.
  inversion Hrep as [? ? r Hr Hch Hts]; subst.
  assert (∃ r', h' !! l = Some r' ∧ children r' = children r) as (r' & Hr' & Hch').
  { specialize (Hfr l (list_elem_of_here _ _)). rewrite Hr in Hfr.
    destruct (h' !! l) as [r'|]; simpl in Hfr; [|done]. exists r'. by simplify_eq. }
  apply (repr_node h' l ts r'); [done|congruence|].
  rewrite Forall_forall in IH, Hts. apply Forall_forall. intros t Ht.
  apply IH; [done|by apply Hts|]. intros x Hx. apply Hfr.
  right. unfold fnodes. apply list_elem_of_bind. eauto.
Qed.

Lemma mapM_buildChild_spec resource cs :
  Forall (fun c => ∀ s, ∃ s', buildResource c s = Ok (nextLoc s) s' ∧ build_post c s s') cs →
  ∀ t, ∃ t' kids, mapM (buildChild resource) cs t = Ok kids t'
      ∧ (heap_closed t → heap_closed t')
      ∧ nextLoc t ≤ nextLoc t'
      ∧ (∀ l, l < nextLoc t → heap t' !! l = heap t !! l)
      ∧ Forall (fun k => is_Some (heap t' !! k) ∧ nextLoc t ≤ k) kids
      ∧ (resourceGuid t ≤ resourceGuid t')%N
      ∧ (∃ ts, kids = root <$> ts ∧ Forall (repr (heap t')) ts ∧ NoDup (fnodes ts)
               ∧ ∀ l, l ∈ fnodes ts ↔ nextLoc t ≤ l < nextLoc t').
Proof.
  induction 1 as [|c cs Hc _ IH]; intros t.
  { exists t, []. split_and!; [done|done|lia|done|constructor|lia|].
    exists []. split_and!; [done|constructor|constructor|].
    intros l. split; [by intros ?%elem_of_nil|lia]. }
  destruct (Hc t) as (t1 & E1 & Hcl1 & Hlt1 & Hfr1 & (k1 & Hroot1) & Hg1 & Htree1).
  destruct Htree1 as (tc & Hrootc & Hreprc & Hndc & Hrangec).
  set (t2 := set_heap (alter (set_parent (Some resource)) (nextLoc t)) t1).
  destruct (IH t2) as (t' & kids & E & Hcl' & Hlt' & Hfr' & Hkids & Hg' & Htrees).
  destruct Htrees as (ts & -> & Hreprs & Hnds & Hranges).
  exists t', (nextLoc t :: (root <$> ts)). split.
  { simpl. unfold buildChild at 1.
    rewrite bind_assoc, (bind_Ok _ _ _ _ _ E1), bind_assoc, bind_modify, bind_ret.
    fold t2. by rewrite (bind_Ok _ _ _ _ _ E). }
  assert (nextLoc t2 = nextLoc t1) as Hn2 by done.
  split. { intros Ht. by apply Hcl', heap_closed_alter_parent, Hcl1. }
  split; [lia|]. split.
  { intros l Hl. rewrite Hfr' by lia. unfold t2; simpl.
    rewrite lookup_alter_ne by lia. by apply Hfr1. }
  split.
  { constructor.
    - split; [|lia]. rewrite Hfr' by lia. unfold t2; simpl.
      rewrite lookup_alter_eq, Hroot1. done.
    - eapply Forall_impl; [exact Hkids|]. simpl. intros k [? ?]. split; [done|lia]. }
  split; [simpl in *; destruct (in_id c); lia|].
  exists (tc :: ts). split_and!.
  - simpl. by rewrite Hrootc.
  - constructor; [|done]. apply (repr_frame (heap t1)); [done|].
    intros l Hl. apply Hrangec in Hl. rewrite Hfr' by lia. unfold t2. simpl.
    destruct (decide (nextLoc t = l)) as [<-|Hne].
    + rewrite lookup_alter_eq. by destruct (heap t1 !! nextLoc t).
    + by rewrite lookup_alter_ne.
  - rewrite fnodes_cons. apply NoDup_app. split_and!; [done| |done].
    intros l Hl1 Hl2. apply Hrangec in Hl1. apply Hranges in Hl2. lia.
  - intros l. rewrite fnodes_cons, elem_of_app, Hrangec, Hranges. lia.
Qed.

(** [buildResource] always returns; the object it returns is the one at the
    allocation pointer, it carries the identifier and the parent identifier
    of the input and no parent, and nothing below the allocation pointer is
    touched. *)
Lemma buildResource_spec input :
  ∀ s, ∃ s', buildResource input s = Ok (nextLoc s) s' ∧ build_post input s s'.
Proof.
  induction input as [rid rpid rch IH] using RawInput_nested_ind. intros s.
  set (s1 := set_nextLoc (S (nextLoc s)) s).
  set (s2 := match rid with Some _ => s1
                          | None => set_resourceGuid (resourceGuid s1 + 1) s1 end).
  assert (Hcl2 : heap_closed s → heap_closed s2).
  { intros Hs l r Hl. assert (heap s !! l = Some r) as Hl' by by destruct rid.
    destruct (Hs l r Hl') as [? ?]. split; [destruct rid; simpl; lia|].
    intros c Hc. destruct rid; simpl; auto. }
  assert (Hn2 : nextLoc s2 = S (nextLoc s)) by by destruct rid.
  assert (Hh2 : heap s2 = heap s) by by destruct rid.
  destruct (mapM_buildChild_spec (nextLoc s) rch IH s2)
    as (t' & kids & E & Hcl' & Hlt' & Hfr' & Hkids & Hg' & Htrees).
  destruct Htrees as (ts & -> & Hreprs & Hnds & Hranges).
  eexists. split.
  { simpl. rewrite bind_get, bind_modify. fold s1.
    rewrite (bind_Ok _ _ _ _ _ (assignId_eval rid s1)). fold s2.
    change (mapM _ rch) with (mapM (buildChild (nextLoc s)) rch).
    rewrite (bind_Ok _ _ _ _ _ E), bind_modify. reflexivity. }
  unfold build_post. simpl. split_and!.
  - intros Hs l r Hl. simpl in *. specialize (Hcl' (Hcl2 Hs)).
    destruct (decide (nextLoc s = l)) as [<-|Hne].
    + rewrite lookup_insert_eq in Hl. simplify_eq. simpl. split; [lia|].
      intros c Hc. rewrite Forall_forall in Hkids. destruct (Hkids c Hc) as [Hin Hge].
      rewrite lookup_insert_ne by lia. done.
    + rewrite lookup_insert_ne in Hl by done.
      destruct (Hcl' l r Hl) as [? Hc]. split; [done|].
      intros c Hcin. destruct (decide (nextLoc s = c)) as [<-|?].
      * rewrite lookup_insert_eq. done.
      * rewrite lookup_insert_ne by done. auto.
  - lia.
  - intros l Hl. rewrite lookup_insert_ne by lia. rewrite Hfr' by lia. by rewrite Hh2.
  - exists (root <$> ts). rewrite lookup_insert_eq. unfold builtIdent. simpl.
    by destruct rid.
  - assert (resourceGuid s + match rid with Some _ => 0 | None => 1 end
              ≤ resourceGuid s2)%N
      by (destruct rid; simpl; lia). lia.
  - exists (Node (nextLoc s) ts). split_and!.
    + done.
    + eapply repr_node; [apply lookup_insert_eq|done|].
      apply Forall_forall. intros t Ht.
      rewrite Forall_forall in Hreprs.
      apply (repr_frame (heap t')); [by apply Hreprs|].
      intros l Hl. rewrite lookup_insert_ne; [done|].
      assert (l ∈ fnodes ts) as Hl' by (apply elem_of_fnodes; eauto).
      apply Hranges in Hl'. lia.
    + rewrite nodes_eq. constructor; [|done].
      intros Hin%Hranges. lia.
    + intros l. rewrite nodes_eq, elem_of_cons, Hranges. lia.
Qed.

(** * Generated identifiers *)

Lemma idAt_nil h l : idAt h l [] = id <$> h !! l.
Proof. done. Qed.

Lemma idAt_cons h l r k c p :
  h !! l = Some r → children r !! k = Some c → idAt h l (k :: p) = idAt h c p.
Proof. intros Hl Hk. unfold idAt. simpl. by rewrite Hl, Hk. Qed.

Lemma anonymous_nil input : anonymous input [] ↔ in_id input = None.
Proof.
  unfold anonymous. simpl. split; [by intros (i & [= <-] & H)|]. intros H. by exists input.
Qed.

Lemma anonymous_cons input k p :
  anonymous input (k :: p) ↔ ∃ c, in_children input !! k = Some c ∧ anonymous c p.
Proof.
  unfold anonymous. simpl. split.
  - intros (i & H & Hi). destruct (in_children input !! k) as [c|]; [|done]. eauto.
  - intros (c & -> & H). done.
Qed.

(** The identifier found at a path only depends on the identifiers and the
    children arrays of a set of objects that is closed under children. *)
Lemma idAt_frame h h' (R : loc → Prop) :
  (∀ x r, R x → h !! x = Some r →
     (∃ r', h' !! x = Some r' ∧ id r' = id r ∧ children r' = children r)
     ∧ ∀ c, c ∈ children r → R c) →
  ∀ p l i, R l → idAt h l p = Some i → idAt h' l p = Some i.
Proof.
  intros Hfr. induction p as [|k p IH]; intros l i Hl H.
  - rewrite idAt_nil in *. destruct (h !! l) as [r|] eqn:Hr; [|done].
    destruct (Hfr l r Hl Hr) as [(r' & -> & Hid & _) _]. simpl in *. congruence.
  - destruct (h !! l) as [r|] eqn:Hr; [|by unfold idAt in H; simpl in H; rewrite Hr in H].
    destruct (children r !! k) as [c|] eqn:Hc;
      [|by unfold idAt in H; simpl in H; rewrite Hr, Hc in H].
    rewrite (idAt_cons h l r k c p Hr Hc) in H.
    destruct (Hfr l r Hl Hr) as [(r' & Hr' & _ & Hch) Hcl].
    rewrite (idAt_cons h' l r' k c p Hr'); [|by rewrite Hch].
    apply IH; [|done]. apply Hcl. by eapply list_elem_of_lookup_2.
Qed.

Lemma build_post_closed input s s' :
  build_post input s s' →
  ∀ x r, nextLoc s ≤ x < nextLoc s' → heap s' !! x = Some r →
    ∀ c, c ∈ children r → nextLoc s ≤ c < nextLoc s'.
Proof.
  intros (_ & _ & _ & _ & _ & t & _ & Hrep & _ & Hnodes) x r Hx Hr c Hc.
  apply Hnodes in Hx. destruct (repr_lookup _ _ Hrep x Hx) as (r' & ts & Hr' & Hch & Hin).
  simplify_eq. apply Hnodes, Hin, roots_in_fnodes. by rewrite <- Hch.
Qed.

Lemma buildResource_eval rid rpid rch s kids t' :
  mapM (buildChild (nextLoc s)) rch
    (state_of (assignId rid (set_nextLoc (S (nextLoc s)) s))) = Ok kids t' →
  buildResource (ResourceInput rid rpid rch) s =
    Ok (nextLoc s)
       (set_heap <[nextLoc s :=
                     mkResource (builtIdent (ResourceInput rid rpid rch) s) rpid None kids]> t').
Proof.
  intros E. simpl. rewrite bind_get, bind_modify.
  rewrite (bind_Ok _ _ _ _ _ (assignId_eval rid _)).
  rewrite assignId_eval in E. cbn [state_of] in E.
  change (mapM _ rch) with (mapM (buildChild (nextLoc s)) rch).
  rewrite (bind_Ok _ _ _ _ _ E), bind_modify. unfold builtIdent. by destruct rid.
Qed.

Lemma mapM_buildChild_generated resource cs :
  Forall (fun c => ∀ s, generated_post c s (state_of (buildResource c s))) cs →
  ∀ t t' kids, mapM (buildChild resource) cs t = Ok kids t' →
    (∀ k c p, cs !! k = Some c → anonymous c p →
       ∃ l n, kids !! k = Some l
              ∧ idAt (heap t') l p = Some ("_fc" +:+ pretty n)
              ∧ (resourceGuid t ≤ n < resourceGuid t')%N)
    ∧ (∀ k1 k2 c1 c2 p1 p2 l1 l2,
         cs !! k1 = Some c1 → cs !! k2 = Some c2 →
         anonymous c1 p1 → anonymous c2 p2 →
         kids !! k1 = Some l1 → kids !! k2 = Some l2 →
         (k1, p1) ≠ (k2, p2) →
         idAt (heap t') l1 p1 ≠ idAt (heap t') l2 p2).
Proof.
  induction 1 as [|c cs Hc Hcs IH]; intros t t' kids E.
  { split; intros; simplify_eq. }
  destruct (buildResource_spec c t) as (t1 & E1 & Hpost1).
  pose proof Hpost1 as (_ & Hlt1 & Hfr1 & (k1 & Hroot1) & Hg1 & _).
  set (t2 := set_heap (alter (set_parent (Some resource)) (nextLoc t)) t1).
  assert (Hcs' : Forall (fun c => ∀ s, ∃ s', buildResource c s = Ok (nextLoc s) s'
                                            ∧ build_post c s s') cs).
  { apply Forall_forall. intros ? _. apply buildResource_spec. }
  destruct (mapM_buildChild_spec resource cs Hcs' t2)
    as (t'' & kids'' & E2 & _ & Hlt2 & Hfr2 & _ & Hg2 & _).
  assert (kids = nextLoc t :: kids'' ∧ t' = t'') as [-> ->].
  { simpl in E. unfold buildChild at 1 in E.
    rewrite bind_assoc, (bind_Ok _ _ _ _ _ E1), bind_assoc, bind_modify, bind_ret in E.
    fold t2 in E. rewrite (bind_Ok _ _ _ _ _ E2) in E. unfold ret in E. by simplify_eq. }
  destruct (IH t2 t'' kids'' E2) as [IHA IHB].
  specialize (Hc t). rewrite E1 in Hc. cbn [state_of] in Hc. destruct Hc as [HcA HcB].
  assert (Hg12 : resourceGuid t2 = resourceGuid t1) by done.
  assert (Hg01 : (resourceGuid t ≤ resourceGuid t1)%N) by (destruct (in_id c); lia).
  assert (Hframe : ∀ p i, idAt (heap t1) (nextLoc t) p = Some i →
                          idAt (heap t'') (nextLoc t) p = Some i).
  { intros p i. apply (idAt_frame _ _ (fun x => nextLoc t ≤ x < nextLoc t1)); [|lia].
    intros x r Hx Hr. split; [|by apply (build_post_closed c t t1 Hpost1 x r)].
    rewrite Hfr2 by (simpl; lia). unfold t2. simpl.
    destruct (decide (nextLoc t = x)) as [<-|Hne].
    - rewrite lookup_alter_eq, Hr. simpl. eauto.
    - rewrite lookup_alter_ne by done. eauto. }
  assert (H0 : ∀ p, anonymous c p →
            ∃ n, idAt (heap t'') (nextLoc t) p = Some ("_fc" +:+ pretty n)
                 ∧ (resourceGuid t ≤ n < resourceGuid t1)%N).
  { intros p Hp. destruct (HcA p Hp) as (n & Hn & Hb). exists n. split; [by apply Hframe|done]. }
  split.
  - intros [|k] c' p Hk Hp; simpl in Hk.
    + simplify_eq. destruct (H0 p Hp) as (n & Hn & Hb).
      exists (nextLoc t), n. split_and!; [done|done|lia|lia].
    + destruct (IHA k c' p Hk Hp) as (l & n & Hl & Hn & Hb).
      exists l, n. split_and!; [done|done|lia|lia].
  - intros [|j1] [|j2] c1 c2 p1 p2 l1 l2 Hk1 Hk2 Hp1 Hp2 Hl1 Hl2 Hne;
      simpl in Hk1, Hk2, Hl1, Hl2; simplify_eq.
    + assert (p1 ≠ p2) as Hp by congruence.
      destruct (HcA p1 Hp1) as (n1 & Hn1 & _). destruct (HcA p2 Hp2) as (n2 & Hn2 & _).
      pose proof (HcB p1 p2 Hp1 Hp2 Hp) as Hd.
      rewrite (Hframe _ _ Hn1), (Hframe _ _ Hn2). congruence.
    + destruct (H0 p1 Hp1) as (n1 & Hn1 & Hb1).
      destruct (IHA j2 c2 p2 Hk2 Hp2) as (l & n2 & Hl & Hn2 & Hb2). simplify_eq.
      rewrite Hn1, Hn2. intros Heq. simplify_eq. lia.
    + destruct (H0 p2 Hp2) as (n2 & Hn2 & Hb2).
      destruct (IHA j1 c1 p1 Hk1 Hp1) as (l & n1 & Hl & Hn1 & Hb1). simplify_eq.
      rewrite Hn1, Hn2. intros Heq. simplify_eq. lia.
    + apply (IHB j1 j2 c1 c2); try done. congruence.
Qed.

(** Every object built from an input without identifier carries ['_fc']
    followed by a value that the counter took during the build, and no two
    objects of one build carry the same. *)
Lemma buildResource_generated input :
  ∀ s, generated_post input s (state_of (buildResource input s)).
Proof.
  induction input as [rid rpid rch IH] using RawInput_nested_ind. intros s.
  set (s2 := state_of (assignId rid (set_nextLoc (S (nextLoc s)) s))).
  assert (Hnx2 : nextLoc s2 = S (nextLoc s)) by by destruct rid.
  assert (Hgd2 : (resourceGuid s2 = resourceGuid s + match rid with Some _ => 0 | None => 1 end)%N)
    by (destruct rid; simpl; lia).
  assert (Hrch : Forall (fun c => ∀ s, ∃ s', buildResource c s = Ok (nextLoc s) s'
                                            ∧ build_post c s s') rch).
  { apply Forall_forall. intros ? _. apply buildResource_spec. }
  destruct (mapM_buildChild_spec (nextLoc s) rch Hrch s2)
    as (t' & kids & E & _ & Hlt' & Hfr' & _ & Hg' & ts & Hkids & Hreprs & _ & Hranges).
  destruct (mapM_buildChild_generated (nextLoc s) rch IH s2 t' kids E) as [HA HB].
  rewrite (buildResource_eval rid rpid rch s kids t' E). cbn [state_of].
  unfold generated_post. cbn [heap resourceGuid set_heap].
  set (input := ResourceInput rid rpid rch).
  set (root := mkResource (builtIdent input s) rpid None kids).
  set (h' := <[nextLoc s := root]> (heap t')).
  assert (Hroot : h' !! nextLoc s = Some root) by apply lookup_insert_eq.
  assert (Hframe : ∀ l p i, l ∈ kids → idAt (heap t') l p = Some i → idAt h' l p = Some i).
  { intros l p i Hl. apply (idAt_frame _ _ (fun x => x ∈ fnodes ts)).
    - intros x r Hx Hr. destruct (forest_lookup _ _ Hreprs x Hx) as (r' & ts' & Hr' & Hch & Hin).
      simplify_eq. split.
      + exists r. unfold h'. rewrite lookup_insert_ne; [done|].
        apply Hranges in Hx. lia.
      + intros c Hc. apply Hin, roots_in_fnodes. by rewrite <- Hch.
    - apply roots_in_fnodes. by rewrite <- Hkids. }
  assert (Hchild : ∀ k c p, rch !! k = Some c → anonymous c p →
            ∃ n, idAt h' (nextLoc s) (k :: p) = Some ("_fc" +:+ pretty n)
                 ∧ (resourceGuid s2 ≤ n < resourceGuid t')%N).
  { intros k c p Hk Hp. destruct (HA k c p Hk Hp) as (l & n & Hl & Hn & Hb).
    exists n. split; [|done]. rewrite (idAt_cons h' _ root k l p Hroot Hl).
    apply Hframe; [by eapply list_elem_of_lookup_2|done]. }
  assert (Htop : rid = None → idAt h' (nextLoc s) [] = Some ("_fc" +:+ pretty (resourceGuid s))).
  { intros ->. by rewrite idAt_nil, Hroot. }
  split.
  - intros [|k p] Hp.
    + apply anonymous_nil in Hp. simpl in Hp. subst rid.
      exists (resourceGuid s). split; [by apply Htop|lia].
    + apply anonymous_cons in Hp as (c & Hk & Hp). simpl in Hk.
      destruct (Hchild k c p Hk Hp) as (n & Hn & Hb). exists n. split; [done|lia].
  - intros [|k1 p1] [|k2 p2] Hp1 Hp2 Hne; [done| | |].
    + apply anonymous_nil in Hp1. simpl in Hp1. subst rid.
      apply anonymous_cons in Hp2 as (c & Hk & Hp). simpl in Hk.
      destruct (Hchild k2 c p2 Hk Hp) as (n & Hn & Hb).
      rewrite Htop, Hn by done. intros Heq. simplify_eq. lia.
    + apply anonymous_nil in Hp2. simpl in Hp2. subst rid.
      apply anonymous_cons in Hp1 as (c & Hk & Hp). simpl in Hk.
      destruct (Hchild k1 c p1 Hk Hp) as (n & Hn & Hb).
      rewrite Htop, Hn by done. intros Heq. simplify_eq. lia.
    + apply anonymous_cons in Hp1 as (c1 & Hk1 & Hp1).
      apply anonymous_cons in Hp2 as (c2 & Hk2 & Hp2). simpl in Hk1, Hk2.
      destruct (HA k1 c1 p1 Hk1 Hp1) as (l1 & n1 & Hl1 & Hn1 & _).
      destruct (HA k2 c2 p2 Hk2 Hp2) as (l2 & n2 & Hl2 & Hn2 & _).
      rewrite (idAt_cons h' _ root k1 l1 p1 Hroot Hl1), (idAt_cons h' _ root k2 l2 p2 Hroot Hl2).
      rewrite (Hframe l1 p1 _ (list_elem_of_lookup_2 _ _ _ Hl1) Hn1).
      rewrite (Hframe l2 p2 _ (list_elem_of_lookup_2 _ _ _ Hl2) Hn2).
      rewrite <- Hn1, <- Hn2.
      apply (HB k1 k2 c1 c2); try done. congruence.
Qed.

(** * The index: inserting *)

Lemma set_resourcesById_id s : set_resourcesById (fun _ => resourcesById s) s = s.
Proof. by destruct s. Qed.

Lemma unindexed_mono h (m m' : gmap string loc) :
  m ⊆ m' → unindexed h m' ≤ unindexed h m.
Proof.
  intros Hsub. apply map_subseteq_size, map_filter_subseteq_ext.
  intros l r _ Hnone. simpl in *. by eapply lookup_weaken_None.
Qed.

Lemma unindexed_insert h (m : gmap string loc) l r l' :
  h !! l = Some r → m !! id r = None →
  unindexed h (<[id r := l']> m) < unindexed h m.
Proof.
  intros Hl Hnone. apply map_subset_size, map_subset_alt. split.
  - apply map_filter_subseteq_ext. intros k x _ Hk. simpl in *.
    apply lookup_insert_None in Hk. tauto.
  - exists l. split.
    + apply map_lookup_filter_None. right. intros x Hx. simplify_eq. simpl.
      by rewrite lookup_insert_eq.
    + exists r. by apply map_lookup_filter_Some.
Qed.

Lemma unindexed_le_size h (m : gmap string loc) : unindexed h m ≤ size h.
Proof. apply map_subseteq_size, map_filter_subseteq. Qed.

(** [addResourceToIndex] returns normally on a closed heap, given fuel above
    the number of unindexed objects; it only touches the index, only adds
    entries to it, and answers whether the identifier was free. *)
Lemma addResourceToIndex_total fuel :
  ∀ s l r, heap_closed s → heap s !! l = Some r →
    unindexed (heap s) (resourcesById s) < fuel →
    ∃ m', addResourceToIndex fuel l s =
            Ok (bool_decide (resourcesById s !! id r = None))
               (set_resourcesById (fun _ => m') s)
      ∧ resourcesById s ⊆ m'
      ∧ (resourcesById s !! id r = None → m' !! id r = Some l)
      ∧ ∀ X : loc → Prop, X l →
          (∀ x rx c, X x → heap s !! x = Some rx → c ∈ children rx → X c) →
          ∀ i v, m' !! i = Some v →
            resourcesById s !! i = Some v
            ∨ (X v ∧ ∃ rv, heap s !! v = Some rv ∧ id rv = i).
Proof.
  induction fuel as [|fuel IH]; intros s l r Hcl Hl Hfuel; [lia|].
  simpl. unfold deref. unfold bind at 1. rewrite Hl.
  rewrite bind_get.
  destruct (resourcesById s !! id r) as [l0|] eqn:Hidx.
  { exists (resourcesById s). rewrite set_resourcesById_id.
    rewrite bool_decide_eq_false_2 by done. split_and!; [done|done|done|].
    intros X _ _ i v Hv. by left. }
  rewrite bool_decide_eq_true_2 by done. rewrite bind_modify.
  set (m1 := <[id r := l]> (resourcesById s)).
  assert (Hlt : unindexed (heap s) m1 < fuel).
  { pose proof (unindexed_insert (heap s) (resourcesById s) l r l Hl Hidx). unfold m1. lia. }
  assert (Hsub1 : resourcesById s ⊆ m1) by by apply insert_subseteq.
  assert (Hloop : ∀ cs, (∀ c, c ∈ cs → is_Some (heap s !! c)) →
            ∀ m, m1 ⊆ m →
              ∃ m', forEach cs (fun child =>
                       let* _ := addResourceToIndex fuel child in ret tt)
                      (set_resourcesById (fun _ => m) s)
                    = Ok tt (set_resourcesById (fun _ => m') s) ∧ m ⊆ m'
                ∧ ∀ X : loc → Prop, (∀ c, c ∈ cs → X c) →
                    (∀ x rx c, X x → heap s !! x = Some rx → c ∈ children rx → X c) →
                    ∀ i v, m' !! i = Some v →
                      m !! i = Some v ∨ (X v ∧ ∃ rv, heap s !! v = Some rv ∧ id rv = i)).
  { induction cs as [|c cs IHcs]; intros Hcs m Hm.
    { exists m. split_and!; [done|done|]. intros X _ _ i v Hv. by left. }
    destruct (Hcs c) as [rc Hrc]; [by left|].
    destruct (IH (set_resourcesById (fun _ => m) s) c rc) as (m2 & E2 & Hsub2 & _ & Hkeys2).
    - done.
    - done.
    - simpl. pose proof (unindexed_mono (heap s) m1 m Hm). lia.
    - simpl in E2, Hsub2, Hkeys2.
      destruct (IHcs (fun c' Hc' => Hcs c' (list_elem_of_further _ _ _ Hc')) m2)
        as (m' & E' & Hsub' & Hkeys').
      { by etrans. }
      exists m'. split_and!; [|by etrans|].
      + simpl. rewrite bind_assoc, (bind_Ok _ _ _ _ _ E2), bind_ret. exact E'.
      + intros X HX Hclosed i v Hv.
        destruct (Hkeys' X (fun c' Hc' => HX c' (list_elem_of_further _ _ _ Hc')) Hclosed i v Hv)
          as [Hv2|Hnew]; [|by right].
        apply (Hkeys2 X (HX c (list_elem_of_here _ _)) Hclosed i v Hv2). }
  destruct (Hloop (children r) (proj2 (Hcl l r Hl)) m1) as (m' & E' & Hsub' & Hkeys'); [done|].
  exists m'. split_and!.
  - change (set_resourcesById (insert (id r) l) s)
      with (set_resourcesById (fun _ => m1) s).
    by rewrite (bind_Ok _ _ _ _ _ E').
  - by etrans.
  - intros _. eapply lookup_weaken; [|exact Hsub']. apply lookup_insert_eq.
  - intros X HX Hclosed i v Hv.
    destruct (Hkeys' X (fun c Hc => Hclosed l r c HX Hl Hc) Hclosed i v Hv) as [Hv1|Hnew];
      [|by right].
    unfold m1 in Hv1. destruct (decide (i = id r)) as [->|Hne].
    + rewrite lookup_insert_eq in Hv1. injection Hv1 as <-. right. split; [done|by exists r].
    + rewrite lookup_insert_ne in Hv1 by done. by left.
Qed.

(** * [setResources] returns normally *)

Lemma heap_closed_frame s s' :
  heap s' = heap s → nextLoc s' = nextLoc s → heap_closed s → heap_closed s'.
Proof. intros Hh Hn H l r. rewrite Hh, Hn. apply H. Qed.

Lemma mapM_buildResource_spec inputs :
  ∀ s, ∃ s' resources, mapM buildResource inputs s = Ok resources s'
      ∧ (heap_closed s → heap_closed s')
      ∧ nextLoc s ≤ nextLoc s'
      ∧ (∀ l, l < nextLoc s → heap s' !! l = heap s !! l)
      ∧ Forall (fun l => is_Some (heap s' !! l) ∧ nextLoc s ≤ l) resources
      ∧ (resourceGuid s ≤ resourceGuid s')%N.
Proof.
  induction inputs as [|i rest IH]; intros s.
  { exists s, []. split_and!; [done|done|lia|done|constructor|lia]. }
  destruct (buildResource_spec i s)
    as (s1 & E1 & Hcl1 & Hlt1 & Hfr1 & (k1 & Hroot1) & Hg1 & Htree1).
  destruct (IH s1) as (s' & rs & E & Hcl' & Hlt' & Hfr' & Hrs & Hg').
  exists s', (nextLoc s :: rs). split.
  { simpl. by rewrite (bind_Ok _ _ _ _ _ E1), (bind_Ok _ _ _ _ _ E). }
  split; [auto|]. split; [lia|]. split.
  { intros l Hl. rewrite Hfr' by lia. by apply Hfr1. }
  split; [|destruct (in_id i); lia]. constructor.
  - split; [|lia]. rewrite Hfr' by lia. by rewrite Hroot1.
  - eapply Forall_impl; [exact Hrs|]. simpl. intros k [? ?]. split; [done|lia].
Qed.

Lemma indexAll_total fuel resources :
  ∀ s, heap_closed s →
    Forall (fun l => is_Some (heap s !! l)) resources →
    unindexed (heap s) (resourcesById s) < fuel →
    ∃ valid m', indexAll fuel resources s =
                  Ok valid (set_resourcesById (fun _ => m') s)
      ∧ resourcesById s ⊆ m'
      ∧ valid ⊆ resources.
Proof.
  induction resources as [|l rest IH]; intros s Hcl Hin Hfuel.
  { exists [], (resourcesById s). simpl. unfold ret. by rewrite set_resourcesById_id. }
  inversion Hin as [|? ? [r Hr] Hrest]; subst.
  destruct (addResourceToIndex_total fuel s l r Hcl Hr Hfuel) as (m1 & E1 & Hsub1 & _ & _).
  destruct (IH (set_resourcesById (fun _ => m1) s)) as (valid & m' & E & Hsub & Hvalid).
  - done.
  - done.
  - simpl. pose proof (unindexed_mono (heap s) _ _ Hsub1). lia.
  - simpl in *. eexists _, m'. split; [|split].
    + rewrite (bind_Ok _ _ _ _ _ E1), (bind_Ok _ _ _ _ _ E). reflexivity.
    + by etrans.
    + destruct (bool_decide _); [by apply list_subseteq_skip|by apply list_subseteq_cons].
Qed.

Lemma addResourceToTree_total s l :
  heap_closed s → is_Some (heap s !! l) → is_Some (topLevelResources s) →
  ∃ b s', addResourceToTree l s = Ok b s'
    ∧ heap_closed s'
    ∧ is_Some (topLevelResources s')
    ∧ (∀ l', is_Some (heap s' !! l') ↔ is_Some (heap s !! l')).
Proof.
  intros Hcl [r Hr] [top Htop].
  destruct (parent r) as [p|] eqn:Hp.
  { exists true, s. rewrite (addResourceToTree_placed s l r) by eauto. eauto. }
  destruct (parentIdOf r) as [pid|] eqn:Hpid.
  - destruct (resourcesById s !! pid) as [p|] eqn:Hidx.
    + eexists _, _. split; [by eapply addResourceToTree_child|].
      assert (Hdom : ∀ l', is_Some ((alter (fun rp => set_children (children rp ++ [l]) rp) p
                        (alter (set_parent (Some p)) l (heap s))) !! l')
                      ↔ is_Some (heap s !! l')).
      { intros l'. rewrite !lookup_alter_is_Some. done. }
      simpl. split_and!; [|eauto|done].
      intros l' r'. simpl. intros Hl'.
      assert (∃ r0, heap s !! l' = Some r0
                ∧ (children r' = children r0 ∨ children r' = children r0 ++ [l]))
        as (r0 & Hr0 & Hch).
      { destruct (decide (p = l')) as [->|Hne].
        - rewrite lookup_alter_eq in Hl'.
          destruct (decide (l = l')) as [->|Hne'].
          + rewrite lookup_alter_eq, Hr in Hl'. simpl in Hl'. simplify_eq.
            eexists; split; [done|]. by right.
          + rewrite lookup_alter_ne in Hl' by done.
            destruct (heap s !! l') as [r0|]; [|done]. simpl in Hl'. simplify_eq.
            eexists; split; [done|]. by right.
        - rewrite lookup_alter_ne in Hl' by done.
          destruct (decide (l = l')) as [->|Hne'].
          + rewrite lookup_alter_eq, Hr in Hl'. simpl in Hl'. simplify_eq.
            eexists; split; [done|]. by left.
          + rewrite lookup_alter_ne in Hl' by done. eauto. }
      destruct (Hcl l' r0 Hr0) as [Hlt Hc]. split; [done|].
      intros c Hcin. apply Hdom.
      destruct Hch as [Hch|Hch]; rewrite Hch in Hcin; [auto|].
      apply elem_of_app in Hcin as [?|Hc1]; [auto|].
      apply list_elem_of_singleton in Hc1 as ->. eauto.
    + exists false, s. rewrite (addResourceToTree_orphan s l r pid) by done. eauto.
  - eexists _, _. split; [by eapply addResourceToTree_top|].
    split_and!; [|simpl; eauto|done].
    by apply (heap_closed_frame s).
Qed.

Lemma attachAll_total resources :
  ∀ s, heap_closed s → is_Some (topLevelResources s) →
    Forall (fun l => is_Some (heap s !! l)) resources →
    ∃ s', forEach resources
            (fun resource => let* _ := addResourceToTree resource in ret tt) s
          = Ok tt s'
      ∧ heap_closed s' ∧ is_Some (topLevelResources s').
Proof.
  induction resources as [|l rest IH]; intros s Hcl Htop Hin.
  { exists s. done. }
  inversion Hin as [|? ? Hl Hrest]; subst.
  destruct (addResourceToTree_total s l Hcl Hl Htop) as (b & s1 & E1 & Hcl1 & Htop1 & Hdom1).
  destruct (IH s1 Hcl1 Htop1) as (s' & E & Hcl' & Htop').
  { eapply Forall_impl; [exact Hrest|]. simpl. intros. by apply Hdom1. }
  exists s'. split; [|done].
  simpl. rewrite bind_assoc, (bind_Ok _ _ _ _ _ E1), bind_ret. exact E.
Qed.

Section SetResources.
Context (R : relation State) `{!PreOrder R}.

Lemma setResources_respects inputs :
  heap_independent R → guid_independent R → index_independent R →
  top_independent R → trace_independent R →
  respects R (setResources inputs).
Proof.
  intros Hh Hg Hi Ht He. unfold setResources, initializeCache.
  apply (respects_bind R); [apply (respects_get R)|intros s0].
  apply (respects_bind R).
  { apply (respects_bind R); apply (respects_modify R) || intros _; [apply Ht|].
    apply (respects_modify R), Hi. }
  intros _. apply (respects_bind R); [by apply (buildResources_respects R)|intros rs].
  apply (respects_bind R); [apply (respects_get R)|intros s1].
  apply (respects_bind R).
  { generalize (stackFuel s1). intros fuel. induction rs as [|l rs IH]; simpl.
    - apply (respects_ret R).
    - apply (respects_bind R); [by apply (addResourceToIndex_respects R)|intros].
      apply (respects_bind R); [apply IH|intros]. apply (respects_ret R). }
  intros valid. apply (respects_bind R).
  { apply (respects_forEach R). intros l.
    apply (respects_bind R); [by apply (addResourceToTree_respects R)|intros].
    apply (respects_ret R). }
  intros _. apply (respects_bind R); [apply (respects_get R)|intros s2].
  apply (respects_bind R); [by apply (respects_emit R)|intros _].
  by apply (respects_emit R).
Qed.

End SetResources.

(** [setResources] returns normally from every closed heap; it ends by
    emitting [reset] when [topLevelResources] was not null on entry and
    [set] otherwise, then the public [resourcesSet], both with the new
    top-level list. *)
Lemma setResources_total inputs s :
  heap_closed s →
  ∃ s', setResources inputs s = Ok tt s'
    ∧ heap_closed s'
    ∧ is_Some (topLevelResources s')
    ∧ trace s' = trace s ++
        [ (if bool_decide (is_Some (topLevelResources s))
           then Trigger_reset (topLevelResources s')
           else Trigger_set (topLevelResources s'));
          PubliclyTrigger_resourcesSet (topLevelResources s') ].
Proof.
  intros Hcl.
  set (sa := set_resourcesById (fun _ => ∅) (set_topLevelResources (Some []) s)).
  assert (Hcla : heap_closed sa) by by apply (heap_closed_frame s).
  destruct (mapM_buildResource_spec inputs sa)
    as (sb & rs & Eb & Hclb & _ & _ & Hrs & _).
  specialize (Hclb Hcla).
  assert (Htopb : topLevelResources sb = Some []).
  { apply (preserves_Ok topLevelResources _ _ _ _
             (buildResources_respects (same topLevelResources) inputs
                ltac:(independent) ltac:(independent))) in Eb. done. }
  assert (Htrb : trace sb = trace s).
  { apply (preserves_Ok trace _ _ _ _
             (buildResources_respects (same trace) inputs
                ltac:(independent) ltac:(independent))) in Eb. done. }
  destruct (indexAll_total (stackFuel sb) rs sb Hclb) as (valid & m' & Ec & _ & Hvalid).
  { eapply Forall_impl; [exact Hrs|]. by intros ? [? _]. }
  { unfold stackFuel. pose proof (unindexed_le_size (heap sb) (resourcesById sb)). lia. }
  set (sc := set_resourcesById (fun _ => m') sb) in *.
  destruct (attachAll_total valid sc) as (sd & Ed & Hcld & Htopd).
  { by apply (heap_closed_frame sb). }
  { simpl. rewrite Htopb. eauto. }
  { apply Forall_forall. intros l Hl. rewrite Forall_forall in Hrs.
    destruct (Hrs l) as [? _]; [by apply Hvalid|done]. }
  assert (Htrd : trace sd = trace s).
  { transitivity (trace sc); [|done].
    eapply (preserves_Ok trace); [|exact Ed].
    apply (respects_forEach (same trace)). intros l.
    apply (respects_bind (same trace));
      [apply (addResourceToTree_respects (same trace)); independent|intros].
    apply (respects_ret (same trace)). }
  eexists. split.
  { unfold setResources. rewrite bind_get.
    assert (Ea : initializeCache s = Ok tt sa) by done.
    rewrite (bind_Ok _ _ _ _ _ Ea), (bind_Ok _ _ _ _ _ Eb), bind_get.
    rewrite (bind_Ok _ _ _ _ _ Ec), (bind_Ok _ _ _ _ _ Ed), bind_get, bind_modify.
    reflexivity. }
  simpl. split_and!.
  - by apply (heap_closed_frame sd).
  - done.
  - rewrite Htrd. rewrite <- app_assoc. simpl. by case_bool_decide.
Qed.

(** * Frame properties of the public methods *)

Section Operations.
Context (R : relation State) `{!PreOrder R}.
Hypothesis Hheap : heap_independent R.
Hypothesis Hguid : guid_independent R.
Hypothesis Hindex : index_independent R.
Hypothesis Htop : top_independent R.
Hypothesis Htrace : trace_independent R.
Hypothesis Hfetch : fetch_independent R.

Lemma addClosure_respects input callback : respects R (addClosure input callback).
Proof.
  unfold addClosure.
  apply (respects_bind R); [by apply buildResource_respects|intros resource].
  apply (respects_bind R); [apply (respects_get R)|intros s].
  apply (respects_bind R); [by apply addResourceToIndex_respects|intros ok].
  destruct ok; [|apply (respects_ret R)].
  apply (respects_bind R); [by apply addResourceToTree_respects|intros _].
  apply (respects_bind R); [apply (respects_get R)|intros s'].
  apply (respects_bind R); [by apply respects_emit|intros _].
  destruct callback; [by apply respects_emit|apply (respects_ret R)].
Qed.

Lemma removeClosure_respects rid : respects R (removeClosure rid).
Proof.
  unfold removeClosure.
  apply (respects_bind R); [apply (respects_get R)|intros s].
  apply (respects_bind R); [by apply removeResourceFromIndex_respects|intros found].
  destruct found; [|apply (respects_ret R)].
  apply (respects_bind R); [by apply removeResourceFromTree_respects|intros _].
  apply (respects_bind R); [apply (respects_get R)|intros s'].
  by apply respects_emit.
Qed.

Lemma invoke_respects cb : respects R (invoke cb).
Proof.
  destruct cb; simpl.
  - apply (respects_bind R); [apply (respects_get R)|intros s]. by apply respects_emit.
  - apply addClosure_respects.
  - apply removeClosure_respects.
Qed.

Lemma applyAll_respects a : respects R (applyAll a).
Proof.
  unfold applyAll. apply (respects_bind R); [apply (respects_get R)|intros s].
  destruct (arrays s !! a); [|apply (respects_throw R)].
  apply (respects_forEach R), invoke_respects.
Qed.

Lemma whenFetchingResolved_respects cb : respects R (whenFetchingResolved cb).
Proof.
  unfold whenFetchingResolved.
  apply (respects_bind R); [apply (respects_get R)|intros s].
  destruct (isFetchingResolved s); [apply invoke_respects|].
  destruct (fetchingResourcesCallbacks s); [|apply (respects_throw R)].
  apply (respects_modify R), Hfetch.
Qed.

Lemma fetchCompletion_respects k inputs : respects R (fetchCompletion k inputs).
Proof.
  unfold fetchCompletion.
  apply (respects_bind R); [apply (respects_get R)|intros s].
  destruct (bool_decide _); [|apply (respects_ret R)].
  apply (respects_bind R); [by apply setResources_respects|intros _].
  apply (respects_bind R); [apply (respects_modify R), Hfetch|intros _].
  apply (respects_bind R); [apply (respects_modify R), Hfetch|intros _].
  apply applyAll_respects.
Qed.

Lemma fetchResourceInputs_respects k start end_ :
  respects R (fetchResourceInputs k start end_).
Proof.
  unfold fetchResourceInputs.
  apply (respects_bind R); [apply (respects_get R)|intros s].
  destruct (opt_resources s); try apply fetchCompletion_respects;
    (apply (respects_bind R); [by apply respects_emit|intros _]);
    by apply respects_emit.
Qed.

Lemma sourceCompletes_respects k inputs : respects R (sourceCompletes k inputs).
Proof.
  unfold sourceCompletes.
  apply (respects_bind R); [by apply respects_emit|intros _].
  apply fetchCompletion_respects.
Qed.

Lemma onResponse_respects parse k d err res :
  respects R (onResponse parse k d err res).
Proof.
  unfold onResponse.
  apply (respects_bind R); [by apply respects_emit|intros _].
  apply (respects_bind R).
  { destruct err; [apply (respects_ret R)|].
    destruct (body res); [apply (respects_ret R)|].
    destruct (bool_decide _); [apply (respects_ret R)|].
    destruct (parse (text res)); [apply (respects_ret R)|apply (respects_throw R)]. }
  intros [inputs|].
  - destruct (success d).
    + apply (respects_bind R); [by apply respects_emit|intros _].
      apply fetchCompletion_respects.
    + apply fetchCompletion_respects.
  - apply (respects_bind R); [|intros _; apply fetchCompletion_respects].
    destruct (error d); [by apply respects_emit|apply (respects_ret R)].
Qed.

Lemma fetchResources_respects start end_ cb : respects R (fetchResources start end_ cb).
Proof.
  unfold fetchResources.
  apply (respects_bind R); [apply (respects_get R)|intros s].
  do 6 (apply (respects_bind R); [apply (respects_modify R), Hfetch|intros _]).
  apply fetchResourceInputs_respects.
Qed.

Lemma isSameRange_respects start end_ : respects R (isSameRange start end_).
Proof.
  unfold isSameRange.
  apply (respects_bind R); [apply (respects_get R)|intros s].
  destruct start, (currentStart s); try apply (respects_ret R).
  destruct (isSame _ _); [|apply (respects_ret R)].
  destruct end_, (currentEnd s);
    apply (respects_ret R) || apply (respects_throw R).
Qed.

Lemma getResources_respects start end_ cb : respects R (getResources start end_ cb).
Proof.
  unfold getResources.
  apply (respects_bind R); [apply isSameRange_respects|intros same].
  apply (respects_bind R); [apply (respects_get R)|intros s].
  destruct (_ || _); [apply fetchResources_respects|apply whenFetchingResolved_respects].
Qed.

Lemma addResource_respects input callback : respects R (addResource input callback).
Proof.
  unfold addResource.
  apply (respects_bind R); [apply (respects_get R)|intros s].
  destruct (isFetchingInitiated s);
    [apply whenFetchingResolved_respects|apply (respects_ret R)].
Qed.

Lemma removeResource_respects a : respects R (removeResource a).
Proof.
  unfold removeResource. apply (respects_bind R).
  { destruct a; [apply (respects_ret R)|].
    apply (respects_bind R); [apply (respects_deref R)|intros; apply (respects_ret R)]. }
  intros rid. apply (respects_bind R); [apply (respects_get R)|intros s].
  destruct (isFetchingInitiated s);
    [apply whenFetchingResolved_respects|apply (respects_ret R)].
Qed.

Lemma clear_respects : respects R clear.
Proof.
  unfold clear.
  apply (respects_bind R); [apply (respects_modify R), Hfetch|intros _].
  apply (respects_modify R), Htop.
Qed.

Lemma resetCurrentResources_respects : respects R resetCurrentResources.
Proof.
  unfold resetCurrentResources.
  apply (respects_bind R); [apply (respects_get R)|intros s].
  destruct (topLevelResources s); [by apply respects_emit|apply (respects_ret R)].
Qed.

Lemma step_respects parse op : respects R (step parse op).
Proof.
  destruct op; simpl.
  - apply getResources_respects.
  - apply fetchResources_respects.
  - apply whenFetchingResolved_respects.
  - by apply setResources_respects.
  - apply resetCurrentResources_respects.
  - apply clear_respects.
  - apply addResource_respects.
  - apply removeResource_respects.
  - apply sourceCompletes_respects.
  - apply onResponse_respects.
Qed.

Lemma run_respects parse ops s : R s (run parse ops s).
Proof.
  revert s. induction ops as [|op ops IH]; intros s; simpl; [reflexivity|].
  etrans; [apply (step_respects parse op)|apply IH].
Qed.

End Operations.

(** * The fetch coordinator *)

Lemma emits_nil s : emits [] s = s.
Proof. destruct s. unfold emits. simpl. by rewrite app_nil_r. Qed.

Lemma emits_emits es1 es2 s : emits es2 (emits es1 s) = emits (es1 ++ es2) s.
Proof. unfold emits. simpl. by rewrite app_assoc. Qed.

(** Calling user callbacks only extends the trace: each is called once, in
    order, with the top-level list. *)
Lemma applyUserCallbacks ns s :
  forEach (map UserCallback ns) invoke s =
    Ok tt (emits (map (fun n => Call n (topLevelResources s)) ns) s).
Proof.
  revert s. induction ns as [|n ns IH]; intros s; simpl.
  { unfold ret. by rewrite emits_nil. }
  rewrite bind_assoc, bind_get, bind_modify. rewrite IH. unfold emit.
  by rewrite emits_emits.
Qed.

(** A completion whose generation is not the current one does nothing. *)
Lemma fetchCompletion_stale k inputs s :
  currentFetchId k ≠ fetchId s → fetchCompletion k inputs s = Ok tt s.
Proof.
  intros H. unfold fetchCompletion. rewrite bind_get.
  by rewrite bool_decide_eq_false_2.
Qed.

(** The completion of the current generation. *)
Lemma fetchCompletion_current k inputs s ns :
  heap_closed s →
  currentFetchId k = fetchId s →
  arrays s !! callbacks k = Some (map UserCallback ns) →
  ∃ q, setResources inputs s = Ok tt q
    ∧ fetchCompletion k inputs s =
        Ok tt (emits (map (fun n => Call n (topLevelResources q)) ns)
                 (set_fetchingResourcesCallbacks None (set_isFetchingResolved true q))).
Proof.
  intros Hcl Hk Harr.
  destruct (setResources_total inputs s Hcl) as (q & E & _).
  exists q. split; [done|].
  unfold fetchCompletion. rewrite bind_get, bool_decide_eq_true_2 by done.
  rewrite (bind_Ok _ _ _ _ _ E), !bind_modify.
  unfold applyAll. rewrite bind_get. simpl.
  assert (arrays q = arrays s) as ->.
  { eapply (preserves_Ok arrays); [|exact E].
    apply (setResources_respects (same arrays)); independent. }
  rewrite Harr. by rewrite applyUserCallbacks.
Qed.

Lemma fetchResourceInputs_async k start end_ s :
  is_async (opt_resources s) →
  fetchResourceInputs k start end_ s = Ok tt (emits (startEffects s k start end_) s).
Proof.
  intros H. unfold fetchResourceInputs, startEffects. rewrite bind_get.
  destruct (opt_resources s); try done;
    rewrite bind_modify; unfold modify, emit; by rewrite emits_emits.
Qed.






(** * Generated identifiers across operations *)

Lemma run_guid_le parse ops s : (resourceGuid s ≤ resourceGuid (run parse ops s))%N.
Proof. apply (run_respects guid_le); independent. Qed.

(** C9 — every object built from an input without identifier, nested
    inputs included, is given ['_fc'] followed by a value that the static
    counter took during the build, below the value the build leaves it at;
    no operation of a manager, [setResources] and [clear] included, ever
    lowers the counter.  Hence an object built without identifier and one
    built likewise after any sequence of operations carry different
    identifiers, and so do two objects built without identifier from
    different positions of the same input. *)
Theorem auto_id_unique parse input1 input2 s ops p1 p2 :
  anonymous input1 p1 → anonymous input2 p2 →
  let s1 := state_of (buildResource input1 s) in
  let s2 := run parse ops s1 in
  let s3 := state_of (buildResource input2 s2) in
  ∃ n1 n2,
    idAt (heap s1) (nextLoc s) p1 = Some ("_fc" +:+ pretty n1)
    ∧ idAt (heap s3) (nextLoc s2) p2 = Some ("_fc" +:+ pretty n2)
    ∧ (resourceGuid s ≤ n1 < resourceGuid s1)%N
    ∧ (resourceGuid s1 ≤ resourceGuid s2)%N
    ∧ (resourceGuid s2 ≤ n2 < resourceGuid s3)%N
    ∧ idAt (heap s1) (nextLoc s) p1 ≠ idAt (heap s3) (nextLoc s2) p2
    ∧ ∀ p, anonymous input1 p → p ≠ p1 →
        idAt (heap s1) (nextLoc s) p ≠ idAt (heap s1) (nextLoc s) p1.
Proof.
  intros H1 H2 s1 s2 s3.
  destruct (buildResource_generated input1 s) as [HA1 HB1].
  destruct (buildResource_generated input2 s2) as [HA2 _].
  destruct (HA1 p1 H1) as (n1 & Hn1 & Hb1). destruct (HA2 p2 H2) as (n2 & Hn2 & Hb2).
  assert (Hle : (resourceGuid s1 ≤ resourceGuid s2)%N) by apply run_guid_le.
  exists n1, n2. fold s1 in Hn1, Hb1, HB1. fold s3 in Hn2, Hb2.
  split_and!; try done; try lia.
  - rewrite Hn1, Hn2. intros Heq. simplify_eq. lia.
  - intros p Hp Hne. by apply HB1.
Qed.

Lemma auto_id_unique_witness :
  let input1 := ResourceInput None None [ResourceInput (Some "a") None [];
                                         ResourceInput None None []] in
  let input2 := ResourceInput None (Some "p") [] in
  let s := newManager (SrcArray []) None in
  let s1 := state_of (buildResource input1 s) in
  let s2 := run (fun _ => None) [SetResources [ResourceInput None None []]; Clear] s1 in
  let s3 := state_of (buildResource input2 s2) in
  idAt (heap s1) (nextLoc s) [1] ≠ idAt (heap s3) (nextLoc s2) []
  ∧ idAt (heap s1) (nextLoc s) [] ≠ idAt (heap s1) (nextLoc s) [1].
Proof.
  intros input1 input2 s s1 s2 s3.
  destruct (auto_id_unique (fun _ => None) input1 input2 s
              [SetResources [ResourceInput None None []]; Clear] [1] [])
    as (n1 & n2 & _ & _ & _ & _ & _ & Hd & Hs).
  - eexists. split; reflexivity.
  - eexists. split; reflexivity.
  - split; [exact Hd|]. apply Hs; [|discriminate]. eexists. split; reflexivity.
Defined.

(** * The range test of [getResources] *)

(** No method assigns [currentStart] or [currentEnd]. *)
Lemma run_currentStart parse ops s :
  currentStart (run parse ops s) = currentStart s
  ∧ currentEnd (run parse ops s) = currentEnd s.
Proof.
  split.
  - apply (run_respects (same currentStart)); independent.
  - apply (run_respects (same currentEnd)); independent.
Qed.

(** With no recorded range, a request that carries a range always fetches. *)
Lemma getResources_present_range a end_ cb s :
  currentStart s = None →
  getResources (Some a) end_ cb s = fetchResources (Some a) end_ cb s.
Proof.
  intros H. unfold getResources, isSameRange.
  rewrite bind_assoc, bind_get, H, bind_ret, bind_get.
  by rewrite orb_true_r.
Qed.

(** C3 — evaluated on a function source: two calls of [getResources] with
    the same present range [a, b] invoke the source twice, once per call and
    each in a generation of its own; the second call is not served from the
    first. *)
Theorem getResources_equal_ranges_fetch_twice (a b : Moment) n1 n2 tz :
  ∃ s', (let* _ := getResources (Some a) (Some b) (UserCallback n1) in
         getResources (Some a) (Some b) (UserCallback n2))
          (newManager SrcFunction tz) = Ok tt s'
    ∧ trace s' = [ PushLoading;
                   SourceInvoked (mkFetchClosure 1 0) (Some a) (Some b) tz;
                   PushLoading;
                   SourceInvoked (mkFetchClosure 2 1) (Some a) (Some b) tz ]
    ∧ fetchId s' = 2%N
    ∧ isFetchingResolved s' = false.
Proof. eexists. split; [vm_compute; reflexivity|]. done. Qed.

(** A request without a range after one with a range is served from the
    pending fetch although the ranges differ. *)
Lemma getResources_absent_after_present (a b : Moment) n1 n2 tz :
  ∃ s', (let* _ := getResources (Some a) (Some b) (UserCallback n1) in
         getResources None None (UserCallback n2))
          (newManager SrcFunction tz) = Ok tt s'
    ∧ trace s' = [ PushLoading;
                   SourceInvoked (mkFetchClosure 1 0) (Some a) (Some b) tz ]
    ∧ fetchId s' = 1%N.
Proof. eexists. split; [vm_compute; reflexivity|]. done. Qed.

(** Two requests without a range: the second is served from the first. *)
Lemma getResources_absent_twice n1 n2 tz :
  ∃ s', (let* _ := getResources None None (UserCallback n1) in
         getResources None None (UserCallback n2))
          (newManager SrcFunction tz) = Ok tt s'
    ∧ trace s' = [ PushLoading; SourceInvoked (mkFetchClosure 1 0) None None tz ]
    ∧ arrays s' !! 0 = Some [UserCallback n1; UserCallback n2].
Proof. eexists. split; [vm_compute; reflexivity|]. done. Qed.

(** * The first load *)

(** C4 — evaluated on a new manager whose source is an array: the first
    load emits [reset], not [set], then the public [resourcesSet], and calls
    the callback, all with the new top-level list. *)
Theorem first_load_emits_reset inputs tz start end_ n :
  ∃ s', getResources start end_ (UserCallback n) (newManager (SrcArray inputs) tz)
          = Ok tt s'
    ∧ trace s' = [ Trigger_reset (topLevelResources s');
                   PubliclyTrigger_resourcesSet (topLevelResources s');
                   Call n (topLevelResources s') ].
Proof.
  set (s0 := newManager (SrcArray inputs) tz).
  set (s1 := set_fetchingResourcesCallbacks (Some 0)
               (set_arrays <[0 := [UserCallback n]]>
                  (set_nextArray 1
                     (set_isFetchingResolved false
                        (set_isFetchingInitiated true (set_fetchId 1 s0)))))).
  assert (Hcl : heap_closed s1) by (intros l r H; simpl in H; by rewrite lookup_empty in H).
  destruct (fetchCompletion_current (mkFetchClosure 1 0) inputs s1 [n] Hcl)
    as (q & Eq & Ec); [done|done|].
  destruct (setResources_total inputs s1 Hcl) as (q' & Eq' & _ & _ & Htr).
  rewrite Eq in Eq'. simplify_eq.
  eexists. split.
  { assert (Hsame : ∃ b, isSameRange start end_ s0 = Ok b s0)
      by (destruct start; eexists; reflexivity).
    destruct Hsame as [same Hsame].
    unfold getResources. rewrite (bind_Ok _ _ _ _ _ Hsame), bind_get. simpl.
    unfold fetchResources. rewrite bind_get, !bind_modify.
    unfold fetchResourceInputs. rewrite bind_get. simpl. exact Ec. }
  simpl. rewrite Htr. done.
Qed.

(** After [clear], the next load emits [set]. *)
Lemma load_after_clear_emits_set inputs s :
  heap_closed s →
  ∃ s', (let* _ := clear in setResources inputs) s = Ok tt s'
    ∧ trace s' = trace s ++ [ Trigger_set (topLevelResources s');
                              PubliclyTrigger_resourcesSet (topLevelResources s') ].
Proof.
  intros Hcl.
  set (s1 := set_topLevelResources None (set_isFetchingInitiated false s)).
  destruct (setResources_total inputs s1) as (s' & E & _ & _ & Htr).
  { by apply (heap_closed_frame s). }
  exists s'. split; [|done].
  unfold clear. by rewrite bind_assoc, !bind_modify.
Qed.

(** * The response of a remote source *)

(** A transport failure: the error hook, when there is one, is called with
    the error and the response, and the fetch completes with no inputs. *)
Lemma onResponse_transport_failure parse k d e res s :
  onResponse parse k d (Some e) res s =
    fetchCompletion k []
      (emits (PopLoading :: if error d then [ErrorHook (Some e) res] else []) s).
Proof.
  unfold onResponse. rewrite bind_modify, bind_ret.
  destruct (error d).
  - rewrite bind_modify. unfold emit. by rewrite emits_emits.
  - by rewrite bind_ret.
Qed.

(** C5 — a response without error and without parsed body whose text is
    not valid JSON: [JSON.parse] raises a SyntaxError inside the handler;
    the error hook is not called and the fetch never completes. *)
Theorem onResponse_unparsable_text parse k d res s :
  body res = JsonFalsy → text res ≠ "" → parse (text res) = None →
  onResponse parse k d None res s = Throw SyntaxError (emit PopLoading s).
Proof.
  intros Hb Ht Hp. unfold onResponse. rewrite bind_modify.
  unfold bind. by rewrite Hb, bool_decide_eq_false_2, Hp.
Qed.

Lemma onResponse_unparsable_text_witness :
  onResponse (fun _ => None) (mkFetchClosure 1 0)
    (mkDescriptor "/resources" None None true) None
    (mkResponse JsonFalsy "<html>") (newManager (SrcString "/resources") None)
  = Throw SyntaxError (emit PopLoading (newManager (SrcString "/resources") None)).
Proof.
  apply onResponse_unparsable_text; [reflexivity|discriminate|reflexivity].
Defined.

(** * The index: removing *)

Lemma descFrom_mono h (m m' : gmap string loc) rid j :
  m ⊆ m' → descFrom h m rid j → descFrom h m' rid j.
Proof.
  intros Hsub. induction 1 as [|i l r c rc _ IH Hi Hl Hc Hrc]; [constructor|].
  apply (desc_child h m' rid i l r c rc); [done| |done..].
  by eapply lookup_weaken.
Qed.

Lemma descFrom_trans h (m : gmap string loc) rid i j :
  descFrom h m rid i → descFrom h m i j → descFrom h m rid j.
Proof.
  intros Hi. induction 1 as [|k l r c rc _ IH Hk Hl Hc Hrc]; [done|].
  by apply (desc_child h m rid k l r c rc).
Qed.

Lemma swept_refl h (m : gmap string loc) : swept h m m.
Proof. split; [done|]. intros i l r c rc Hi Hi'. congruence. Qed.

Lemma swept_trans h (m m1 m2 : gmap string loc) :
  swept h m m1 → swept h m1 m2 → swept h m m2.
Proof.
  intros [Hsub1 H1] [Hsub2 H2]. split; [by etrans|].
  intros i l r c rc Hi Hi2 Hl Hc Hrc.
  destruct (m1 !! i) as [l'|] eqn:Hi1.
  - assert (l' = l) as -> by (pose proof (lookup_weaken _ _ _ _ Hi1 Hsub1); congruence).
    eauto.
  - eapply lookup_weaken_None; [|exact Hsub2]. eauto.
Qed.

(** [removeResourceFromIndex] returns normally given fuel above the size of
    the index; it returns the entry of [rid], touches nothing but the index,
    and sweeps from [rid]. *)
Lemma removeResourceFromIndex_spec fuel :
  ∀ s rid, heap_closed s → index_closed s →
    size (resourcesById s) < fuel →
    ∃ m', removeResourceFromIndex fuel rid s =
            Ok (resourcesById s !! rid) (set_resourcesById (fun _ => m') s)
      ∧ swept (heap s) (resourcesById s) m'
      ∧ m' !! rid = None
      ∧ (∀ j, is_Some (resourcesById s !! j) → m' !! j = None →
           descFrom (heap s) (resourcesById s) rid j).
Proof.
  induction fuel as [|fuel IH]; intros s rid Hcl Hic Hfuel; [lia|].
  simpl. rewrite bind_get.
  destruct (resourcesById s !! rid) as [l|] eqn:Hrid; cycle 1.
  { exists (resourcesById s). rewrite set_resourcesById_id.
    split_and!; [done|apply swept_refl|done|].
    intros j [x Hx] Hj. congruence. }
  destruct (Hic rid l Hrid) as [r Hr].
  rewrite bind_modify. unfold deref. unfold bind at 1. simpl. rewrite Hr.
  set (m := resourcesById s). set (m0 := delete rid m).
  assert (Hsize0 : size m0 < fuel).
  { assert (size m ≠ 0) by (apply (map_size_ne_0_lookup_2 m rid); eauto).
    unfold m0. rewrite map_size_delete_Some by eauto. unfold m in *.
    destruct (size (resourcesById s)); simpl; lia. }
  assert (Hloop : ∀ cs, (∀ c, c ∈ cs → is_Some (heap s !! c)) →
    ∀ mk, mk ⊆ m0 →
      ∃ m', forEach cs (fun child =>
               let* c := deref child in
               let* _ := removeResourceFromIndex fuel (id c) in ret tt)
              (set_resourcesById (fun _ => mk) s)
            = Ok tt (set_resourcesById (fun _ => m') s)
        ∧ swept (heap s) mk m'
        ∧ (∀ c rc, c ∈ cs → heap s !! c = Some rc → m' !! id rc = None)
        ∧ (∀ j, is_Some (mk !! j) → m' !! j = None →
             ∃ c rc, c ∈ cs ∧ heap s !! c = Some rc
                     ∧ descFrom (heap s) mk (id rc) j)).
  { induction cs as [|c cs IHcs]; intros Hcs mk Hmk.
    { exists mk. split_and!; [done|apply swept_refl|set_solver|].
      intros j [x Hx] Hj. congruence. }
    destruct (Hcs c) as [rc Hrc]; [by left|].
    destruct (IH (set_resourcesById (fun _ => mk) s) (id rc))
      as (m1 & E1 & Hsw1 & Hnone1 & Hwithin1).
    { done. }
    { intros i l' Hi. simpl in Hi. apply (Hic i l').
      eapply lookup_weaken; [exact Hi|]. etrans; [exact Hmk|apply delete_subseteq]. }
    { simpl. pose proof (map_subseteq_size _ _ Hmk). lia. }
    simpl in E1, Hsw1, Hwithin1.
    destruct (IHcs (fun c' Hc' => Hcs c' (list_elem_of_further _ _ _ Hc')) m1)
      as (m' & E' & Hsw' & Hkids' & Hwithin').
    { etrans; [apply Hsw1|done]. }
    exists m'. split_and!.
    - simpl. unfold deref at 1. rewrite bind_assoc. unfold bind at 1. simpl. rewrite Hrc.
      rewrite bind_assoc, (bind_Ok _ _ _ _ _ E1), bind_ret. exact E'.
    - by eapply swept_trans.
    - intros c' rc' Hc' Hrc'. apply elem_of_cons in Hc' as [->|Hc'].
      + simplify_eq. eapply lookup_weaken_None; [exact Hnone1|apply Hsw'].
      + eauto.
    - intros j Hj Hj'. destruct (m1 !! j) as [x|] eqn:Hj1.
      + destruct (Hwithin' j) as (c' & rc' & Hc' & Hrc' & Hd); [eauto|done|].
        exists c', rc'. split_and!; [by right|done|].
        eapply descFrom_mono; [apply Hsw1|done].
      + exists c, rc. split_and!; [by left|done|]. by apply Hwithin1. }
  destruct (Hloop (children r) (proj2 (Hcl l r Hr)) m0) as (m' & E' & Hsw' & Hkids' & Hwithin');
    [done|].
  exists m'.
  assert (Hsub0 : m0 ⊆ m) by apply delete_subseteq.
  split_and!.
  - change (set_resourcesById (delete rid) s) with (set_resourcesById (fun _ => m0) s).
    by rewrite (bind_Ok _ _ _ _ _ E').
  - split; [etrans; [apply Hsw'|done]|].
    intros i l' r' c rc Hi Hi' Hl' Hc Hrc.
    destruct (decide (i = rid)) as [->|Hne].
    + assert (l' = l) as -> by (unfold m in *; congruence). simplify_eq. eauto.
    + eapply (proj2 Hsw' i l' r' c rc); eauto. unfold m0. by rewrite lookup_delete_ne.
  - eapply lookup_weaken_None; [|apply Hsw']. unfold m0. apply lookup_delete_eq.
  - intros j Hj Hj'. destruct (decide (j = rid)) as [->|Hne]; [constructor|].
    destruct (Hwithin' j) as (c & rc & Hc & Hrc & Hd).
    { unfold m0. by rewrite lookup_delete_ne. }
    { done. }
    eapply descFrom_trans.
    + eapply (desc_child _ _ _ rid l r c rc); eauto. constructor.
    + eapply descFrom_mono; [exact Hsub0|done].
Qed.


Lemma demoState_closed : heap_closed demoState ∧ index_closed demoState.
Proof.
  split.
  - intros l r H. unfold demoState in H. cbn [heap] in H.
    apply lookup_insert_Some in H as [[<- <-]|[? H]];
      [|apply lookup_singleton_Some in H as [<- <-]];
      (split; [simpl; lia|intros c Hc; by inversion Hc]).
  - intros i l H. unfold demoState in H. cbn [resourcesById] in H.
    apply lookup_insert_Some in H as [[<- <-]|[? H]];
      [|apply lookup_singleton_Some in H as [<- <-]]; by eexists.
Qed.


(** * Adding a resource whose parent is not indexed *)





(** * Index and tree in lockstep *)


(** After [setResources] on an input whose child repeats its identifier,
    the child is reachable from the top-level list and is not in the flat
    index. *)
Lemma lockstep_counterexample_duplicate :
  let s := state_of (setResources
                       [ResourceInput (Some "a") None [ResourceInput (Some "a") None []]]
                       (newManager (SrcArray []) None)) in
  reachable s 1 ∧ ¬ indexed s 1.
Proof.
  intros s. split.
  - apply (reach_child s 0 (mkResource "a" None None [1]) 1).
    + apply (reach_top s [0] 0); [vm_compute; reflexivity|by left].
    + vm_compute. reflexivity.
    + by left.
  - intros H. vm_compute in H. inversion H as [|? ? ? H']; subst. inversion H'.
Qed.

(** ** Trees and reachability *)

Lemma repr_reach s t :
  repr (heap s) t → reachable s (root t) → ∀ l, l ∈ nodes t → reachable s l.
Proof.
  induction t as [l ts IH] using tree_nested_ind. intros Hrep Hroot x Hx.
  apply repr_inv in Hrep as (r & Hr & Hch & Hts).
  rewrite nodes_eq in Hx. apply elem_of_cons in Hx as [->|Hx]; [done|].
  apply elem_of_fnodes in Hx as (t & Ht & Hxt).
  rewrite Forall_forall in IH, Hts. apply (IH t Ht (Hts t Ht)); [|done].
  apply (reach_child s l r); [done|done|].
  rewrite Hch. by apply list_elem_of_fmap_2.
Qed.

Lemma reachable_iff_nodes s F :
  topLevelResources s = Some (root <$> F) → Forall (repr (heap s)) F →
  ∀ l, reachable s l ↔ l ∈ fnodes F.
Proof.
  intros Htop HF l. split.
  - induction 1 as [top l Ht Hl|p r l _ IH Hp Hl].
    + rewrite Htop in Ht. simplify_eq. by apply roots_in_fnodes.
    + destruct (forest_lookup _ F HF p IH) as (r' & ts & Hr' & Hch & Hsub).
      simplify_eq. apply Hsub. rewrite Hch in Hl. by apply roots_in_fnodes.
  - intros (t & Ht & Hl)%elem_of_fnodes. rewrite Forall_forall in HF.
    apply (repr_reach s t); [by apply HF| |done].
    apply (reach_top s (root <$> F)); [done|]. by apply list_elem_of_fmap_2.
Qed.


(** ** Indexing a built tree *)

Lemma repr_in_heap h t l : repr h t → l ∈ nodes t → is_Some (h !! l).
Proof.
  intros Hrep Hl. destruct (repr_lookup h t Hrep l Hl) as (r & _ & Hr & _). eauto.
Qed.

Lemma forest_in_heap h F l : Forall (repr h) F → l ∈ fnodes F → is_Some (h !! l).
Proof.
  intros HF Hl. destruct (forest_lookup h F HF l Hl) as (r & _ & Hr & _). eauto.
Qed.







Lemma NoDup_length_le_size (h : gmap loc Resource) ls :
  NoDup ls → (∀ x, x ∈ ls → is_Some (h !! x)) → length ls ≤ size h.
Proof.
  intros Hnd Hin.
  rewrite <- (size_dom (D:=gset loc) h), <- (size_list_to_set (C:=gset loc) ls) by done.
  apply subseteq_size. intros x Hx. apply elem_of_list_to_set in Hx.
  by apply elem_of_dom, Hin.
Qed.

(** ** Attaching an indexed tree *)

Lemma root_graft p t u : root (graft p t u) = root u.
Proof. by destruct u. Qed.

Lemma roots_graft p t (F : list tree) : root <$> (graft p t <$> F) = root <$> F.
Proof.
  rewrite <- list_fmap_compose. apply list_fmap_ext. intros _ u _. apply root_graft.
Qed.

Lemma graft_notin p t u : p ∉ nodes u → graft p t u = u.
Proof.
  induction u as [l ts IH] using tree_nested_ind. rewrite nodes_eq. intros Hp.
  apply not_elem_of_cons in Hp as [Hne Hp]. simpl.
  rewrite decide_False, app_nil_r by done. f_equal.
  rewrite <- (list_fmap_id ts) at 2. apply list_fmap_ext. intros i u Hu. simpl.
  rewrite Forall_forall in IH. apply list_elem_of_lookup_2 in Hu.
  apply IH; [done|]. intros Hin. apply Hp, elem_of_fnodes. eauto.
Qed.

Lemma graft_forest_notin p t (F : list tree) : p ∉ fnodes F → graft p t <$> F = F.
Proof.
  intros Hp. rewrite <- (list_fmap_id F) at 2. apply list_fmap_ext. intros i u Hu. simpl.
  apply list_elem_of_lookup_2 in Hu. apply graft_notin.
  intros Hin. apply Hp, elem_of_fnodes. eauto.
Qed.

Lemma fnodes_graft_forest p t (F : list tree) :
  Forall (fun u => NoDup (nodes u) → p ∈ nodes u →
                   nodes (graft p t u) ≡ₚ nodes u ++ nodes t) F →
  NoDup (fnodes F) → p ∈ fnodes F →
  fnodes (graft p t <$> F) ≡ₚ fnodes F ++ nodes t.
Proof.
  induction 1 as [|u F Hu _ IH]; intros Hnd Hp.
  { by apply elem_of_nil in Hp. }
  rewrite fmap_cons, !fnodes_cons. rewrite fnodes_cons in Hnd, Hp.
  apply NoDup_app in Hnd as (Hnd1 & Hdisj & Hnd2).
  destruct (decide (p ∈ nodes u)) as [Hin|Hnin].
  - rewrite (graft_forest_notin p t F) by (intros ?; by eapply Hdisj).
    rewrite (Hu Hnd1 Hin). rewrite <- !app_assoc. f_equiv. apply Permutation_app_comm.
  - apply elem_of_app in Hp as [?|Hp]; [done|].
    rewrite (graft_notin p t u) by done. rewrite (IH Hnd2 Hp). by rewrite app_assoc.
Qed.

Lemma nodes_graft p t u :
  NoDup (nodes u) → p ∈ nodes u → nodes (graft p t u) ≡ₚ nodes u ++ nodes t.
Proof.
  induction u as [l ts IH] using tree_nested_ind. rewrite nodes_eq. intros Hnd Hp.
  apply NoDup_cons in Hnd as [Hl Hnd]. simpl. fold (fnodes (graft p t <$> ts ++
    (if decide (l = p) then [t] else []))).
  rewrite fnodes_app. destruct (decide (l = p)) as [->|Hne].
  - rewrite (graft_forest_notin p t ts) by done.
    unfold fnodes at 2. simpl. by rewrite app_nil_r.
  - apply elem_of_cons in Hp as [?|Hp]; [done|].
    rewrite (fnodes_graft_forest p t ts IH Hnd Hp).
    unfold fnodes at 3. simpl. by rewrite app_nil_r.
Qed.

Lemma fnodes_graft p t (F : list tree) :
  NoDup (fnodes F) → p ∈ fnodes F →
  fnodes (graft p t <$> F) ≡ₚ fnodes F ++ nodes t.
Proof.
  apply fnodes_graft_forest, Forall_forall. intros u _. apply nodes_graft.
Qed.

(** The heap after [t] has been pushed on the children of [p]. *)
Lemma repr_graft h h' p t u :
  repr h u → repr h' t →
  (∀ l, l ≠ p → children <$> h' !! l = children <$> h !! l) →
  (children <$> h' !! p = (fun c => c ++ [root t]) <$> (children <$> h !! p)) →
  repr h' (graft p t u).
Proof.
  intros Hu Ht Hother Hp. induction u as [l ts IH] using tree_nested_ind.
  apply repr_inv in Hu as (r & Hr & Hch & Hts). simpl.
  assert (Hsub : Forall (repr h') (graft p t <$> ts)).
  { apply Forall_fmap. rewrite Forall_forall in IH, Hts. apply Forall_forall.
    intros u Hu. simpl. by apply IH, Hts. }
  destruct (decide (l = p)) as [->|Hne].
  - rewrite Hr in Hp. destruct (h' !! p) as [r'|] eqn:Hr'; [|done].
    simpl in Hp. simplify_eq. apply (repr_node h' p _ r'); [done| |].
    + rewrite fmap_app, roots_graft. simpl. congruence.
    + apply Forall_app. split; [done|]. by constructor.
  - specialize (Hother l Hne). rewrite Hr in Hother.
    destruct (h' !! l) as [r'|] eqn:Hr'; [|done].
    simpl in Hother. simplify_eq. apply (repr_node h' l _ r'); [done| |].
    + rewrite app_nil_r, roots_graft. congruence.
    + by rewrite app_nil_r.
Qed.





(** ** Pruning a forest *)

Lemma prune_forest_cons x t F :
  prune_forest x (t :: F) =
    (if decide (root t = x) then [] else [prune x t]) ++ prune_forest x F.
Proof. unfold prune_forest. simpl. by destruct (decide (root t = x)). Qed.

Lemma prune_forest_app x F G :
  prune_forest x (F ++ G) = prune_forest x F ++ prune_forest x G.
Proof. unfold prune_forest. apply omap_app. Qed.

Lemma prune_eq x l ts : prune x (Node l ts) = Node l (prune_forest x ts).
Proof. done. Qed.

Lemma prune_forest_notin_aux x F :
  Forall (fun u => x ∉ nodes u → prune x u = u) F →
  x ∉ fnodes F → prune_forest x F = F.
Proof.
  induction 1 as [|u F Hu _ IH]; intros Hx; [done|].
  rewrite fnodes_cons in Hx. apply not_elem_of_app in Hx as [Hxu HxF].
  rewrite prune_forest_cons, decide_False.
  - simpl. by rewrite Hu, IH.
  - intros <-. apply Hxu, root_in_nodes.
Qed.

Lemma prune_notin x u : x ∉ nodes u → prune x u = u.
Proof.
  induction u as [l ts IH] using tree_nested_ind. rewrite nodes_eq, prune_eq.
  intros [_ Hx]%not_elem_of_cons. f_equal. by apply prune_forest_notin_aux.
Qed.

Lemma prune_forest_notin x F : x ∉ fnodes F → prune_forest x F = F.
Proof.
  apply prune_forest_notin_aux, Forall_forall. intros u _. apply prune_notin.
Qed.

(** The subtree rooted at an object of the forest, and what is left. *)
Lemma prune_forest_perm_aux h x F :
  Forall (fun u => NoDup (nodes u) → x ∈ nodes u → root u ≠ x → repr h u →
            ∃ tx, root tx = x ∧ repr h tx
                  ∧ nodes u ≡ₚ nodes tx ++ nodes (prune x u)) F →
  NoDup (fnodes F) → x ∈ fnodes F → Forall (repr h) F →
  ∃ tx, root tx = x ∧ repr h tx
        ∧ fnodes F ≡ₚ nodes tx ++ fnodes (prune_forest x F).
Proof.
  induction 1 as [|u F Hu _ IH]; intros Hnd Hx HF.
  { by apply elem_of_nil in Hx. }
  rewrite fnodes_cons in Hnd, Hx. apply NoDup_app in Hnd as (Hnd1 & Hdisj & Hnd2).
  inversion HF as [|? ? Hrep HF']; subst.
  rewrite prune_forest_cons, fnodes_cons.
  destruct (decide (root u = x)) as [<-|Hne].
  - exists u. split_and!; [done|done|].
    rewrite prune_forest_notin; [done|].
    intros Hin. eapply Hdisj; [apply root_in_nodes|done].
  - destruct (decide (x ∈ nodes u)) as [Hin|Hnin].
    + destruct (Hu Hnd1 Hin Hne Hrep) as (tx & Hroot & Hreptx & Hperm).
      exists tx. split_and!; [done|done|].
      rewrite prune_forest_notin by (intros ?; by eapply Hdisj).
      rewrite fnodes_app. unfold fnodes at 2. simpl. rewrite app_nil_r.
      rewrite Hperm. by rewrite <- app_assoc.
    + apply elem_of_app in Hx as [?|Hx]; [done|].
      destruct (IH Hnd2 Hx HF') as (tx & Hroot & Hreptx & Hperm).
      exists tx. split_and!; [done|done|].
      rewrite fnodes_app. unfold fnodes at 2. simpl. rewrite app_nil_r.
      rewrite prune_notin by done. rewrite Hperm.
      rewrite !app_assoc. f_equiv. apply Permutation_app_comm.
Qed.

Lemma prune_perm h x u :
  NoDup (nodes u) → x ∈ nodes u → root u ≠ x → repr h u →
  ∃ tx, root tx = x ∧ repr h tx ∧ nodes u ≡ₚ nodes tx ++ nodes (prune x u).
Proof.
  induction u as [l ts IH] using tree_nested_ind. rewrite nodes_eq, prune_eq.
  intros Hnd Hx Hne Hrep. simpl in Hne.
  apply NoDup_cons in Hnd as [Hl Hnd].
  apply elem_of_cons in Hx as [?|Hx]; [done|].
  apply repr_inv in Hrep as (r & Hr & Hch & Hts).
  destruct (prune_forest_perm_aux h x ts IH Hnd Hx Hts) as (tx & Hroot & Hreptx & Hperm).
  exists tx. split_and!; [done|done|].
  rewrite nodes_eq, Hperm. apply Permutation_middle.
Qed.

Lemma prune_forest_perm h x F :
  NoDup (fnodes F) → x ∈ fnodes F → Forall (repr h) F →
  ∃ tx, root tx = x ∧ repr h tx
        ∧ fnodes F ≡ₚ nodes tx ++ fnodes (prune_forest x F).
Proof.
  apply prune_forest_perm_aux, Forall_forall. intros u _. apply prune_perm.
Qed.

(** ** Removing a tree from the index *)





(** ** Removing an object from the tree *)

Lemma readSiblings_children s p r :
  heap s !! p = Some r → readSiblings (ChildrenOf p) s = Ok (children r) s.
Proof. intros H. simpl. unfold bind, deref. by rewrite H. Qed.

Lemma readSiblings_children_inv s p arr s' :
  readSiblings (ChildrenOf p) s = Ok arr s' →
  s' = s ∧ ∃ r, heap s !! p = Some r ∧ children r = arr.
Proof.
  simpl. unfold bind, deref. destruct (heap s !! p) as [r|]; [|done].
  simpl. unfold ret. intros ?; simplify_eq. eauto.
Qed.

Lemma readSiblings_top_inv s arr s' :
  readSiblings TopLevel s = Ok arr s' → s' = s ∧ topLevelResources s = Some arr.
Proof.
  simpl. rewrite bind_get. destruct (topLevelResources s); [|done].
  unfold ret. intros ?; by simplify_eq.
Qed.

(** The loop over the siblings, given the recursive call on forests that
    fit in the fuel. *)
Lemma searchSiblings_forest x fuel :
  (∀ F siblings s, stored F siblings s → length (fnodes F) < fuel →
     search_ok x F siblings s (removeResourceFromTree fuel x siblings s)) →
  ∀ Frest Fdone siblings s,
    stored (Fdone ++ Frest) siblings s →
    length (fnodes (Fdone ++ Frest)) ≤ fuel →
    x ∉ fnodes Fdone →
    if decide (x ∈ fnodes Frest)
    then ∃ s', searchSiblings (removeResourceFromTree fuel x) x siblings
                 (length Fdone) (root <$> Frest) s = Ok true s'
               ∧ detached x (Fdone ++ Frest) siblings s s'
    else searchSiblings (removeResourceFromTree fuel x) x siblings
           (length Fdone) (root <$> Frest) s = Ok false s.
Proof.
  intros Hrec. induction Frest as [|t rest IH]; intros Fdone siblings s Hst Hlen Hdone.
  { rewrite decide_False; [done|]. by intros ?%elem_of_nil. }
  destruct Hst as (HF & Hnd & Hread & Howner).
  pose proof Hnd as Hnd0.
  rewrite fnodes_app, fnodes_cons in Hnd.
  apply NoDup_app in Hnd as (HndD & HdisjD & Hnd).
  apply NoDup_app in Hnd as (Hndt & Hdisjt & Hndr).
  pose proof HF as HF0.
  apply Forall_app in HF as [HFD HF]. inversion HF as [|? ? Ht HFr]; subst.
  destruct t as [l ts]. rewrite fmap_cons. cbn [searchSiblings root].
  destruct (decide (l = x)) as [->|Hne].
  - (* the sibling is the resource: it is spliced out *)
    rewrite bool_decide_eq_true_2 by done.
    rewrite decide_True by (rewrite fnodes_cons, nodes_eq; apply elem_of_app; left; left).
    assert (Hxr : x ∉ fnodes rest).
    { intros Hin. eapply Hdisjt; [|exact Hin]. rewrite nodes_eq. left. }
    assert (Hprune : prune_forest x (Fdone ++ Node x ts :: rest) = Fdone ++ rest).
    { rewrite prune_forest_app, prune_forest_cons. simpl. rewrite decide_True by done.
      simpl. by rewrite !prune_forest_notin. }
    assert (Hdel : delete (length Fdone) (root <$> (Fdone ++ Node x ts :: rest))
                   = root <$> (Fdone ++ rest)).
    { rewrite !fmap_app, fmap_cons. rewrite <- (length_fmap root Fdone).
      apply delete_middle. }
    assert (Hkeep : ∀ y, y ∈ fnodes (Fdone ++ rest) → y ≠ x).
    { intros y Hy ->. rewrite fnodes_app in Hy. apply elem_of_app in Hy as [?|?]; done. }
    rewrite bind_modify. destruct siblings as [|p].
    + apply readSiblings_top_inv in Hread as [_ Htop].
      eexists. split.
      { simpl. rewrite !bind_assoc, bind_get. simpl. rewrite Htop.
        rewrite bind_ret, bind_modify. reflexivity. }
      unfold detached. rewrite Hprune. simpl. split_and!.
      * rewrite bind_get. simpl. by rewrite Hdel.
      * rewrite Forall_forall. intros u Hu. apply (repr_frame (heap s)).
        { rewrite Forall_forall in HF0. apply HF0.
          apply elem_of_app in Hu as [?|?]; apply elem_of_app; [by left|right; by right]. }
        intros y Hy. rewrite lookup_alter_ne; [done|].
        intros <-. apply (Hkeep x); [|done]. apply elem_of_fnodes. eauto.
      * intros y Hy _. rewrite lookup_alter_ne; [done|].
        intros <-. apply Hy. rewrite fnodes_app, fnodes_cons, nodes_eq.
        apply elem_of_app. right. left.
      * intros y. destruct (decide (x = y)) as [->|?].
        -- rewrite lookup_alter_eq. by destruct (heap s !! y).
        -- by rewrite lookup_alter_ne.
      * intros y r' Hy. destruct (decide (x = y)) as [->|?].
        -- rewrite lookup_alter_eq in Hy. destruct (heap s !! y) as [r|]; [|done].
           simpl in Hy. simplify_eq. eauto.
        -- rewrite lookup_alter_ne in Hy by done. eauto.
      * done.
      * done.
      * done.
    + apply readSiblings_children_inv in Hread as (_ & rp & Hrp & Hchp).
      assert (Hpx : p ≠ x).
      { intros ->. apply (Howner x eq_refl). rewrite fnodes_app, fnodes_cons, nodes_eq.
        apply elem_of_app. right. left. }
      eexists. split; [reflexivity|].
      unfold detached. rewrite Hprune. simpl. split_and!.
      * unfold bind, deref. simpl.
        rewrite lookup_alter_eq, lookup_alter_ne, Hrp by done. simpl.
        unfold ret. by rewrite Hchp, Hdel.
      * rewrite Forall_forall. intros u Hu. apply (repr_frame (heap s)).
        { rewrite Forall_forall in HF0. apply HF0.
          apply elem_of_app in Hu as [?|?]; apply elem_of_app; [by left|right; by right]. }
        intros y Hy.
        assert (y ∈ fnodes (Fdone ++ rest)) as Hy' by (apply elem_of_fnodes; eauto).
        assert (x ≠ y) by (intros <-; by apply (Hkeep x)).
        assert (p ≠ y).
        { intros <-. apply (Howner p eq_refl).
          rewrite fnodes_app in Hy'. rewrite fnodes_app, fnodes_cons.
          apply elem_of_app in Hy' as [?|?]; apply elem_of_app; [by left|].
          right. apply elem_of_app. by right. }
        by rewrite !lookup_alter_ne.
      * intros y Hy Hsib.
        assert (x ≠ y).
        { intros <-. apply Hy. rewrite fnodes_app, fnodes_cons, nodes_eq.
          apply elem_of_app. right. left. }
        assert (p ≠ y) by congruence.
        by rewrite !lookup_alter_ne.
      * intros y. destruct (decide (p = y)) as [->|?].
        -- rewrite lookup_alter_eq, lookup_alter_ne by done. by destruct (heap s !! y).
        -- rewrite lookup_alter_ne by done. destruct (decide (x = y)) as [->|?].
           ++ rewrite lookup_alter_eq. by destruct (heap s !! y).
           ++ by rewrite lookup_alter_ne.
      * intros y r' Hy. destruct (decide (p = y)) as [->|?].
        -- rewrite lookup_alter_eq, lookup_alter_ne, Hrp in Hy by done.
           simpl in Hy. simplify_eq. eexists. split; [done|]. simpl.
           intros c Hc. by eapply list_elem_of_delete_inv.
        -- rewrite lookup_alter_ne in Hy by done. destruct (decide (x = y)) as [->|?].
           ++ rewrite lookup_alter_eq in Hy. destruct (heap s !! y) as [r|]; [|done].
              simpl in Hy. simplify_eq. eauto.
           ++ rewrite lookup_alter_ne in Hy by done. eauto.
      * done.
      * done.
      * done.
  - (* the sibling is another object: its children are searched *)
    rewrite bool_decide_eq_false_2 by done.
    apply repr_inv in Ht as (r & Hr & Hch & Hts).
    rewrite nodes_eq in Hndt. apply NoDup_cons in Hndt as [Hlts Hndts].
    assert (Hst' : stored ts (ChildrenOf l) s).
    { split_and!; [done|done| |].
      - rewrite <- Hch. by apply readSiblings_children.
      - by intros p [= <-]. }
    assert (Hlen' : length (fnodes ts) < fuel).
    { rewrite fnodes_app, fnodes_cons, nodes_eq, !length_app in Hlen. simpl in Hlen. lia. }
    pose proof (Hrec ts (ChildrenOf l) s Hst' Hlen') as Hsub. unfold search_ok in Hsub.
    destruct (decide (x ∈ fnodes ts)) as [Hin|Hnin].
    + destruct Hsub as (s' & E & Hd1 & Hd2 & Hd3 & Hd4 & Hd5 & Hd6 & Hd7 & Hd8).
      rewrite decide_True
        by (rewrite fnodes_cons, nodes_eq; apply elem_of_app; left; by right).
      exists s'. split; [by rewrite (bind_Ok _ _ _ _ _ E)|].
      assert (Hxr : x ∉ fnodes rest).
      { intros Hin'. eapply Hdisjt; [|exact Hin']. rewrite nodes_eq. by right. }
      assert (Hprune : prune_forest x (Fdone ++ Node l ts :: rest)
                       = Fdone ++ Node l (prune_forest x ts) :: rest).
      { rewrite prune_forest_app, prune_forest_cons. cbn [root].
        rewrite decide_False by done.
        rewrite !prune_forest_notin by done. reflexivity. }
      assert (Hout : ∀ y, y ∈ fnodes (Fdone ++ rest) → heap s' !! y = heap s !! y).
      { intros y Hy. apply Hd3.
        - intros Hyts. rewrite fnodes_app in Hy. apply elem_of_app in Hy as [Hy|Hy].
          + eapply HdisjD; [exact Hy|]. rewrite nodes_eq.
            apply elem_of_app. left. by right.
          + eapply Hdisjt; [|exact Hy]. rewrite nodes_eq. by right.
        - intros [= <-]. rewrite fnodes_app in Hy. apply elem_of_app in Hy as [Hy|Hy].
          + eapply HdisjD; [exact Hy|]. rewrite nodes_eq.
            apply elem_of_app. left. left.
          + eapply Hdisjt; [|exact Hy]. rewrite nodes_eq. left. }
      unfold detached. rewrite Hprune. split_and!.
      * assert (root <$> (Fdone ++ Node l (prune_forest x ts) :: rest)
                = root <$> (Fdone ++ Node l ts :: rest)) as ->
          by (by rewrite !fmap_app, !fmap_cons).
        destruct siblings as [|p].
        -- apply readSiblings_top_inv in Hread as [_ Htop].
           simpl. rewrite bind_get. rewrite Hd6 by done. by rewrite Htop.
        -- apply readSiblings_children_inv in Hread as (_ & rp & Hrp & Hchp).
           rewrite <- Hchp. apply readSiblings_children. rewrite <- Hrp. apply Hd3.
           ++ intros Hp. apply (Howner p eq_refl). rewrite fnodes_app, fnodes_cons, nodes_eq.
              apply elem_of_app. right. apply elem_of_app. left. by right.
           ++ intros [= ->]. apply (Howner p eq_refl).
              rewrite fnodes_app, fnodes_cons, nodes_eq.
              apply elem_of_app. right. left.
      * apply Forall_app. split; [|constructor].
        -- rewrite Forall_forall in HFD. apply Forall_forall. intros u Hu.
           apply (repr_frame (heap s)); [by apply HFD|]. intros y Hy.
           rewrite Hout; [done|]. rewrite fnodes_app. apply elem_of_app. left.
           apply elem_of_fnodes. eauto.
        -- apply readSiblings_children_inv in Hd1 as (_ & r' & Hr' & Hch').
           by apply (repr_node (heap s') l _ r').
        -- rewrite Forall_forall in HFr. apply Forall_forall. intros u Hu.
           apply (repr_frame (heap s)); [by apply HFr|]. intros y Hy.
           rewrite Hout; [done|]. rewrite fnodes_app. apply elem_of_app. right.
           apply elem_of_fnodes. eauto.
      * intros y Hy Hsib. apply Hd3.
        -- intros Hyts. apply Hy. rewrite fnodes_app, fnodes_cons, nodes_eq.
           apply elem_of_app. right. apply elem_of_app. left. by right.
        -- intros [= ->]. apply Hy. rewrite fnodes_app, fnodes_cons, nodes_eq.
           apply elem_of_app. right. left.
      * done.
      * done.
      * intros _. by apply Hd6.
      * done.
      * done.
    + assert (Hxt : x ∉ nodes (Node l ts)).
      { rewrite nodes_eq. apply not_elem_of_cons. split; [done|done]. }
      specialize (IH (Fdone ++ [Node l ts]) siblings s).
      rewrite <- !app_assoc in IH. simpl in IH.
      rewrite length_app in IH. simpl in IH. rewrite Nat.add_1_r in IH.
      assert (Hdone' : x ∉ fnodes (Fdone ++ [Node l ts])).
      { rewrite fnodes_app. apply not_elem_of_app. split; [done|].
        unfold fnodes. simpl. by rewrite app_nil_r. }
      specialize (IH ltac:(by split_and!) Hlen Hdone').
      destruct (decide (x ∈ fnodes rest)) as [Hr1|Hr1].
      * rewrite decide_True by (rewrite fnodes_cons; apply elem_of_app; by right).
        destruct IH as (s' & E & Hd). exists s'. split; [|done].
        by rewrite (bind_Ok _ _ _ _ _ Hsub).
      * rewrite decide_False.
        -- by rewrite (bind_Ok _ _ _ _ _ Hsub).
        -- rewrite fnodes_cons. apply not_elem_of_app. by split.
Qed.

(** [removeResourceFromTree] on a stored forest that fits in the fuel. *)
Lemma removeResourceFromTree_forest x fuel :
  ∀ F siblings s, stored F siblings s → length (fnodes F) < fuel →
    search_ok x F siblings s (removeResourceFromTree fuel x siblings s).
Proof.
  induction fuel as [|fuel IH]; intros F siblings s Hst Hlen; [lia|].
  pose proof Hst as (_ & _ & Hread & _).
  simpl. rewrite (bind_Ok _ _ _ _ _ Hread).
  pose proof (searchSiblings_forest x fuel IH F [] siblings s Hst ltac:(simpl; lia)
                ltac:(by intros ?%elem_of_nil)) as H.
  simpl in H. unfold search_ok. destruct (decide (x ∈ fnodes F)); [|done].
  destruct H as (s' & E & Hd). eauto.
Qed.

(** ** The invariant through the operations *)




(** The trees of a batch of built resources. *)
Lemma mapM_buildResource_trees inputs :
  ∀ s, ∃ s' ts, mapM buildResource inputs s = Ok (root <$> ts) s'
      ∧ (heap_closed s → heap_closed s')
      ∧ nextLoc s ≤ nextLoc s'
      ∧ (∀ l, l < nextLoc s → heap s' !! l = heap s !! l)
      ∧ Forall (repr (heap s')) ts ∧ NoDup (fnodes ts)
      ∧ (∀ l, l ∈ fnodes ts ↔ nextLoc s ≤ l < nextLoc s')
      ∧ Forall (fun t => parent <$> heap s' !! root t = Some None) ts.
Proof.
  induction inputs as [|i rest IH]; intros s.
  { exists s, []. split_and!; [done|done|lia|done|constructor|constructor| |constructor].
    intros l. split; [by intros ?%elem_of_nil|lia]. }
  destruct (buildResource_spec i s)
    as (s1 & E1 & Hcl1 & Hlt1 & Hfr1 & (k1 & Hroot1) & Hg1 & Htree1).
  destruct Htree1 as (t & Hroot & Hrep & Hnd & Hrange).
  destruct (IH s1) as (s' & ts & E & Hcl' & Hlt' & Hfr' & Hreps & Hnds & Hranges & Hpars).
  exists s', (t :: ts). split.
  { simpl. by rewrite (bind_Ok _ _ _ _ _ E1), (bind_Ok _ _ _ _ _ E), Hroot. }
  split_and!.
  - auto.
  - lia.
  - intros l Hl. rewrite Hfr' by lia. by apply Hfr1.
  - constructor; [|done]. apply (repr_frame (heap s1)); [done|].
    intros l Hl. apply Hrange in Hl. by rewrite Hfr' by lia.
  - rewrite fnodes_cons. apply NoDup_app. split_and!; [done| |done].
    intros l Hl1 Hl2. apply Hrange in Hl1. apply Hranges in Hl2. lia.
  - intros l. rewrite fnodes_cons, elem_of_app, Hrange, Hranges. lia.
  - constructor; [|done]. rewrite Hroot, Hfr' by lia. by rewrite Hroot1.
Qed.










Lemma addResource_resolved input callback s :
  resolved s → addResource input callback s = addClosure input callback s.
Proof.
  intros [Hi Hr]. unfold addResource. rewrite bind_get, Hi.
  unfold whenFetchingResolved. by rewrite bind_get, Hr.
Qed.











(** * Further properties of the manager *)

(** ** [buildResource] *)

Lemma foldr_size_cons (c : RawInput) cs :
  foldr (fun c n => inputSize c + n) 0 (c :: cs)
  = inputSize c + foldr (fun c n => inputSize c + n) 0 cs.
Proof. done. Qed.

Lemma mapM_buildChild_count resource cs :
  Forall (fun c => ∀ s, nextLoc (state_of (buildResource c s)) = nextLoc s + inputSize c
                      ∧ resourceGuid (state_of (buildResource c s))
                        = (resourceGuid s + anonymousCount c)%N) cs →
  ∀ t, nextLoc (state_of (mapM (buildChild resource) cs t))
       = nextLoc t + foldr (fun c n => inputSize c + n) 0 cs
     ∧ resourceGuid (state_of (mapM (buildChild resource) cs t))
       = (resourceGuid t + foldr (fun c n => anonymousCount c + n) 0 cs)%N.
Proof.
  induction 1 as [|c cs Hc _ IH]; intros t.
  { simpl. split; lia. }
  destruct (buildResource_spec c t) as (t1 & E1 & _).
  destruct (Hc t) as [Hn1 Hg1]. rewrite E1 in Hn1, Hg1. cbn [state_of] in Hn1, Hg1.
  set (t2 := set_heap (alter (set_parent (Some resource)) (nextLoc t)) t1).
  assert (Hstep : mapM (buildChild resource) (c :: cs) t
                  = (let* ys := mapM (buildChild resource) cs in ret (nextLoc t :: ys)) t2).
  { simpl. unfold buildChild at 1.
    by rewrite bind_assoc, (bind_Ok _ _ _ _ _ E1), bind_assoc, bind_modify, bind_ret. }
  rewrite Hstep. destruct (IH t2) as [Hn Hg].
  assert (Hn2 : nextLoc t2 = nextLoc t1) by done.
  assert (Hg2 : resourceGuid t2 = resourceGuid t1) by done.
  unfold bind. cbn [foldr].
  destruct (mapM (buildChild resource) cs t2) as [ys t'|e t'];
    cbn [state_of ret] in *; split; lia.
Qed.

Lemma buildResource_count input :
  ∀ s, nextLoc (state_of (buildResource input s)) = nextLoc s + inputSize input
     ∧ resourceGuid (state_of (buildResource input s))
       = (resourceGuid s + anonymousCount input)%N.
Proof.
  induction input as [rid rpid rch IH] using RawInput_nested_ind. intros s.
  set (s2 := state_of (assignId rid (set_nextLoc (S (nextLoc s)) s))).
  assert (Hrch : Forall (fun c => ∀ s, ∃ s', buildResource c s = Ok (nextLoc s) s'
                                            ∧ build_post c s s') rch).
  { apply Forall_forall. intros ? _. apply buildResource_spec. }
  destruct (mapM_buildChild_spec (nextLoc s) rch Hrch s2) as (t' & kids & E & _).
  destruct (mapM_buildChild_count (nextLoc s) rch IH s2) as [Hn Hg].
  rewrite E in Hn, Hg. cbn [state_of] in Hn, Hg.
  rewrite (buildResource_eval rid rpid rch s kids t' E). cbn [state_of].
  cbn [nextLoc resourceGuid set_heap]. rewrite Hn, Hg.
  unfold s2. destruct rid; simpl; split; lia.
Qed.

(** What [buildResource] leaves alone. *)
Lemma buildResource_keeps input s l s' :
  buildResource input s = Ok l s' →
  nextLoc s' = nextLoc s + inputSize input
  ∧ resourcesById s' = resourcesById s
  ∧ topLevelResources s' = topLevelResources s
  ∧ fetchState s' = fetchState s
  ∧ trace s' = trace s.
Proof.
  intros E. destruct (buildResource_count input s) as [Hn _]. rewrite E in Hn.
  split_and!; [done| | | |].
  - apply (preserves_Ok resourcesById _ _ _ _
             (buildResource_respects (same resourcesById) input
                ltac:(independent) ltac:(independent)) E).
  - apply (preserves_Ok topLevelResources _ _ _ _
             (buildResource_respects (same topLevelResources) input
                ltac:(independent) ltac:(independent)) E).
  - apply (preserves_Ok fetchState _ _ _ _
             (buildResource_respects (same fetchState) input
                ltac:(by split) ltac:(done)) E).
  - apply (preserves_Ok trace _ _ _ _
             (buildResource_respects (same trace) input
                ltac:(independent) ltac:(independent)) E).
Qed.

(** X1 — [buildResource] always returns normally with a new object.  It
    allocates exactly one object per input, nested ones included, and
    advances the static counter by exactly the number of inputs without
    identifier; it leaves every existing object, the index, the top-level
    list, the fetch state and the trace as they were. *)
Theorem buildResource_allocates input s :
  ∃ s', buildResource input s = Ok (nextLoc s) s'
    ∧ nextLoc s' = nextLoc s + inputSize input
    ∧ resourceGuid s' = (resourceGuid s + anonymousCount input)%N
    ∧ (∀ l, l < nextLoc s → heap s' !! l = heap s !! l)
    ∧ (∀ l, nextLoc s ≤ l < nextLoc s' → is_Some (heap s' !! l))
    ∧ resourcesById s' = resourcesById s
    ∧ topLevelResources s' = topLevelResources s
    ∧ fetchState s' = fetchState s
    ∧ trace s' = trace s.
Proof.
  destruct (buildResource_spec input s)
    as (s' & E & _ & _ & Hfr & _ & _ & t & _ & Hrep & _ & Hnodes).
  destruct (buildResource_count input s) as [Hn Hg]. rewrite E in Hn, Hg.
  destruct (buildResource_keeps input s _ _ E) as (_ & Hidx & Htop & Hfs & Htr).
  exists s'. split_and!; [done|done|done|done| |done|done|done|done].
  intros l Hl. apply (repr_in_heap _ t); [done|by apply Hnodes].
Qed.








(** ** [addResourceToIndex] *)



(** ** The forest under the top-level list, whatever the inputs *)

Lemma forest_inv_perm F P P' s : P ≡ₚ P' → forest_inv F P s → forest_inv F P' s.
Proof.
  intros HP (Hcl & Htop & HF & Hnd). split_and!; [done|done| |].
  - by rewrite <- HP.
  - unfold fnodes in *. by rewrite <- HP.
Qed.

Lemma forest_inv_drop F t P s : forest_inv F (t :: P) s → forest_inv F P s.
Proof.
  intros (Hcl & Htop & HF & Hnd). split_and!; [done|done| |].
  - apply Forall_app in HF as [HF HP]. apply Forall_app. split; [done|].
    by inversion HP.
  - rewrite fnodes_app, fnodes_cons in Hnd. rewrite fnodes_app.
    apply NoDup_app in Hnd as (H1 & H2 & H3). apply NoDup_app in H3 as (_ & _ & H3).
    apply NoDup_app. split_and!; [done| |done].
    intros x Hx1 Hx2. apply (H2 x Hx1). apply elem_of_app. by right.
Qed.

Lemma forest_inv_drop_all F P s : forest_inv F P s → forest_inv F [] s.
Proof. induction P as [|t P IH]; [done|]. intros H. by apply IH, (forest_inv_drop F t). Qed.

Lemma attach_frame_refl xs s : attach_frame xs s s.
Proof. by repeat split. Qed.

Lemma attach_frame_trans x xs s s1 s2 :
  attach_frame [x] s s1 → attach_frame xs s1 s2 → attach_frame (x :: xs) s s2.
Proof.
  intros (Hi1 & Hn1 & Ht1 & Hf1 & Hg1 & Hid1 & Hh1) (Hi2 & Hn2 & Ht2 & Hf2 & Hg2 & Hid2 & Hh2).
  split_and!; [congruence..| |].
  - intros l. by rewrite Hid2, Hid1.
  - intros l Hl Hni. rewrite Hh2, Hh1; [done| |done| |].
    + intros ->%list_elem_of_singleton. apply Hl. by left.
    + intros Hin. apply Hl. by right.
    + by rewrite Hi1.
Qed.

Lemma addResourceToTree_frame resource s b s' :
  addResourceToTree resource s = Ok b s' →
  resourcesById s' = resourcesById s ∧ nextLoc s' = nextLoc s ∧ trace s' = trace s
  ∧ fetchState s' = fetchState s ∧ resourceGuid s' = resourceGuid s.
Proof.
  intros E. unfold addResourceToTree, deref, bind at 1 in E.
  destruct (heap s !! resource) as [r|]; [|done].
  destruct (parent r); [by injection E as _ <-|].
  rewrite bind_get in E. destruct (parentIdOf r) as [pid|].
  - destruct (resourcesById s !! pid); [|by injection E as _ <-].
    unfold pushChild in E. rewrite !bind_modify in E. by injection E as _ <-.
  - destruct (topLevelResources s); [|done].
    rewrite bind_modify in E. by injection E as _ <-.
Qed.

(** One attachment, with no assumption on what the parent identifier
    names.  The resource is the root of the further tree [t]. *)
Lemma attach_any F P1 t P2 s :
  forest_inv F (P1 ++ t :: P2) s →
  ∃ b s' F' P', addResourceToTree (root t) s = Ok b s'
    ∧ forest_inv F' P' s'
    ∧ root <$> P' = root <$> (P1 ++ P2)
    ∧ (∀ y, y ∈ fnodes (F' ++ P') → y ∈ fnodes (F ++ P1 ++ t :: P2))
    ∧ (∀ y, y ∈ root <$> F' → y ∈ root <$> F ∨ y = root t)
    ∧ (∀ y, y ∈ fnodes F → y ∈ fnodes F')
    ∧ attach_frame [root t] s s'.
Proof.
  intros Hinv0.
  assert (Hsubset : ∀ y, y ∈ fnodes (F ++ t :: P1 ++ P2) → y ∈ fnodes (F ++ P1 ++ t :: P2)).
  { intros y. rewrite !fnodes_app, !fnodes_cons, !elem_of_app, fnodes_app, !elem_of_app. tauto. }
  assert (Hinv : forest_inv F (t :: P1 ++ P2) s).
  { apply (forest_inv_perm F (P1 ++ t :: P2)); [|done]. by rewrite Permutation_middle. }
  clear Hinv0. set (P := P1 ++ P2) in *.
  pose proof Hinv as (Hcl & Htop & HF & Hnd).
  assert (Hdrop : forest_inv F P s) by by apply (forest_inv_drop F t).
  assert (Hsub0 : ∀ y, y ∈ fnodes (F ++ P) → y ∈ fnodes (F ++ P1 ++ t :: P2)).
  { intros y Hy. apply Hsubset. rewrite fnodes_app, fnodes_cons, !elem_of_app.
    rewrite fnodes_app, elem_of_app in Hy. tauto. }
  apply Forall_app in HF as [HF HtP]. inversion HtP as [|? ? Ht HP]; subst.
  destruct (repr_in_heap _ t (root t) Ht (root_in_nodes t)) as [r Hr].
  destruct (addResourceToTree_total s (root t) Hcl ltac:(eauto) ltac:(eauto))
    as (b & s' & E & Hcl' & _ & _).
  exists b, s'.
  destruct (addResourceToTree_frame _ _ _ _ E) as (Hi & Hn & Htr & Hfs & Hg).
  pose proof E as E0.
  (* nothing happens *)
  assert (Hnoop : s' = s → ∃ F' P', True
            ∧ forest_inv F' P' s' ∧ root <$> P' = root <$> P
            ∧ (∀ y, y ∈ fnodes (F' ++ P') → y ∈ fnodes (F ++ P1 ++ t :: P2))
            ∧ (∀ y, y ∈ root <$> F' → y ∈ root <$> F ∨ y = root t)
            ∧ (∀ y, y ∈ fnodes F → y ∈ fnodes F')
            ∧ attach_frame [root t] s s').
  { intros ->. exists F, P. split_and!; [done|done|done|done|by left|done|].
    apply attach_frame_refl. }
  destruct (parent r) as [p0|] eqn:Hp.
  { rewrite (addResourceToTree_placed s (root t) r) in E by eauto.
    injection E as <- <-. destruct (Hnoop eq_refl) as (F' & P' & _ & H).
    exists F', P'. by split. }
  destruct (parentIdOf r) as [pid|] eqn:Hpid; cycle 1.
  { (* appended to the top-level list *)
    rewrite (addResourceToTree_top s (root t) r _ Hr Hp Hpid Htop) in E.
    injection E as <- <-. exists (F ++ [t]), P. split; [done|]. split_and!.
    - split_and!; [done|simpl; by rewrite fmap_app| |].
      + simpl. rewrite <- app_assoc. apply Forall_app. split; [done|]. by constructor.
      + by rewrite <- app_assoc.
    - done.
    - intros y Hy. apply Hsubset. by rewrite <- app_assoc in Hy.
    - intros y. rewrite fmap_app, elem_of_app. simpl.
      rewrite list_elem_of_singleton. tauto.
    - intros y Hy. rewrite fnodes_app. apply elem_of_app. by left.
    - split_and!; done. }
  destruct (resourcesById s !! pid) as [p|] eqn:Hidx; cycle 1.
  { rewrite (addResourceToTree_orphan s (root t) r pid) in E by done.
    injection E as <- <-. destruct (Hnoop eq_refl) as (F' & P' & _ & H).
    exists F', P'. by split. }
  (* attached under [p] *)
  rewrite (addResourceToTree_child s (root t) r pid p) in E by done.
  injection E as <- <-. cbn [heap set_heap] in *.
  set (h' := alter (fun rp => set_children (children rp ++ [root t]) rp) p
               (alter (set_parent (Some p)) (root t) (heap s))) in *.
  rewrite fnodes_app, fnodes_cons in Hnd.
  assert (HndG : NoDup (fnodes (F ++ P))).
  { rewrite fnodes_app. apply NoDup_app in Hnd as (H1 & H2 & H3).
    apply NoDup_app in H3 as (_ & _ & H3). apply NoDup_app. split_and!; [done| |done].
    intros x Hx1 Hx2. apply (H2 x Hx1). apply elem_of_app. by right. }
  assert (Hdisj : ∀ x, x ∈ nodes t → x ∉ fnodes (F ++ P)).
  { intros x Hx. rewrite fnodes_app. intros [HxF|HxP]%elem_of_app.
    - apply NoDup_app in Hnd as (_ & H2 & _). apply (H2 x HxF). apply elem_of_app. by left.
    - apply NoDup_app in Hnd as (_ & _ & H3). apply NoDup_app in H3 as (_ & H3 & _).
      by apply (H3 x Hx). }
  assert (Hids : ∀ l, id <$> h' !! l = id <$> heap s !! l).
  { intros l. unfold h'. destruct (decide (p = l)) as [<-|?].
    - rewrite lookup_alter_eq. destruct (decide (root t = p)) as [<-|?].
      + rewrite lookup_alter_eq. by destruct (heap s !! root t).
      + rewrite lookup_alter_ne by done. by destruct (heap s !! p).
    - rewrite lookup_alter_ne by done. destruct (decide (root t = l)) as [<-|?].
      + rewrite lookup_alter_eq. by destruct (heap s !! root t).
      + by rewrite lookup_alter_ne. }
  assert (Hother : ∀ l, l ≠ p → children <$> h' !! l = children <$> heap s !! l).
  { intros l Hl. unfold h'. rewrite lookup_alter_ne by done.
    destruct (decide (root t = l)) as [<-|?].
    - rewrite lookup_alter_eq. by destruct (heap s !! root t).
    - by rewrite lookup_alter_ne. }
  assert (Hframe : attach_frame [root t] s
            (set_heap (fun _ => h') s)).
  { split_and!; try done. intros l Hl Hni. unfold h'. simpl.
    rewrite !lookup_alter_ne; [done| |].
    - intros <-. apply Hl. by left.
    - intros <-. by apply (Hni pid). }
  assert (Hstate : set_heap (alter (fun rp => set_children (children rp ++ [root t]) rp) p)
                     (set_heap (alter (set_parent (Some p)) (root t)) s)
                   = set_heap (fun _ => h') s) by done.
  rewrite Hstate in *. clear Hstate.
  destruct (decide (p ∈ fnodes (F ++ P))) as [HpG|HpG].
  - (* the parent is an object of the forests: the tree is grafted there *)
    assert (Hpt : p ∉ nodes t) by (intros Hin; by apply (Hdisj p)).
    assert (Hatp : children <$> h' !! p
                   = (fun c => c ++ [root t]) <$> (children <$> heap s !! p)).
    { unfold h'. rewrite lookup_alter_eq, lookup_alter_ne.
      - by destruct (heap s !! p).
      - intros Heq. apply Hpt. rewrite <- Heq. apply root_in_nodes. }
    assert (Ht' : repr h' t).
    { apply (repr_frame (heap s)); [done|]. intros l Hl. apply Hother. by intros ->. }
    assert (Hperm : fnodes (graft p t <$> (F ++ P)) ≡ₚ fnodes (F ++ P) ++ nodes t)
      by by apply fnodes_graft.
    exists (graft p t <$> F), (graft p t <$> P). split; [done|]. split_and!.
    + split_and!; [done|cbn [topLevelResources set_heap]; by rewrite roots_graft| |].
      * cbn [heap set_heap]. rewrite <- fmap_app. apply Forall_fmap, Forall_forall.
        intros u Hu. simpl. apply (repr_graft (heap s)); [|done|done|done].
        assert (HG : Forall (repr (heap s)) (F ++ P)) by (apply Forall_app; by split).
        rewrite Forall_forall in HG. by apply HG.
      * rewrite <- fmap_app, Hperm. apply NoDup_app. split_and!; [done| |].
        -- intros x Hx1 Hx2. by apply (Hdisj x).
        -- apply NoDup_app in Hnd as (_ & _ & H3). by apply NoDup_app in H3 as (H3 & _ & _).
    + apply roots_graft.
    + intros y. rewrite <- fmap_app, Hperm. intros [Hy|Hy]%elem_of_app; [by apply Hsub0|].
      apply Hsubset. rewrite fnodes_app, fnodes_cons, !elem_of_app. tauto.
    + intros y. rewrite roots_graft. by left.
    + intros y Hy. destruct (decide (p ∈ fnodes F)) as [HpF|HpF].
      * assert (HndF : NoDup (fnodes F)).
        { rewrite fnodes_app in HndG. by apply NoDup_app in HndG as (? & _ & _). }
        rewrite (fnodes_graft p t F HndF HpF). apply elem_of_app. by left.
      * by rewrite (graft_forest_notin p t F HpF).
    + done.
  - (* the parent is elsewhere: the forests are as before *)
    exists F, P. split; [done|]. split_and!; [|done|done|by left|done|done].
    split_and!; [done|done| |done].
    cbn [heap set_heap].
    assert (HG : Forall (repr (heap s)) (F ++ P)) by (apply Forall_app; by split).
    rewrite Forall_forall in HG. apply Forall_forall. intros u Hu.
    apply (repr_frame (heap s)); [by apply HG|]. intros l Hl. apply Hother.
    intros ->. apply HpG, elem_of_fnodes. eauto.
Qed.

(** The attachments of [setResources] and [addResource], one after the
    other: each resource is the root of one of the further trees. *)
Lemma attachAll_any rest :
  ∀ F P s, forest_inv F P s → NoDup rest → (∀ x, x ∈ rest → x ∈ root <$> P) →
    ∃ s' F' P',
      forEach rest (fun resource => let* _ := addResourceToTree resource in ret tt) s
        = Ok tt s'
      ∧ forest_inv F' P' s'
      ∧ (∀ y, y ∈ fnodes (F' ++ P') → y ∈ fnodes (F ++ P))
      ∧ (∀ y, y ∈ root <$> F' → y ∈ root <$> F ∨ y ∈ rest)
      ∧ (∀ y, y ∈ fnodes F → y ∈ fnodes F')
      ∧ attach_frame rest s s'.
Proof.
  induction rest as [|x rest IH]; intros F P s Hinv Hnd Hroots.
  { exists s, F, P. split_and!; [done|done|done|by left|done|apply attach_frame_refl]. }
  apply NoDup_cons in Hnd as [Hx Hnd].
  pose proof (Hroots x ltac:(by left)) as Hxt.
  apply list_elem_of_fmap in Hxt as (t & -> & Ht).
  apply list_elem_of_split in Ht as (P1 & P2 & ->).
  destruct (attach_any F P1 t P2 s Hinv)
    as (b & s1 & F1 & Q & E1 & Hinv1 & HrootsQ & Hsub1 & Htop1 & Hmono1 & Hfr1).
  destruct (IH F1 Q s1 Hinv1 Hnd) as (s' & F' & P' & E & Hinv' & Hsub & Htop & Hmono & Hfr).
  { intros y Hy. rewrite HrootsQ.
    pose proof (Hroots y ltac:(by right)) as Hin.
    rewrite fmap_app, fmap_cons, elem_of_app, elem_of_cons in Hin.
    rewrite fmap_app, elem_of_app. destruct Hin as [?|[Heq|?]]; [by left|by subst|by right]. }
  exists s', F', P'. split_and!.
  - simpl. by rewrite bind_assoc, (bind_Ok _ _ _ _ _ E1), bind_ret.
  - done.
  - auto.
  - intros y Hy. destruct (Htop y Hy) as [Hy1|Hy1]; [|right; by right].
    destruct (Htop1 y Hy1) as [?|Heq]; [by left|right; subst; by left].
  - auto.
  - by apply (attach_frame_trans _ _ _ s1).
Qed.

(** The first loop of [setResources], with no assumption on the
    identifiers: the accepted resources are some of the given ones, in the
    same order, and every new entry files an object under its identifier. *)
Lemma indexAll_any fuel resources (X : loc → Prop) :
  ∀ s, heap_closed s →
    Forall (fun l => is_Some (heap s !! l)) resources →
    unindexed (heap s) (resourcesById s) < fuel →
    (∀ l, l ∈ resources → X l) →
    (∀ x rx c, X x → heap s !! x = Some rx → c ∈ children rx → X c) →
    ∃ valid m', indexAll fuel resources s =
                  Ok valid (set_resourcesById (fun _ => m') s)
      ∧ valid `sublist_of` resources
      ∧ resourcesById s ⊆ m'
      ∧ ∀ i v, m' !! i = Some v →
          resourcesById s !! i = Some v ∨ (X v ∧ id <$> heap s !! v = Some i).
Proof.
  induction resources as [|l rest IH]; intros s Hcl Hin Hfuel HX Hclosed.
  { exists [], (resourcesById s). simpl. unfold ret. rewrite set_resourcesById_id.
    split_and!; [done|done|done|]. intros i v Hv. by left. }
  inversion Hin as [|? ? [r Hr] Hrest]; subst.
  destruct (addResourceToIndex_total fuel s l r Hcl Hr Hfuel)
    as (m1 & E1 & Hsub1 & _ & Hkeys1).
  destruct (IH (set_resourcesById (fun _ => m1) s))
    as (valid & m' & E & Hsl & Hsub & Hkeys).
  - done.
  - done.
  - simpl. pose proof (unindexed_mono (heap s) _ _ Hsub1). lia.
  - intros l' Hl'. apply HX. by right.
  - done.
  - simpl in *. eexists _, m'. split_and!.
    + rewrite (bind_Ok _ _ _ _ _ E1), (bind_Ok _ _ _ _ _ E). reflexivity.
    + destruct (bool_decide _); [by apply sublist_skip|by apply sublist_cons].
    + by etrans.
    + intros i v Hv. destruct (Hkeys i v Hv) as [Hv1|Hnew]; [|by right].
      destruct (Hkeys1 X (HX l ltac:(by left)) Hclosed i v Hv1)
        as [Hold|(Hx & rv & Hrv & Hid)]; [by left|right].
      split; [done|]. by rewrite Hrv; simpl; rewrite Hid.
Qed.

Lemma NoDup_roots F : NoDup (fnodes F) → NoDup (root <$> F).
Proof.
  induction F as [|t F IH]; [constructor|].
  rewrite fnodes_cons, fmap_cons. intros (H1 & H2 & H3)%NoDup_app.
  apply NoDup_cons. split; [|by apply IH].
  intros Hin%roots_in_fnodes. by apply (H2 (root t) (root_in_nodes t)).
Qed.

Lemma forest_inv_frame F P s s' :
  heap s' = heap s → nextLoc s' = nextLoc s →
  topLevelResources s' = topLevelResources s →
  forest_inv F P s → forest_inv F P s'.
Proof.
  intros Hh Hn Ht (Hcl & Htop & HF & Hnd). unfold forest_inv.
  rewrite Hh, Ht. split_and!; try done. by apply (heap_closed_frame s).
Qed.

Lemma index_sound_frame s s' :
  (∀ l, id <$> heap s' !! l = id <$> heap s !! l) →
  resourcesById s' = resourcesById s →
  index_sound s → index_sound s'.
Proof. intros Hid Hi H i l. rewrite Hi, Hid. apply H. Qed.

Lemma forest_below F P s l : forest_inv F P s → l ∈ fnodes (F ++ P) → l < nextLoc s.
Proof.
  intros (Hcl & _ & HF & _) Hl.
  destruct (forest_in_heap _ _ l HF Hl) as [r Hr]. by apply (Hcl l r).
Qed.

(** [setResources], whatever the inputs: it returns normally from every
    closed heap and leaves a forest under the top-level list and a sound
    index, both made of objects built by this call. *)
Lemma setResources_any inputs s :
  heap_closed s →
  ∃ s' F, setResources inputs s = Ok tt s'
    ∧ forest_inv F [] s' ∧ index_sound s'
    ∧ (∀ i l, resourcesById s' !! i = Some l → nextLoc s ≤ l < nextLoc s')
    ∧ (∀ l, l ∈ fnodes F → nextLoc s ≤ l < nextLoc s')
    ∧ (∀ l, l < nextLoc s → heap s' !! l = heap s !! l)
    ∧ fetchState s' = fetchState s
    ∧ trace s' = trace s ++
        [ (if bool_decide (is_Some (topLevelResources s))
           then Trigger_reset (topLevelResources s')
           else Trigger_set (topLevelResources s'));
          PubliclyTrigger_resourcesSet (topLevelResources s') ].
Proof.
  intros Hcl.
  set (sa := set_resourcesById (fun _ => ∅) (set_topLevelResources (Some []) s)).
  assert (Hcla : heap_closed sa) by by apply (heap_closed_frame s).
  destruct (mapM_buildResource_trees inputs sa)
    as (sb & ts & Eb & Hclb & Hltb & Hfrb & Hreps & Hnds & Hranges & _).
  specialize (Hclb Hcla).
  assert (Htopb : topLevelResources sb = Some []).
  { apply (preserves_Ok topLevelResources _ _ _ _
             (buildResources_respects (same topLevelResources) inputs
                ltac:(independent) ltac:(independent))) in Eb. done. }
  assert (Htrb : trace sb = trace s).
  { apply (preserves_Ok trace _ _ _ _
             (buildResources_respects (same trace) inputs
                ltac:(independent) ltac:(independent))) in Eb. done. }
  assert (Hfsb : fetchState sb = fetchState s).
  { apply (preserves_Ok fetchState _ _ _ _
             (buildResources_respects (same fetchState) inputs
                ltac:(by split) ltac:(done))) in Eb. done. }
  assert (Hidxb : resourcesById sb = ∅).
  { apply (preserves_Ok resourcesById _ _ _ _
             (buildResources_respects (same resourcesById) inputs
                ltac:(independent) ltac:(independent))) in Eb. done. }
  destruct (indexAll_any (stackFuel sb) (root <$> ts) (fun x => x ∈ fnodes ts) sb Hclb)
    as (valid & m' & Ec & Hsl & _ & Hkeys).
  { apply Forall_forall. intros l Hl. apply (forest_in_heap _ ts); [done|].
    by apply roots_in_fnodes. }
  { unfold stackFuel. pose proof (unindexed_le_size (heap sb) (resourcesById sb)). lia. }
  { intros l. apply roots_in_fnodes. }
  { intros x rx c Hx Hrx Hc.
    destruct (forest_lookup _ _ Hreps x Hx) as (r' & ts' & Hr' & Hch & Hin).
    simplify_eq. apply Hin, roots_in_fnodes. by rewrite <- Hch. }
  set (sc := set_resourcesById (fun _ => m') sb) in *.
  assert (Hinvc : forest_inv [] ts sc).
  { split_and!; [by apply (heap_closed_frame sb)|done|done|done]. }
  destruct (attachAll_any valid [] ts sc Hinvc)
    as (sd & F & P & Ed & Hinvd & Hsubd & _ & _ & Hfrd).
  { apply (sublist_NoDup _ (root <$> ts)); [by apply NoDup_roots|done]. }
  { intros x Hx. by apply (sublist_subseteq _ _ Hsl). }
  destruct Hfrd as (Hid & Hnd & Htrd & Hfsd & _ & Hids & Hhd).
  assert (Hnew : ∀ i v, m' !! i = Some v → v ∈ fnodes ts ∧ id <$> heap sb !! v = Some i).
  { intros i v Hv. destruct (Hkeys i v Hv) as [Hold|?]; [|done].
    rewrite Hidxb in Hold. by rewrite lookup_empty in Hold. }
  exists (emit (PubliclyTrigger_resourcesSet (topLevelResources sd))
            (emit (if bool_decide (is_Some (topLevelResources s))
                   then Trigger_reset (topLevelResources sd)
                   else Trigger_set (topLevelResources sd)) sd)), F.
  split.
  { unfold setResources. rewrite bind_get.
    assert (Ea : initializeCache s = Ok tt sa) by done.
    rewrite (bind_Ok _ _ _ _ _ Ea), (bind_Ok _ _ _ _ _ Eb), bind_get.
    rewrite (bind_Ok _ _ _ _ _ Ec), (bind_Ok _ _ _ _ _ Ed), bind_get, bind_modify.
    reflexivity. }
  cbn [heap nextLoc resourcesById topLevelResources trace emit emits].
  split_and!.
  - apply (forest_inv_frame F [] sd); [done..|]. by apply (forest_inv_drop_all F P).
  - intros i l. cbn [resourcesById heap emit emits]. rewrite Hid. intros Hl.
    destruct (Hnew i l Hl) as [_ Hil]. by rewrite Hids.
  - intros i l. rewrite Hid. intros Hl. destruct (Hnew i l Hl) as [Hin _].
    rewrite Hnd. by apply Hranges.
  - intros l Hl. rewrite Hnd. apply Hranges. apply (Hsubd l).
    rewrite fnodes_app. apply elem_of_app. by left.
  - intros l Hl. rewrite Hhd.
    + simpl. rewrite Hfrb by done. done.
    + intros Hin. apply (sublist_subseteq _ _ Hsl), roots_in_fnodes, Hranges in Hin.
      simpl in Hin. lia.
    + intros i Hi. apply Hnew in Hi as [Hin _]. apply Hranges in Hin. simpl in Hin. lia.
  - unfold fetchState in *. simpl. by rewrite Hfsd.
  - rewrite Htrd. simpl. rewrite Htrb, <- app_assoc. done.
Qed.

(** The closure of [addResource], whatever the input: it returns normally
    and keeps the forest and the sound index. *)
Lemma addClosure_any input callback F s :
  forest_inv F [] s → index_sound s →
  ∃ s' F', addClosure input callback s = Ok tt s'
    ∧ forest_inv F' [] s' ∧ index_sound s'
    ∧ (∀ y, y ∈ fnodes F → y ∈ fnodes F')
    ∧ (∀ y, y ∈ fnodes F' → y ∈ fnodes F ∨ nextLoc s ≤ y)
    ∧ (∀ i v, resourcesById s !! i = Some v → resourcesById s' !! i = Some v)
    ∧ fetchState s' = fetchState s
    ∧ trace s' = trace s ++
        (if bool_decide (resourcesById s !! builtIdent input s = None)
         then Trigger_add (nextLoc s) (topLevelResources s') ::
              match callback with Some n => [CallWithResource n (nextLoc s)] | None => [] end
         else []).
Proof.
  intros Hinv Hsound. pose proof Hinv as (Hcl & Htop & HF & HndF).
  rewrite app_nil_r in *.
  destruct (buildResource_spec input s)
    as (s1 & E1 & Hcl1 & Hlt1 & Hfr1 & (kids & Hroot1) & Hg1 & Htree).
  destruct Htree as (t & Hroot & Hrep & Hnd & Hrange).
  specialize (Hcl1 Hcl).
  assert (Hidx1 : resourcesById s1 = resourcesById s).
  { apply (preserves_Ok resourcesById _ _ _ _
             (buildResource_respects (same resourcesById) input
                ltac:(independent) ltac:(independent)) E1). }
  assert (Htop1 : topLevelResources s1 = topLevelResources s).
  { apply (preserves_Ok topLevelResources _ _ _ _
             (buildResource_respects (same topLevelResources) input
                ltac:(independent) ltac:(independent)) E1). }
  assert (Htr1 : trace s1 = trace s).
  { apply (preserves_Ok trace _ _ _ _
             (buildResource_respects (same trace) input
                ltac:(independent) ltac:(independent)) E1). }
  assert (Hfs1 : fetchState s1 = fetchState s).
  { apply (preserves_Ok fetchState _ _ _ _
             (buildResource_respects (same fetchState) input
                ltac:(by split) ltac:(done)) E1). }
  assert (Hold : ∀ l, l ∈ fnodes F → l < nextLoc s).
  { intros l Hl. apply (forest_below F [] s); [done|]. by rewrite app_nil_r. }
  destruct (addResourceToIndex_total (stackFuel s1) s1 (nextLoc s) _ Hcl1 Hroot1)
    as (m' & E2 & Hsub & Hm' & Hkeys).
  { unfold stackFuel. pose proof (unindexed_le_size (heap s1) (resourcesById s1)). lia. }
  cbn [id] in E2, Hm'. rewrite Hidx1 in E2, Hm', Hkeys, Hsub.
  set (s2 := set_resourcesById (fun _ => m') s1) in *.
  assert (Hinv2 : forest_inv F [t] s2).
  { split_and!.
    - by apply (heap_closed_frame s1).
    - simpl. by rewrite Htop1.
    - apply Forall_app. split; [|by constructor].
      rewrite Forall_forall in HF. apply Forall_forall. intros u Hu.
      apply (repr_frame (heap s)); [by apply HF|]. intros l Hl. simpl.
      rewrite Hfr1; [done|]. apply Hold, elem_of_fnodes. eauto.
    - rewrite fnodes_app. apply NoDup_app. split_and!; [done| |].
      + intros l Hl1 Hl2. apply Hold in Hl1. unfold fnodes in Hl2. simpl in Hl2.
        rewrite app_nil_r in Hl2. apply Hrange in Hl2. lia.
      + unfold fnodes. simpl. by rewrite app_nil_r. }
  assert (Hsound2 : index_sound s2).
  { intros i v Hv. simpl in *.
    destruct (Hkeys (fun x => True) I (fun _ _ _ _ _ _ => I) i v Hv)
      as [Hv0|(_ & rv & Hrv & Hid)].
    - pose proof (Hsound i v Hv0) as Hs.
      destruct (heap s !! v) as [r0|] eqn:Hr0; [|done].
      destruct (Hcl v r0 Hr0) as [Hlt _]. by rewrite Hfr1, Hr0.
    - by rewrite Hrv; simpl; rewrite Hid. }
  assert (Hstart : ∀ o, (let* ok := ret (bool_decide (resourcesById s !! builtIdent input s = None)) in
                         if ok : bool then
                           let* _ := addResourceToTree (nextLoc s) in
                           let* s' := get in
                           let* _ := modify (emit (Trigger_add (nextLoc s) (topLevelResources s'))) in
                           match callback with
                           | Some n => modify (emit (CallWithResource n (nextLoc s)))
                           | None => ret tt
                           end
                         else ret tt) s2 = o →
            addClosure input callback s = o).
  { intros o <-. unfold addClosure. rewrite (bind_Ok _ _ _ _ _ E1), bind_get.
    by rewrite (bind_Ok _ _ _ _ _ E2), bind_ret. }
  destruct (bool_decide (resourcesById s !! builtIdent input s = None)) eqn:Hfree.
  - destruct (attach_any F [] t [] s2 Hinv2)
      as (b & s3 & F' & Q & E3 & Hinv3 & _ & Hsub3 & _ & Hmono & Hfr3).
    rewrite Hroot in E3, Hfr3.
    destruct Hfr3 as (Hi3 & Hn3 & Htr3 & Hfs3 & _ & Hids3 & _).
    set (es := Trigger_add (nextLoc s) (topLevelResources s3) ::
               match callback with Some n => [CallWithResource n (nextLoc s)] | None => [] end).
    exists (emits es s3), F'. split.
    { apply Hstart. rewrite bind_ret, (bind_Ok _ _ _ _ _ E3), bind_get, bind_modify.
      unfold es. destruct callback; unfold modify, ret, emit; by rewrite ?emits_emits. }
    cbn [heap nextLoc resourcesById topLevelResources trace emits].
    split_and!.
    + apply (forest_inv_frame F' [] s3); [done..|]. by apply (forest_inv_drop_all F' Q).
    + apply (index_sound_frame s3); [done|done|].
      by apply (index_sound_frame s2).
    + done.
    + intros y Hy. specialize (Hsub3 y).
      rewrite !fnodes_app, !elem_of_app in Hsub3. cbn [app] in Hsub3.
      rewrite fnodes_cons, elem_of_app in Hsub3.
      destruct (Hsub3 (or_introl Hy)) as [?|[Hyt|[Hyt|Hyt]]];
        [by left|by apply elem_of_nil in Hyt| |by apply elem_of_nil in Hyt].
      right. by apply Hrange in Hyt as [? _].
    + intros i v Hv. rewrite Hi3. simpl. by eapply lookup_weaken.
    + unfold fetchState in *. simpl. by rewrite Hfs3.
    + by rewrite Htr3; simpl; rewrite Htr1.
  - exists s2, F. split; [by apply Hstart|]. split_and!.
    + by apply (forest_inv_drop F t).
    + done.
    + done.
    + intros y Hy. by left.
    + intros i v Hv. simpl. by eapply lookup_weaken.
    + done.
    + simpl. by rewrite Htr1, app_nil_r.
Qed.

Lemma index_sound_closed s : index_sound s → index_closed s.
Proof.
  intros H i l Hl. specialize (H i l Hl). by destruct (heap s !! l); [eexists|].
Qed.

(** The closure of [removeResource], whatever the identifier: it returns
    normally and keeps the forest and the sound index. *)
Lemma removeClosure_any rid F s :
  forest_inv F [] s → index_sound s →
  ∃ s' F', removeClosure rid s = Ok tt s'
    ∧ forest_inv F' [] s' ∧ index_sound s'
    ∧ (∀ y, y ∈ fnodes F' → y ∈ fnodes F)
    ∧ (∀ i v, resourcesById s' !! i = Some v → resourcesById s !! i = Some v)
    ∧ resourcesById s' !! rid = None
    ∧ nextLoc s' = nextLoc s
    ∧ fetchState s' = fetchState s
    ∧ trace s' = trace s ++
        match resourcesById s !! rid with
        | Some x => [Trigger_remove x (topLevelResources s')]
        | None => []
        end.
Proof.
  intros Hinv Hsound. pose proof Hinv as (Hcl & Htop & HF & HndF).
  rewrite app_nil_r in *.
  destruct (removeResourceFromIndex_spec (indexFuel s) s rid Hcl
              (index_sound_closed s Hsound))
    as (m' & E1 & [Hsub _] & Hnone & _); [unfold indexFuel; lia|].
  set (s1 := set_resourcesById (fun _ => m') s) in *.
  assert (Hinv1 : forest_inv F [] s1) by by apply (forest_inv_frame F [] s).
  assert (Hsound1 : index_sound s1).
  { intros i l Hl. apply Hsound. by eapply lookup_weaken. }
  destruct (resourcesById s !! rid) as [x|] eqn:Hx; cycle 1.
  { exists s1, F. split.
    { unfold removeClosure. rewrite bind_get. by rewrite (bind_Ok _ _ _ _ _ E1). }
    split_and!; [done|done|done| |done|done|done|by rewrite app_nil_r].
    intros i v Hv. by eapply lookup_weaken. }
  assert (Hinf : ∀ y, y ∈ fnodes F → is_Some (heap s !! y))
    by (intros y; by apply forest_in_heap).
  assert (Hst : stored F TopLevel s1).
  { split_and!; [done|done| |done]. simpl. rewrite bind_get. simpl. by rewrite Htop. }
  pose proof (removeResourceFromTree_forest x (stackFuel s) F TopLevel s1 Hst
                ltac:(unfold stackFuel;
                      pose proof (NoDup_length_le_size (heap s) _ HndF Hinf); lia)) as Hs.
  unfold search_ok in Hs.
  assert (Hframes : ∀ b s2, removeResourceFromTree (stackFuel s) x TopLevel s1 = Ok b s2 →
            fetchState s2 = fetchState s ∧ trace s2 = trace s).
  { intros b s2 E. split.
    - apply (preserves_Ok fetchState _ _ _ _
               (removeResourceFromTree_respects (same fetchState) _ _ _
                  ltac:(by split) ltac:(done)) E).
    - apply (preserves_Ok trace _ _ _ _
               (removeResourceFromTree_respects (same trace) _ _ _
                  ltac:(independent) ltac:(independent)) E). }
  destruct (decide (x ∈ fnodes F)) as [HxF|HxF].
  - destruct Hs as (s2 & E2 & Hd1 & Hd2 & Hd3 & Hd4 & Hd5 & Hd6 & Hd7 & Hd8).
    destruct (Hframes _ _ E2) as [Hfs2 Htr2].
    apply readSiblings_top_inv in Hd1 as [_ Htop2].
    destruct (prune_forest_perm (heap s) x F HndF HxF HF) as (tx & Hroot & Hreptx & Hperm).
    assert (Hndp : NoDup (nodes tx ++ fnodes (prune_forest x F))) by by rewrite <- Hperm.
    apply NoDup_app in Hndp as (_ & _ & Hndpr).
    exists (emit (Trigger_remove x (topLevelResources s2)) s2), (prune_forest x F).
    split.
    { unfold removeClosure. rewrite bind_get. rewrite (bind_Ok _ _ _ _ _ E1).
      rewrite (bind_Ok _ _ _ _ _ E2), bind_get. reflexivity. }
    cbn [heap nextLoc resourcesById topLevelResources trace emit emits].
    split_and!.
    + split_and!; cbn [heap nextLoc topLevelResources emit emits];
        rewrite ?app_nil_r; [|done|done|done].
      intros l r' Hl. destruct (Hd5 l r' Hl) as (r & Hr & Hch).
      destruct (Hcl l r Hr) as [Hlt Hc]. split; [simpl; by rewrite Hd7|].
      intros c Hcin. destruct (Hc c (Hch c Hcin)) as [rc Hrc].
      pose proof (Hd4 c) as Hidc. simpl in Hidc. rewrite Hrc in Hidc. simpl.
      destruct (heap s2 !! c); [eauto|done].
    + intros i l. cbn [heap resourcesById emit emits]. rewrite Hd8, Hd4. apply Hsound1.
    + intros y Hy. rewrite Hperm. apply elem_of_app. by right.
    + intros i v. rewrite Hd8. simpl. intros Hv. by eapply lookup_weaken.
    + by rewrite Hd8.
    + by rewrite Hd7.
    + unfold fetchState in *. simpl. by rewrite Hfs2.
    + by rewrite Htr2.
  - destruct (Hframes _ _ Hs) as [Hfs2 Htr2].
    exists (emit (Trigger_remove x (topLevelResources s1)) s1), F.
    split.
    { unfold removeClosure. rewrite bind_get. rewrite (bind_Ok _ _ _ _ _ E1).
      rewrite (bind_Ok _ _ _ _ _ Hs), bind_get. reflexivity. }
    cbn [heap nextLoc resourcesById topLevelResources trace emit emits].
    split_and!; [by apply (forest_inv_frame F [] s1)|done|done| |done|done|done|done].
    intros i v Hv. simpl in Hv. by eapply lookup_weaken.
Qed.

(** ** Well-formed states and the exceptions of the operations *)

Lemma issued_quiet s s' es k :
  trace s' = trace s ++ es → Forall quiet es → issued s' k → issued s k.
Proof.
  intros Htr Hq. rewrite Forall_forall in Hq. unfold issued. rewrite Htr.
  intros [(a & b & c & H)|(a & b & c & H)]; apply elem_of_app in H as [H|H]; eauto;
    by destruct (Hq _ H).
Qed.

Lemma fetch_inv_quiet s s' es :
  fetch_inv s →
  fetchState s' = fetchState s → currentStart s' = currentStart s →
  trace s' = trace s ++ es → Forall quiet es →
  (is_Some (topLevelResources s) → is_Some (topLevelResources s')) →
  fetch_inv s'.
Proof.
  intros (H1 & H2 & H3 & H4 & H5 & H6) Hfs Hcs Htr Hq Htop.
  unfold fetchState in Hfs. injection Hfs as Hf Hi Hr Hc Ha.
  unfold fetch_inv. rewrite Hf, Hi, Hr, Hc, Ha, Hcs. split_and!; try done.
  - auto.
  - intros k Hk. apply H5. by apply (issued_quiet s s' es).
Qed.

Lemma data_inv_forested s :
  data_inv s → is_Some (topLevelResources s) → ∃ F, forest_inv F [] s.
Proof. intros (_ & _ & [Hn|HF]) [top Htop]; [congruence|done]. Qed.

Lemma forest_data_inv F s : forest_inv F [] s → index_sound s → data_inv s.
Proof. intros HF Hs. split_and!; [apply HF|done|right; by exists F]. Qed.

(** A function held by the manager, called once the top-level list is
    there, returns normally and keeps the state well formed. *)
Lemma invoke_sane cb s :
  sane s → is_Some (topLevelResources s) →
  ∃ s', invoke cb s = Ok tt s' ∧ sane s' ∧ is_Some (topLevelResources s')
        ∧ fetchState s' = fetchState s.
Proof.
  intros [Hd Hf] Htop. destruct (data_inv_forested s Hd Htop) as [F HF].
  assert (Hcs : currentStart (state_of (invoke cb s)) = currentStart s).
  { apply (invoke_respects (same currentStart)); independent. }
  destruct cb as [n|input callback|rid].
  - eexists. split; [reflexivity|]. split_and!; [|done|done].
    split.
    + split_and!; [apply Hd|apply Hd|]. right. exists F.
      by apply (forest_inv_frame F [] s).
    + by apply (fetch_inv_quiet s _ [Call n (topLevelResources s)]);
        [|..|repeat constructor|].
  - destruct (addClosure_any input callback F s HF ltac:(apply Hd))
      as (s' & F' & E & HF' & Hs' & _ & _ & _ & Hfs & Htr).
    simpl in Hcs. rewrite E in Hcs. exists s'. simpl.
    split_and!; [done| |rewrite (proj1 (proj2 HF')); eauto|done].
    split; [by apply (forest_data_inv F')|].
    eapply (fetch_inv_quiet s s'); [done|done|done|exact Htr| |].
    + destruct (bool_decide _); [|constructor].
      destruct callback; repeat constructor.
    + intros _. rewrite (proj1 (proj2 HF')). eauto.
  - destruct (removeClosure_any rid F s HF ltac:(apply Hd))
      as (s' & F' & E & HF' & Hs' & _ & _ & _ & _ & Hfs & Htr).
    simpl in Hcs. rewrite E in Hcs. exists s'. simpl.
    split_and!; [done| |rewrite (proj1 (proj2 HF')); eauto|done].
    split; [by apply (forest_data_inv F')|].
    eapply (fetch_inv_quiet s s'); [done|done|done|exact Htr| |].
    + destruct (resourcesById s !! rid); repeat constructor.
    + intros _. rewrite (proj1 (proj2 HF')). eauto.
Qed.

Lemma invokeAll_sane fs :
  ∀ s, sane s → is_Some (topLevelResources s) →
    ∃ s', forEach fs invoke s = Ok tt s' ∧ sane s' ∧ is_Some (topLevelResources s')
          ∧ fetchState s' = fetchState s.
Proof.
  induction fs as [|cb fs IH]; intros s Hs Htop.
  { exists s. done. }
  destruct (invoke_sane cb s Hs Htop) as (s1 & E1 & Hs1 & Htop1 & Hfs1).
  destruct (IH s1 Hs1 Htop1) as (s' & E & Hs' & Htop' & Hfs').
  exists s'. split_and!; [|done|done|congruence].
  simpl. by rewrite (bind_Ok _ _ _ _ _ E1).
Qed.

Lemma data_inv_frame s s' :
  heap s' = heap s → nextLoc s' = nextLoc s →
  topLevelResources s' = topLevelResources s →
  resourcesById s' = resourcesById s →
  data_inv s → data_inv s'.
Proof.
  intros Hh Hn Ht Hi (Hcl & Hs & Hf). split_and!.
  - by apply (heap_closed_frame s).
  - intros i l. rewrite Hi, Hh. apply Hs.
  - rewrite Ht. destruct Hf as [?|[F HF]]; [by left|right].
    exists F. by apply (forest_inv_frame F [] s).
Qed.

(** Events that hand the closure [k] to the source, among quiet ones. *)
Lemma sane_emits es s k :
  sane s → is_Some (arrays s !! callbacks k) → currentFetchId k ≠ 0%N →
  Forall (fun e => quiet e ∨ (∃ a b c, e = SourceInvoked k a b c)
                   ∨ (∃ d r z, e = RequestSent k d r z)) es →
  sane (emits es s).
Proof.
  intros [Hd (H1 & H2 & H3 & H4 & H5 & H6)] Harr Hk Hes. split.
  { by apply (data_inv_frame s). }
  split_and!; try done.
  intros k' [(a & b & c & H)|(a & b & c & H)]; simpl in H;
    apply elem_of_app in H as [H|H].
  - apply H5. left. eauto.
  - rewrite Forall_forall in Hes.
    destruct (Hes _ H) as [Hq|[(? & ? & ? & Heq)|(? & ? & ? & Heq)]];
      [done|by simplify_eq|done].
  - apply H5. right. eauto.
  - rewrite Forall_forall in Hes.
    destruct (Hes _ H) as [Hq|[(? & ? & ? & Heq)|(? & ? & ? & Heq)]];
      [done|done|by simplify_eq].
Qed.

Lemma sane_quiet es s : sane s → Forall quiet es → sane (emits es s).
Proof.
  intros [Hd Hf] Hq. split; [by apply (data_inv_frame s)|].
  by apply (fetch_inv_quiet s _ es).
Qed.

(** The completion of a fetch returns normally and keeps the state well
    formed, whether it is current or stale. *)
Lemma fetchCompletion_sane k inputs s :
  sane s → is_Some (arrays s !! callbacks k) → currentFetchId k ≠ 0%N →
  ∃ s', fetchCompletion k inputs s = Ok tt s' ∧ sane s'.
Proof.
  intros Hs [fs Hfs] Hk. unfold fetchCompletion. rewrite bind_get.
  case_bool_decide as Hcur; [|by exists s].
  pose proof Hs as [(Hcl & _ & _) (H1 & H2 & H3 & H4 & H5 & H6)].
  destruct (setResources_any inputs s Hcl)
    as (q & F & Eq & HF & Hsound & _ & _ & _ & Hfq & Htr).
  assert (Hcs : currentStart q = currentStart s).
  { apply (preserves_Ok currentStart _ _ _ _
             (setResources_respects (same currentStart) inputs
                ltac:(independent) ltac:(independent) ltac:(independent)
                ltac:(independent) ltac:(independent)) Eq). }
  unfold fetchState in Hfq. injection Hfq as Hf Hi Hr Hc Ha.
  set (q1 := set_fetchingResourcesCallbacks None (set_isFetchingResolved true q)).
  assert (Hq1 : sane q1).
  { split.
    - apply (data_inv_frame q); [done..|]. by apply (forest_data_inv F).
    - split_and!; cbn [q1 isFetchingInitiated isFetchingResolved fetchId arrays
                         fetchingResourcesCallbacks topLevelResources currentStart
                         set_fetchingResourcesCallbacks set_isFetchingResolved].
      + intros _ _. rewrite (proj1 (proj2 HF)). eauto.
      + rewrite Hi, Hf. done.
      + done.
      + rewrite Hf. intros H0. congruence.
      + intros k' Hk'. rewrite Ha. apply H5.
        eapply (issued_quiet s q1); [exact Htr| |done].
        destruct (bool_decide _); repeat constructor.
      + congruence. }
  assert (Htop1 : is_Some (topLevelResources q1)).
  { simpl. rewrite (proj1 (proj2 HF)). eauto. }
  destruct (invokeAll_sane fs q1 Hq1 Htop1) as (s' & E & Hs' & _).
  exists s'. split; [|done].
  rewrite (bind_Ok _ _ _ _ _ Eq), !bind_modify. fold q1.
  unfold applyAll. rewrite bind_get.
  assert (arrays q1 !! callbacks k = Some fs) as -> by (simpl; by rewrite Ha).
  done.
Qed.

Lemma fetchResourceInputs_sane k start end_ s :
  sane s → is_Some (arrays s !! callbacks k) → currentFetchId k ≠ 0%N →
  ∃ s', fetchResourceInputs k start end_ s = Ok tt s' ∧ sane s'.
Proof.
  intros Hs Harr Hk.
  destruct (opt_resources s) as [inputs|u| |d|] eqn:Hsrc.
  - unfold fetchResourceInputs. rewrite bind_get, Hsrc.
    by apply fetchCompletion_sane.
  - rewrite fetchResourceInputs_async by by rewrite Hsrc.
    eexists. split; [done|]. apply (sane_emits _ s k); [done..|].
    unfold startEffects. rewrite Hsrc.
    apply Forall_cons; split; [by left|]. apply Forall_cons; split; [|constructor].
    right. right. by eexists _, _, _.
  - rewrite fetchResourceInputs_async by by rewrite Hsrc.
    eexists. split; [done|]. apply (sane_emits _ s k); [done..|].
    unfold startEffects. rewrite Hsrc.
    apply Forall_cons; split; [by left|]. apply Forall_cons; split; [|constructor].
    right. left. by eexists _, _, _.
  - rewrite fetchResourceInputs_async by by rewrite Hsrc.
    eexists. split; [done|]. apply (sane_emits _ s k); [done..|].
    unfold startEffects. rewrite Hsrc.
    apply Forall_cons; split; [by left|]. apply Forall_cons; split; [|constructor].
    right. right. by eexists _, _, _.
  - unfold fetchResourceInputs. rewrite bind_get, Hsrc.
    by apply fetchCompletion_sane.
Qed.

(** [fetchResources] returns normally and keeps the state well formed. *)
Lemma fetchResources_sane start end_ cb s :
  sane s → ∃ s', fetchResources start end_ cb s = Ok tt s' ∧ sane s'.
Proof.
  intros [Hd (H1 & H2 & H3 & H4 & H5 & H6)].
  unfold fetchResources. rewrite bind_get, !bind_modify.
  set (p := set_fetchingResourcesCallbacks _ _).
  apply fetchResourceInputs_sane; cbn [callbacks currentFetchId]; [| |lia].
  - split; [by apply (data_inv_frame s)|].
    split_and!; cbn [p isFetchingInitiated isFetchingResolved fetchId arrays
                       fetchingResourcesCallbacks topLevelResources currentStart
                       set_fetchingResourcesCallbacks set_isFetchingResolved
                       set_isFetchingInitiated set_fetchId set_arrays set_nextArray].
    + done.
    + lia.
    + intros _ _. eexists _, _. split; [done|]. apply lookup_insert_eq.
    + lia.
    + intros k Hk. destruct (H5 k Hk) as [Harr ?]. split; [|done].
      apply lookup_insert_is_Some'. by right.
    + done.
  - simpl. rewrite lookup_insert_eq. eauto.
Qed.

(** [whenFetchingResolved] once a fetch has been started. *)
Lemma whenFetchingResolved_sane cb s :
  sane s → fetchId s ≠ 0%N →
  (isFetchingResolved s = true → is_Some (topLevelResources s) ∨ ∃ n, cb = UserCallback n) →
  ∃ s', whenFetchingResolved cb s = Ok tt s' ∧ sane s'.
Proof.
  intros Hs Hid Htop. unfold whenFetchingResolved. rewrite bind_get.
  destruct (isFetchingResolved s) eqn:Hres.
  - destruct (Htop eq_refl) as [Ht|[n ->]].
    + destruct (invoke_sane cb s Hs Ht) as (s' & E & Hs' & _). eauto.
    + eexists. split; [reflexivity|]. apply (sane_quiet [_] s Hs). by repeat constructor.
  - pose proof Hs as [Hd (H1 & H2 & H3 & H4 & H5 & H6)].
    destruct (H3 Hres Hid) as (a & fs & Ha & Hfs). rewrite Ha.
    eexists. split; [reflexivity|]. split; [by apply (data_inv_frame s)|].
    split_and!; cbn [isFetchingInitiated isFetchingResolved fetchId arrays
                       fetchingResourcesCallbacks topLevelResources currentStart
                       set_arrays]; try done.
    + intros _ _. exists a, (fs ++ [cb]). split; [done|].
      by rewrite lookup_alter_eq, Hfs.
    + intros k Hk. destruct (H5 k Hk) as [Harr ?]. split; [|done].
      by apply lookup_alter_is_Some.
Qed.

Lemma whenFetchingResolved_unfetched cb s :
  sane s → fetchId s = 0%N → whenFetchingResolved cb s = Throw TypeError s.
Proof.
  intros [_ (_ & _ & _ & H4 & _)] Hid. destruct (H4 Hid) as [Hres Hc].
  unfold whenFetchingResolved. by rewrite bind_get, Hres, Hc.
Qed.

Lemma completes_sane es k inputs s :
  sane s → is_Some (arrays s !! callbacks k) → currentFetchId k ≠ 0%N →
  Forall quiet es →
  ∃ s', fetchCompletion k inputs (emits es s) = Ok tt s' ∧ sane s'.
Proof.
  intros Hs Harr Hk Hq. apply fetchCompletion_sane; [by apply sane_quiet|done|done].
Qed.

Lemma isSameRange_unrecorded start end_ s :
  currentStart s = None →
  isSameRange start end_ s = Ok (bool_decide (start = None)) s.
Proof. intros H. unfold isSameRange. rewrite bind_get, H. by destruct start. Qed.

(** One operation on a well-formed state: it ends as [raises] says, in a
    well-formed state. *)
Lemma step_sane parse op s :
  sane s → legit s op →
  match raises parse op s with
  | None => ∃ s', step parse op s = Ok tt s' ∧ sane s'
  | Some e => ∃ s', step parse op s = Throw e s' ∧ sane s'
  end.
Proof.
  intros Hs Hlegit. pose proof Hs as [Hd (H1 & H2 & H3 & H4 & H5 & H6)].
  destruct op as [start end_ n|start end_ n|n|inputs| | |input callback|a|k inputs
                 |k d err res]; cbn [raises step].
  - (* getResources *)
    unfold getResources.
    rewrite (bind_Ok _ _ _ _ _ (isSameRange_unrecorded start end_ s H6)), bind_get.
    destruct start as [a|]; simpl.
    + rewrite orb_true_r. by apply fetchResources_sane.
    + rewrite orb_false_r. destruct (isFetchingInitiated s) eqn:Hi; simpl.
      * apply whenFetchingResolved_sane; [done|by apply H2|]. intros _. right. by eexists.
      * by apply fetchResources_sane.
  - by apply fetchResources_sane.
  - (* whenFetchingResolved *)
    case_bool_decide as Hid.
    + exists s. split; [by apply whenFetchingResolved_unfetched|done].
    + apply whenFetchingResolved_sane; [done|done|]. intros _. right. by eexists.
  - (* setResources *)
    destruct (setResources_any inputs s ltac:(apply Hd))
      as (s' & F & E & HF & Hsound & _ & _ & _ & Hfs & Htr).
    exists s'. split; [done|]. split; [by apply (forest_data_inv F)|].
    eapply (fetch_inv_quiet s s'); [done|done| |exact Htr| |].
    + apply (preserves_Ok currentStart _ _ _ _
               (setResources_respects (same currentStart) inputs
                  ltac:(independent) ltac:(independent) ltac:(independent)
                  ltac:(independent) ltac:(independent)) E).
    + destruct (bool_decide _); repeat constructor.
    + intros _. rewrite (proj1 (proj2 HF)). eauto.
  - (* resetCurrentResources *)
    unfold resetCurrentResources. rewrite bind_get.
    destruct (topLevelResources s); [|by exists s].
    eexists. split; [reflexivity|]. apply (sane_quiet [_] s Hs). by repeat constructor.
  - (* clear *)
    eexists. split; [reflexivity|]. split.
    + split_and!; [apply Hd|apply Hd|by left].
    + split_and!; try done.
  - (* addResource *)
    unfold addResource. rewrite bind_get.
    destruct (isFetchingInitiated s) eqn:Hi; [|by exists s].
    apply whenFetchingResolved_sane; [done|by apply H2|]. intros Hr. left. by apply H1.
  - (* removeResource *)
    unfold removeResource.
    assert (∃ rid, (match a with
                    | AnId i => ret i
                    | AResource l => let* r := deref l in ret (id r)
                    end) s = Ok rid s) as [rid Hrid].
    { destruct a as [i|l]; [by exists i|]. destruct Hlegit as [r Hr].
      exists (id r). unfold deref, bind. by rewrite Hr. }
    rewrite (bind_Ok _ _ _ _ _ Hrid), bind_get.
    destruct (isFetchingInitiated s) eqn:Hi; [|by exists s].
    apply whenFetchingResolved_sane; [done|by apply H2|]. intros Hr. left. by apply H1.
  - (* the function source completes *)
    destruct Hlegit as (a & b & c & Hin).
    destruct (H5 k) as [Harr Hk]; [left; eauto|].
    unfold sourceCompletes. rewrite bind_modify.
    apply (completes_sane [PopLoading]); [done..|]. by repeat constructor.
  - (* the response of a request arrives *)
    destruct Hlegit as (a & b & Hin).
    destruct (H5 k) as [Harr Hk]; [right; eauto|].
    assert (Hfalsy : ∀ s1 es, s1 = emits es s → Forall quiet es →
              ∃ s', (let* _ := (if error d then modify (emit (ErrorHook err res))
                                else ret tt) in
                     fetchCompletion k []) s1 = Ok tt s' ∧ sane s').
    { intros s1 es -> Hq. destruct (error d).
      - rewrite bind_modify. unfold emit. rewrite emits_emits.
        apply completes_sane; [done..|]. apply Forall_app. split; [done|].
        by repeat constructor.
      - rewrite bind_ret. by apply completes_sane. }
    assert (Harray : ∀ s1 es inputs, s1 = emits es s → Forall quiet es →
              ∃ s', match success d with
                    | Some hook =>
                        let* _ := modify (emit (SuccessHook inputs res)) in
                        fetchCompletion k (default inputs (hook inputs))
                    | None => fetchCompletion k inputs
                    end s1 = Ok tt s' ∧ sane s').
    { intros s1 es inputs -> Hq. destruct (success d) as [hook|].
      - rewrite bind_modify. unfold emit. rewrite emits_emits.
        apply completes_sane; [done..|]. apply Forall_app. split; [done|].
        by repeat constructor.
      - by apply completes_sane. }
    assert (Hq : Forall quiet [PopLoading]) by by repeat constructor.
    unfold onResponse. rewrite bind_modify.
    destruct err as [e|].
    { rewrite bind_ret. by apply (Hfalsy _ [PopLoading]). }
    destruct (body res) as [inputs|] eqn:Hbody.
    { rewrite bind_ret. by apply (Harray _ [PopLoading]). }
    case_bool_decide as Htext.
    { rewrite bind_ret. by apply (Hfalsy _ [PopLoading]). }
    destruct (parse (text res)) as [[inputs|]|] eqn:Hparse.
    + rewrite bind_ret. by apply (Harray _ [PopLoading]).
    + rewrite bind_ret. by apply (Hfalsy _ [PopLoading]).
    + eexists. split; [reflexivity|]. by apply (sane_quiet [PopLoading]).
Qed.

Lemma sane_newManager resources timezone : sane (newManager resources timezone).
Proof.
  split.
  - split_and!.
    + intros l r H. simpl in H. by rewrite lookup_empty in H.
    + intros i l H. simpl in H. by rewrite lookup_empty in H.
    + right. exists []. split_and!; [|done|constructor|constructor].
      intros l r H. simpl in H. by rewrite lookup_empty in H.
  - split_and!; try done.
    intros k [(a & b & c & H)|(a & b & c & H)]; simpl in H; by apply elem_of_nil in H.
Qed.

Lemma exec_sane parse op s : sane s → legit s op → sane (exec parse s op).
Proof.
  intros Hs Hl. pose proof (step_sane parse op s Hs Hl) as H. unfold exec.
  destruct (raises parse op s); destruct H as (s' & -> & Hs'); done.
Qed.

Lemma run_sane parse ops :
  ∀ s, sane s → legitRun parse ops s →
    sane (run parse ops s) ∧ endsAsExpected parse ops s.
Proof.
  induction ops as [|op ops IH]; intros s Hs Hl; [done|].
  destruct Hl as [Hl1 Hl2].
  destruct (IH (exec parse s op) (exec_sane parse op s Hs Hl1) Hl2) as [Hrun Hends].
  split; [done|]. split; [|done].
  pose proof (step_sane parse op s Hs Hl1) as H.
  destruct (raises parse op s); destruct H as (s' & -> & _); eauto.
Qed.






(** X6 — the tree in every state that a new manager can reach: unless
    the top-level list is null, it and the children arrays below it form a
    forest of heap objects in which no resource occurs twice, and the
    resources reachable from the top-level list are exactly the objects of
    that forest. *)
Theorem tree_of_reachable_states parse resources timezone ops :
  legitRun parse ops (newManager resources timezone) →
  let s := run parse ops (newManager resources timezone) in
  ∀ top, topLevelResources s = Some top →
    NoDup top
    ∧ ∃ F, top = root <$> F ∧ Forall (repr (heap s)) F ∧ NoDup (fnodes F)
           ∧ ∀ l, reachable s l ↔ l ∈ fnodes F.
Proof.
  intros Hl s top Htop.
  destruct (run_sane parse ops _ (sane_newManager resources timezone) Hl)
    as [[Hd _] _]. fold s in Hd.
  destruct (data_inv_forested s Hd ltac:(eauto)) as (F & _ & HtopF & HF & Hnd).
  rewrite app_nil_r in *. rewrite Htop in HtopF. injection HtopF as ->.
  split; [by apply NoDup_roots|]. exists F. split_and!; [done|done|done|].
  by apply reachable_iff_nodes.
Qed.

Lemma tree_of_reachable_states_witness :
  ∃ top, topLevelResources (run (fun _ => None) demoSession (newManager SrcFunction None))
         = Some top ∧ NoDup top.
Proof.
  eexists. split; [vm_compute; reflexivity|].
  exact (proj1 (tree_of_reachable_states (fun _ => None) SrcFunction None demoSession
                  ltac:(repeat split; exists None, None, None; vm_compute; right; left) _ eq_refl)).
Defined.

(** ** [setResources] *)



(** ** [addResource] *)

Lemma addResourceToIndex_taken fuel s l r :
  heap s !! l = Some r → is_Some (resourcesById s !! id r) →
  addResourceToIndex (S fuel) l s = Ok false s.
Proof.
  intros Hl [v Hv]. simpl. unfold deref, bind at 1. rewrite Hl, bind_get. by rewrite Hv.
Qed.

(** X8 — once the fetch has resolved, [addResource] with an input whose
    identifier is already indexed is ignored: it returns normally, emits
    nothing, calls no callback, and leaves the index, the top-level list
    and every existing object as they were.  The objects of the input are
    built nonetheless and stay unreferenced. *)
Theorem addResource_duplicate_ignored s input callback :
  heap_closed s → resolved s →
  is_Some (resourcesById s !! builtIdent input s) →
  ∃ s', addResource input callback s = Ok tt s'
    ∧ resourcesById s' = resourcesById s
    ∧ topLevelResources s' = topLevelResources s
    ∧ trace s' = trace s
    ∧ (∀ l, l < nextLoc s → heap s' !! l = heap s !! l)
    ∧ nextLoc s' = nextLoc s + inputSize input.
Proof.
  intros Hcl Hres Hdup.
  destruct (buildResource_spec input s) as (s1 & E1 & _ & _ & Hfr1 & (kids & Hroot) & _).
  destruct (buildResource_keeps input s _ _ E1) as (Hn1 & Hidx1 & Htop1 & _ & Htr1).
  exists s1. split_and!; try done.
  rewrite (addResource_resolved input callback s Hres).
  unfold addClosure. rewrite (bind_Ok _ _ _ _ _ E1), bind_get.
  unfold stackFuel.
  rewrite (bind_Ok _ _ _ _ _
             (addResourceToIndex_taken _ s1 (nextLoc s) _ Hroot
                ltac:(by rewrite Hidx1))).
  done.
Qed.

Lemma addResource_duplicate_ignored_witness :
  ∃ s', addResource (ResourceInput (Some "a") None []) (Some 3) demoState = Ok tt s'
    ∧ resourcesById s' = resourcesById demoState
    ∧ trace s' = [].
Proof.
  destruct (addResource_duplicate_ignored demoState (ResourceInput (Some "a") None [])
              (Some 3) (proj1 demoState_closed))
    as (s' & E & Hi & _ & Ht & _).
  - split; reflexivity.
  - by eexists.
  - exists s'. split_and!; [exact E|exact Hi|exact Ht].
Defined.






(** ** Resources added while a fetch is pending *)







(** ** Completions *)

(** X13 — a stale completion installs nothing: when the generation of the
    closure is not the current one, the completion of a function source
    only decrements the loading counter, and the response of a request
    decrements it and still runs the hook of the source that applies, if
    any; neither touches the resource data or the fetch state, nor calls a
    callback.  (A response text that is not JSON raises as it does for a
    current generation.) *)
Theorem stale_completion_effects parse k d err res inputs s :
  currentFetchId k ≠ fetchId s →
  sourceCompletes k inputs s = Ok tt (emit PopLoading s)
  ∧ ∃ es, state_of (onResponse parse k d err res s) = emits (PopLoading :: es) s
      ∧ (es = [] ∨ (∃ a, es = [SuccessHook a res]) ∨ es = [ErrorHook err res]).
Proof.
  intros Hk. split.
  { unfold sourceCompletes. rewrite bind_modify. by apply fetchCompletion_stale. }
  assert (Hfalsy : ∃ es,
            state_of ((let* _ := (if error d then modify (emit (ErrorHook err res))
                                  else ret tt) in
                       fetchCompletion k []) (emit PopLoading s))
            = emits (PopLoading :: es) s
            ∧ (es = [] ∨ (∃ a, es = [SuccessHook a res]) ∨ es = [ErrorHook err res])).
  { destruct (error d).
    - exists [ErrorHook err res]. rewrite bind_modify, fetchCompletion_stale by done.
      split; [|by right; right]. unfold emit. cbn [state_of]. by rewrite emits_emits.
    - exists []. rewrite bind_ret, fetchCompletion_stale by done. split; [done|by left]. }
  assert (Harray : ∀ a, ∃ es,
            state_of (match success d with
                      | Some hook =>
                          let* _ := modify (emit (SuccessHook a res)) in
                          fetchCompletion k (default a (hook a))
                      | None => fetchCompletion k a
                      end (emit PopLoading s))
            = emits (PopLoading :: es) s
            ∧ (es = [] ∨ (∃ a, es = [SuccessHook a res]) ∨ es = [ErrorHook err res])).
  { intros a. destruct (success d) as [hook|].
    - exists [SuccessHook a res]. rewrite bind_modify, fetchCompletion_stale by done.
      split; [|right; left; by eexists]. unfold emit. cbn [state_of].
      by rewrite emits_emits.
    - exists []. rewrite fetchCompletion_stale by done. split; [done|by left]. }
  unfold onResponse. rewrite bind_modify.
  destruct err as [e|]; [by rewrite bind_ret|].
  destruct (body res) as [a|]; [rewrite bind_ret; apply Harray|].
  case_bool_decide; [by rewrite bind_ret|].
  destruct (parse (text res)) as [[a|]|].
  - rewrite bind_ret. apply Harray.
  - by rewrite bind_ret.
  - exists []. split; [done|by left].
Qed.

Lemma stale_completion_effects_witness :
  sourceCompletes (mkFetchClosure 7 0) [ResourceInput (Some "q") None []] demoState
  = Ok tt (emit PopLoading demoState).
Proof.
  refine (proj1 (stale_completion_effects (fun _ => None) (mkFetchClosure 7 0)
                   (mkDescriptor "u" None None false) None (mkResponse JsonFalsy "")
                   [ResourceInput (Some "q") None []] demoState _)).
  vm_compute. discriminate.
Defined.

Lemma setResources_nil s :
  setResources [] s
  = Ok tt (emits [ (if bool_decide (is_Some (topLevelResources s))
                    then Trigger_reset (Some []) else Trigger_set (Some []));
                   PubliclyTrigger_resourcesSet (Some []) ]
             (set_resourcesById (fun _ => ∅) (set_topLevelResources (Some []) s))).
Proof.
  transitivity
    (Ok tt (emit (PubliclyTrigger_resourcesSet (Some []))
              (emit (if bool_decide (is_Some (topLevelResources s))
                     then Trigger_reset (Some []) else Trigger_set (Some []))
                 (set_resourcesById (fun _ => ∅)
                    (set_topLevelResources (Some []) s))))); [reflexivity|].
  unfold emit. by rewrite emits_emits.
Qed.

(** X14 — a failed response empties the cache.  When the response of the
    current generation carries a transport error, or no parsed body and a
    text that is empty or parses to a falsy value, the handler decrements
    the loading counter, calls the error hook of the source when it has one
    with the error and the response, and completes the fetch with no
    inputs: the index becomes empty and the top-level list the empty
    array, whatever was cached before, the fetch is resolved, and the
    waiting callbacks are called with the empty list. *)
Theorem failed_response_empties_cache parse k d err res s ns :
  failedResponse parse err res →
  currentFetchId k = fetchId s →
  arrays s !! callbacks k = Some (map UserCallback ns) →
  ∃ s', onResponse parse k d err res s = Ok tt s'
    ∧ resourcesById s' = ∅
    ∧ topLevelResources s' = Some []
    ∧ isFetchingResolved s' = true
    ∧ fetchingResourcesCallbacks s' = None
    ∧ heap s' = heap s
    ∧ trace s' = trace s ++
        PopLoading :: (if error d then [ErrorHook err res] else []) ++
        [ (if bool_decide (is_Some (topLevelResources s))
           then Trigger_reset (Some []) else Trigger_set (Some []));
          PubliclyTrigger_resourcesSet (Some []) ] ++
        map (fun n => Call n (Some [])) ns.
Proof.
  intros Hfail Hk Harr.
  assert (Hin : onResponse parse k d err res s
                = (let* _ := (if error d then modify (emit (ErrorHook err res))
                              else ret tt) in
                   fetchCompletion k []) (emit PopLoading s)).
  { unfold onResponse. rewrite bind_modify.
    destruct Hfail as [[e ->]|(Hb & [Ht|Ht])].
    - by rewrite bind_ret.
    - destruct err; [by rewrite bind_ret|]. rewrite Hb.
      by rewrite bool_decide_eq_true_2, bind_ret by done.
    - destruct err; [by rewrite bind_ret|]. rewrite Hb.
      case_bool_decide; [by rewrite bind_ret|]. by rewrite Ht, bind_ret. }
  assert (Hdone : ∀ es, fetchCompletion k [] (emits es s)
            = Ok tt (emits (map (fun n => Call n (Some [])) ns)
                       (set_fetchingResourcesCallbacks None
                          (set_isFetchingResolved true
                             (emits [ (if bool_decide (is_Some (topLevelResources s))
                                       then Trigger_reset (Some [])
                                       else Trigger_set (Some []));
                                      PubliclyTrigger_resourcesSet (Some []) ]
                                (set_resourcesById (fun _ => ∅)
                                   (set_topLevelResources (Some []) (emits es s)))))))).
  { intros es. unfold fetchCompletion. rewrite bind_get.
    rewrite bool_decide_eq_true_2 by done.
    rewrite (bind_Ok _ _ _ _ _ (setResources_nil _)), !bind_modify.
    unfold applyAll. rewrite bind_get. cbn [arrays emits set_fetchingResourcesCallbacks
      set_isFetchingResolved set_resourcesById set_topLevelResources].
    rewrite Harr. by rewrite applyUserCallbacks. }
  rewrite Hin. destruct (error d).
  - rewrite bind_modify. unfold emit. rewrite emits_emits, Hdone.
    eexists. split; [done|]. cbn [resourcesById topLevelResources isFetchingResolved
      fetchingResourcesCallbacks heap trace emits set_fetchingResourcesCallbacks
      set_isFetchingResolved set_resourcesById set_topLevelResources].
    split_and!; try done. by rewrite <- !app_assoc.
  - rewrite bind_ret. unfold emit. rewrite Hdone.
    eexists. split; [done|]. cbn [resourcesById topLevelResources isFetchingResolved
      fetchingResourcesCallbacks heap trace emits set_fetchingResourcesCallbacks
      set_isFetchingResolved set_resourcesById set_topLevelResources].
    split_and!; try done. by rewrite <- !app_assoc.
Qed.

Lemma failed_response_empties_cache_witness :
  let s := set_arrays <[0 := [UserCallback 5]]> demoState in
  ∃ s', onResponse (fun _ => None) (mkFetchClosure 1 0)
          (mkDescriptor "/r" None None true) (Some "timeout") (mkResponse JsonFalsy "") s
        = Ok tt s'
    ∧ resourcesById s' = ∅
    ∧ topLevelResources s' = Some [].
Proof.
  intros s.
  destruct (failed_response_empties_cache (fun _ => None) (mkFetchClosure 1 0)
              (mkDescriptor "/r" None None true) (Some "timeout")
              (mkResponse JsonFalsy "") s [5])
    as (s' & E & Hi & Ht & _).
  - left. by eexists.
  - reflexivity.
  - reflexivity.
  - exists s'. split_and!; [exact E|exact Hi|exact Ht].
Defined.

(** ** Sources that complete at once *)



(** ** [getResources] and [clear] *)

(** X16 — what [getResources] does in any state that a new manager can
    reach, whatever was called before: with a start date it always starts a
    new fetch; without one it starts a fetch unless one has been initiated
    since the last [clear], in which case the callback is served by
    [whenFetchingResolved]; the end date is never looked at. *)
Theorem getResources_decision parse resources timezone ops start end_ cb :
  let s := run parse ops (newManager resources timezone) in
  getResources start end_ cb s =
    if bool_decide (start = None) && isFetchingInitiated s
    then whenFetchingResolved cb s
    else fetchResources start end_ cb s.
Proof.
  intros s.
  assert (Hcs : currentStart s = None).
  { unfold s. by rewrite (proj1 (run_currentStart parse ops _)). }
  unfold getResources.
  rewrite (bind_Ok _ _ _ _ _ (isSameRange_unrecorded start end_ s Hcs)), bind_get.
  destruct start; simpl; [by rewrite orb_true_r|].
  rewrite orb_false_r. by destruct (isFetchingInitiated s).
Qed.

(** X17 — [clear] forgets that the resources were fetched, not the
    resources: the index and the heap are as before and the resolved flag
    stays as it was, while the top-level list is null.  Until the next
    fetch, [resetCurrentResources], [addResource] and [removeResource] do
    nothing, a callback given to [whenFetchingResolved] on a resolved
    manager is called with null, and [getResources] starts a fetch. *)
Theorem clear_keeps_index s :
  ∃ s', clear s = Ok tt s'
    ∧ resourcesById s' = resourcesById s
    ∧ heap s' = heap s
    ∧ topLevelResources s' = None
    ∧ isFetchingResolved s' = isFetchingResolved s
    ∧ resetCurrentResources s' = Ok tt s'
    ∧ (∀ input callback, addResource input callback s' = Ok tt s')
    ∧ (∀ rid, removeResource (AnId rid) s' = Ok tt s')
    ∧ (isFetchingResolved s = true →
         ∀ n, whenFetchingResolved (UserCallback n) s' = Ok tt (emit (Call n None) s'))
    ∧ (currentStart s = None →
         ∀ start end_ cb, getResources start end_ cb s' = fetchResources start end_ cb s').
Proof.
  eexists. split; [reflexivity|]. split_and!; try reflexivity.
  - intros Hr n. unfold whenFetchingResolved. rewrite bind_get. simpl. by rewrite Hr.
  - intros Hcs start end_ cb. unfold getResources.
    rewrite (bind_Ok _ _ _ _ _
               (isSameRange_unrecorded start end_
                  (set_topLevelResources None (set_isFetchingInitiated false s)) Hcs)),
      bind_get.
    done.
Qed.

(** ** [removeResource] *)




